(** * HelloAPI: the two documentation normalizers

    A shallow embedding of the OpenAPI/Swagger normalizer
    ([parseOpenApiSpec]) and of the free-text normalizer
    ([parseTextDocs]) of HelloAPI, together with the properties of the
    canonical model they produce.

    Conventions of the embedding.
    - A JavaScript string is a [string]; one [ascii] stands for one UTF-16
      code unit, so the texts covered are those over U+0000..U+00FF.
    - A decoded document is a [value]: a finite tree, as [JSON.parse]
      builds it.  The entries of an object are listed in the order in which
      JavaScript enumerates them: the names that are array indices first,
      in ascending order, then the other names in the order of the
      document.  An object that reaches itself, as js-yaml builds from an
      anchor and its alias, stands as its unfolding, to a depth beyond the
      room of the call stack: the normalizer follows a document to a fixed
      depth but for the recursion over schemas, which runs out of stack on
      such an object as it does on its unfolding.
    - A TypeScript cast ([x as string]) does nothing at run time, so a field
      that the source fills from the document holds a [value].
    - Code that can throw lives in the [result] monad.
    - What the host and the libraries provide (the two decoders, number
      formatting, the [URL] class, the room of the call stack) is a
      [Host]; every statement holds for every host. *)

From Stdlib Require Import String Ascii List ZArith Lia Bool.
From Stdlib Require Import Floats.PrimFloat Floats.SpecFloat Floats.FloatOps Uint63 DecimalString.
From Stdlib Require Floats.FloatAxioms.
From stdpp Require Import base option list gmap strings.

Open Scope string_scope.
Open Scope list_scope.

Set Warnings "-register-all".

(** ** Values and exceptions *)

Inductive value :=
| VUndefined
| VNull
| VBool (b : bool)
| VNum (x : float)
| VStr (s : string)
| VArr (items : list value)
| VObj (props : list (string * value)).

Inductive exn :=
| Error (message : string)
| TypeError
| RangeError.

Inductive result (A : Type) :=
| Ok (a : A)
| Throw (e : exn).

Arguments Ok {A} a.
Arguments Throw {A} e.

#[global] Instance result_ret : MRet result := fun A a => Ok a.

#[global] Instance result_bind : MBind result :=
  fun A B f m => match m with Ok a => f a | Throw e => Throw e end.

#[global] Instance result_fmap : FMap result :=
  fun A B f m => match m with Ok a => Ok (f a) | Throw e => Throw e end.

(** ** Strings *)

Definition chars (s : string) : list ascii := list_ascii_of_string s.

Definition str (l : list ascii) : string := string_of_list_ascii l.

Definition code (c : ascii) : N := N_of_ascii c.

Definition in_range (lo hi : N) (c : ascii) : bool :=
  ((lo <=? code c) && (code c <=? hi))%N.

(** [toLowerCase] on one code unit: A-Z, and the capital letters of
    U+00C0..U+00DE (the multiplication sign U+00D7 is no letter). *)
Definition lower_unit (c : ascii) : ascii :=
  if in_range 65 90 c || (in_range 192 222 c && negb (code c =? 215)%N)
  then ascii_of_N (code c + 32)
  else c.

Definition toLowerCase (s : string) : string := str (map lower_unit (chars s)).

(** [toUpperCase] on one code unit.  The sharp s becomes two letters; the
    capitals of U+00B5 and U+00FF lie outside the alphabet of the embedding
    and those two units are kept. *)
Definition upper_unit (c : ascii) : list ascii :=
  if in_range 97 122 c || (in_range 224 254 c && negb (code c =? 247)%N)
  then [ascii_of_N (code c - 32)]
  else if (code c =? 223)%N then ["S"%char; "S"%char]
  else [c].

Definition toUpperCase (s : string) : string := str (flat_map upper_unit (chars s)).

Fixpoint prefixb (p l : list ascii) : bool :=
  match p, l with
  | [], _ => true
  | a :: p', b :: l' => Ascii.eqb a b && prefixb p' l'
  | _ :: _, [] => false
  end.

Fixpoint infixb (p l : list ascii) : bool :=
  prefixb p l || match l with [] => false | _ :: l' => infixb p l' end.

(** [s.includes(t)] *)
Definition includes (s t : string) : bool := infixb (chars t) (chars s).

(** [s.startsWith(t)] *)
Definition startsWith (s t : string) : bool := prefixb (chars t) (chars s).

(** [l.includes(s)] on an array of strings *)
Definition mem (s : string) (l : list string) : bool := existsb (String.eqb s) l.

(** [l.join(sep)] *)
Fixpoint join (sep : string) (l : list string) : string :=
  match l with
  | [] => ""
  | [s] => s
  | s :: r => s +:+ sep +:+ join sep r
  end.

(** [s.substring(a, b)] for [a <= b] *)
Definition slice (s : string) (a b : nat) : string :=
  str (firstn (b - a) (skipn a (chars s))).

(** White space and line terminators, as [\s] and [trim] count them. *)
Definition space (c : ascii) : bool :=
  in_range 9 13 c || (code c =? 32)%N || (code c =? 160)%N.

Fixpoint drop_while (f : ascii -> bool) (l : list ascii) : list ascii :=
  match l with
  | c :: r => if f c then drop_while f r else l
  | [] => []
  end.

(** [s.trim()] *)
Definition trim (s : string) : string :=
  str (rev (drop_while space (rev (drop_while space (chars s))))).

Fixpoint split_units (sep : ascii) (l : list ascii) : list (list ascii) :=
  match l with
  | [] => [[]]
  | c :: r =>
      if Ascii.eqb c sep then [] :: split_units sep r
      else match split_units sep r with
           | w :: ws => (c :: w) :: ws
           | [] => [[c]]
           end
  end.

(** [s.split(sep)] for a separator of one code unit *)
Definition split (sep : ascii) (s : string) : list string :=
  map str (split_units sep (chars s)).

(** [s.replace(/[class]/g, '')] *)
Definition remove_each (class : ascii -> bool) (s : string) : string :=
  str (List.filter (fun c => negb (class c)) (chars s)).

(** The decimal spelling of an array index. *)
Definition index_key (i : nat) : string := NilZero.string_of_uint (Nat.to_uint i).

Definition number_of_nat (n : nat) : float := PrimFloat.of_uint63 (Uint63.of_Z (Z.of_nat n)).

(** ** Reading values *)

(** [!!v] *)
Definition truthy (v : value) : bool :=
  match v with
  | VUndefined | VNull => false
  | VBool b => b
  | VNum x => negb (PrimFloat.eqb x 0%float) && PrimFloat.eqb x x
  | VStr s => negb (String.eqb s "")
  | VArr _ | VObj _ => true
  end.

(** [a || b] *)
Definition or_else (a b : value) : value := if truthy a then a else b.

Fixpoint indexed {A : Type} (i : nat) (l : list A) : list (string * A) :=
  match l with
  | [] => []
  | x :: r => (index_key i, x) :: indexed (S i) r
  end.

Definition units (s : string) : list value :=
  map (fun c => VStr (String c EmptyString)) (chars s).

(** The own enumerable properties of a value, in enumeration order: the
    entries of an object, the elements of an array and the code units of a
    string under their indices. *)
Definition own_entries (v : value) : list (string * value) :=
  match v with
  | VObj props => props
  | VArr items => indexed 0 items
  | VStr s => indexed 0 (units s)
  | _ => []
  end.

Fixpoint assoc (k : string) (l : list (string * value)) : value :=
  match l with
  | [] => VUndefined
  | (k', v) :: r => if String.eqb k k' then v else assoc k r
  end.

(** [v[k]].  Reading a property of [undefined] or [null] throws.  None of
    the property names the normalizers read is inherited from a prototype,
    so a name that is no own property reads as [undefined]. *)
Definition get (v : value) (k : string) : result value :=
  match v with
  | VUndefined | VNull => Throw TypeError
  | VArr items =>
      if String.eqb k "length" then Ok (VNum (number_of_nat (length items)))
      else Ok (assoc k (own_entries v))
  | VStr s =>
      if String.eqb k "length" then Ok (VNum (number_of_nat (String.length s)))
      else Ok (assoc k (own_entries v))
  | _ => Ok (assoc k (own_entries v))
  end.

(** [v?.[k]] *)
Definition get_opt (v : value) (k : string) : result value :=
  match v with
  | VUndefined | VNull => Ok VUndefined
  | _ => get v k
  end.

(** [Object.entries(v)] *)
Definition Object_entries (v : value) : result (list (string * value)) :=
  match v with
  | VUndefined | VNull => Throw TypeError
  | _ => Ok (own_entries v)
  end.

(** [Object.keys(v)] *)
Definition Object_keys (v : value) : result (list string) :=
  fmap (map fst) (Object_entries v).

(** [Object.values(v)] *)
Definition Object_values (v : value) : result (list value) :=
  fmap (map snd) (Object_entries v).

(** [a[0]] on an array of strings built by the program. *)
Definition first_key (ks : list string) : value :=
  match ks with
  | [] => VUndefined
  | k :: _ => VStr k
  end.

(** [a[0]] on an array of values built by the program. *)
Definition first_value (vs : list value) : value :=
  match vs with
  | [] => VUndefined
  | v :: _ => v
  end.

(** Iteration ([...v] and [for (const x of v)]): arrays and strings are
    iterable, nothing else a decoder returns is. *)
Definition iterate (v : value) : result (list value) :=
  match v with
  | VArr items => Ok items
  | VStr s => Ok (units s)
  | _ => Throw TypeError
  end.

(** The receiver of an array method ([v.map], [v.filter]): calling it on
    anything but an array is a TypeError. *)
Definition as_array (v : value) : result (list value) :=
  match v with
  | VArr items => Ok items
  | _ => Throw TypeError
  end.

(** [v.toLowerCase()] *)
Definition call_toLowerCase (v : value) : result string :=
  match v with
  | VStr s => Ok (toLowerCase s)
  | _ => Throw TypeError
  end.

(** [v === 'lit'] *)
Definition is_str (v : value) (lit : string) : bool :=
  match v with
  | VStr s => String.eqb s lit
  | _ => false
  end.

(** [v !== undefined] *)
Definition defined (v : value) : bool :=
  match v with
  | VUndefined => false
  | _ => true
  end.

(** [v.includes(name)] for a string [name]: membership in an array,
    containment in a string. *)
Definition call_includes (v : value) (name : string) : result bool :=
  match v with
  | VArr items => Ok (existsb (fun x => is_str x name) items)
  | VStr s => Ok (includes s name)
  | _ => Throw TypeError
  end.

(** ** The host *)

Class Host := {
  (** [JSON.parse]; [None] when it throws. *)
  JSON_parse : string -> option value;
  (** [yaml.load] of js-yaml; [None] when it throws.  A document in which
      an alias makes an object reach itself is given unfolded, deeper than
      [stack_room]. *)
  yaml_load : string -> option value;
  (** The room of the call stack: the number of nested calls of
      [flattenSchema] that fit in it when the normalizer calls that
      function.  One call more overflows the stack, and the engine throws
      a RangeError.  How many calls fit depends on the engine; the
      statements hold for every number. *)
  stack_room : nat;
  (** [Number::toString]. *)
  Number_toString : float -> string;
  (** [StringToNumber]. *)
  String_toNumber : string -> float;
  (** [ToPrimitive] on an array or an object; [None] when it throws, and
      what it throws is a TypeError. *)
  ToPrimitive : value -> option value;
  (** [new URL(u).pathname]; [None] when the constructor throws. *)
  URL_pathname : string -> option string
}.

(** A character class given by its members. *)
Definition one_of (members : string) (c : ascii) : bool :=
  existsb (Ascii.eqb c) (chars members).

(** [s.replace(/[class]/g, r)] for a class of single code units. *)
Definition replace_each (class : ascii -> bool) (r : ascii) (s : string) : string :=
  str (map (fun c => if class c then r else c) (chars s)).

(** ** The canonical model (types.ts) *)

Module AuthScheme.
Inductive kind := apiKey | bearer | basic | oauth2 | none | unknown.
Record t := mk {
  type : kind;
  headerName : value;
  queryParamName : value;
  scheme : value;
  description : value;
  flows : value
}.
End AuthScheme.

Module Param.
Record t := mk {
  name : value;
  in_ : value;
  required : bool;
  description : value;
  type : value;
  default : value;
  enum : value;
  example : value
}.
End Param.

Module SchemaField.
Inductive t := mk {
  name : string;
  type : value;
  required : bool;
  description : value;
  default : value;
  enum : value;
  example : value;
  nested : option (list t)
}.
End SchemaField.

Module RequestBody.
Record t := mk {
  required : bool;
  contentType : value;
  schema : list SchemaField.t;
  example : value
}.
End RequestBody.

Module ResponseDef.
Record t := mk {
  statusCode : string;
  description : value;
  schema : option (list SchemaField.t);
  example : value
}.
End ResponseDef.

Module Endpoint.
Record t := mk {
  id : value;
  method : string;
  path : string;
  summary : value;
  description : value;
  tag : value;
  operationId : value;
  parameters : list Param.t;
  requestBody : option RequestBody.t;
  responses : list ResponseDef.t;
  auth : bool;
  deprecated : option bool
}.
End Endpoint.

Module TagGroup.
Record t := mk {
  name : value;
  description : value;
  endpointIds : list value
}.
End TagGroup.

Module PaginationHint.
Inductive kind := cursor | offset | page | unknown.
Record t := mk {
  type : kind;
  parameters : list value;
  description : value
}.
End PaginationHint.

Module RateLimitHint.
Record t := mk {
  statusCode : Z;
  retryHeader : string;
  description : value
}.
End RateLimitHint.

Module ApiSpec.
Inductive source := openapi | text.
Record t := mk {
  title : value;
  description : value;
  version : value;
  baseUrl : value;
  auth : AuthScheme.t;
  endpoints : list Endpoint.t;
  tags : list TagGroup.t;
  paginationHints : list PaginationHint.t;
  rateLimitHints : list RateLimitHint.t;
  sourceType : source
}.
End ApiSpec.

Module ParseResult.
Record t := mk {
  spec : ApiSpec.t;
  warnings : list string;
  todos : list string
}.
End ParseResult.

(** ** Conversions *)

Section Conversions.

Context `{Host}.

Definition ToString_primitive (v : value) : result string :=
  match v with
  | VUndefined => Ok "undefined"
  | VNull => Ok "null"
  | VBool true => Ok "true"
  | VBool false => Ok "false"
  | VNum x => Ok (Number_toString x)
  | VStr s => Ok s
  | VArr _ | VObj _ => Throw TypeError
  end.

(** [ToString], as a template literal and [String(v)] apply it. *)
Definition ToString (v : value) : result string :=
  match v with
  | VArr _ | VObj _ =>
      match ToPrimitive v with
      | Some p => ToString_primitive p
      | None => Throw TypeError
      end
  | _ => ToString_primitive v
  end.

Definition ToNumber_primitive (v : value) : result float :=
  match v with
  | VUndefined => Ok nan
  | VNull => Ok 0%float
  | VBool b => Ok (if b then 1%float else 0%float)
  | VNum x => Ok x
  | VStr s => Ok (String_toNumber s)
  | VArr _ | VObj _ => Throw TypeError
  end.

Definition ToNumber (v : value) : result float :=
  match v with
  | VArr _ | VObj _ =>
      match ToPrimitive v with
      | Some p => ToNumber_primitive p
      | None => Throw TypeError
      end
  | _ => ToNumber_primitive v
  end.

(** [v > 0] *)
Definition gt_zero (v : value) : result bool :=
  x ← ToNumber v; mret (PrimFloat.ltb 0%float x).

End Conversions.

(** ** The OpenAPI / Swagger normalizer *)

Module OpenApiParser.

Section WithHost.

Context `{Host}.

(** *** Base URL *)

Definition extractBaseUrl (doc : value) (isSwagger2 : bool) : result value :=
  if isSwagger2 then
    host ← get doc "host";
    bp ← get doc "basePath";
    let basePath := or_else bp (VStr "") in
    sc ← get doc "schemes";
    let schemes := or_else sc (VArr [VStr "https"]) in
    if truthy host then
      s0 ← get schemes "0";
      a ← ToString s0;
      b ← ToString host;
      c ← ToString basePath;
      mret (VStr (a +:+ "://" +:+ b +:+ c))
    else mret VNull
  else
    servers ← get doc "servers";
    if truthy servers then
      len ← get servers "length";
      some ← gt_zero len;
      if some : bool then (s0 ← get servers "0"; get s0 "url") else mret VNull
    else mret VNull.

(** *** Auth *)

Definition auth_none : AuthScheme.t :=
  AuthScheme.mk AuthScheme.none VUndefined VUndefined VUndefined
    (VStr "No authentication detected.") VUndefined.

Definition no_schemes_warning : string :=
  "No security schemes found — API might be public or auth docs are missing.".

(** [extractAuth(doc, isSwagger2, warnings)]; the array that the source
    pushes on is returned beside the scheme. *)
Definition extractAuth (doc : value) (isSwagger2 : bool) (warnings : list string)
  : result (AuthScheme.t * list string) :=
  secDefs ← (if isSwagger2 then get doc "securityDefinitions"
             else (components ← get doc "components"; get_opt components "securitySchemes"));
  ks ← (if truthy secDefs then Object_keys secDefs else mret []);
  if negb (truthy secDefs) || (length ks =? 0)%nat then
    mret (auth_none, warnings ++ [no_schemes_warning])
  else
    vs ← Object_values secDefs;
    let first := first_value vs in
    ty ← get first "type";
    schemeType ← call_toLowerCase (or_else ty (VStr ""));
    if String.eqb schemeType "apikey" then
      loc ← get first "in";
      name ← get first "name";
      d ← get first "description";
      description ← (if truthy d then mret d
                     else (a ← ToString loc; b ← ToString name;
                           mret (VStr ("API Key in " +:+ a +:+ ": " +:+ b))));
      mret (AuthScheme.mk AuthScheme.apiKey
              (if is_str loc "header" then name else VUndefined)
              (if is_str loc "query" then name else VUndefined)
              VUndefined description VUndefined, warnings)
    else if String.eqb schemeType "http" then
      sch ← get first "scheme";
      scheme ← call_toLowerCase (or_else sch (VStr ""));
      d ← get first "description";
      if String.eqb scheme "bearer" then
        mret (AuthScheme.mk AuthScheme.bearer VUndefined VUndefined (VStr "bearer")
                (or_else d (VStr "Bearer token authentication")) VUndefined, warnings)
      else
        mret (AuthScheme.mk AuthScheme.basic VUndefined VUndefined (VStr "basic")
                (or_else d (VStr "Basic authentication")) VUndefined, warnings)
    else if String.eqb schemeType "oauth2" then
      d ← get first "description";
      fl ← get first "flows";
      mret (AuthScheme.mk AuthScheme.oauth2 VUndefined VUndefined VUndefined
              (or_else d (VStr "OAuth 2.0 authentication")) fl, warnings)
    else
      mret (AuthScheme.mk AuthScheme.unknown VUndefined VUndefined VUndefined
              (VStr ("Detected scheme type: " +:+ schemeType)) VUndefined, warnings).

(** *** Schemas *)

(** [flattenSchema] with room for [fuel] nested calls on the call stack:
    the source recurses without a guard, and a call for which the stack has
    no room throws a RangeError. *)
Fixpoint flattenSchema_fuel (fuel : nat) (schema : value) : result (list SchemaField.t) :=
  match fuel with
  | 0 => Throw RangeError
  | S fuel' =>
      if negb (truthy schema) then mret [] else
      type ← get schema "type";
      props ← get schema "properties";
      if is_str type "object" || truthy props then
        let properties := or_else props (VObj []) in
        req ← get schema "required";
        let required := or_else req (VArr []) in
        entries ← Object_entries properties;
        mapM (fun '(name, prop) =>
                ptype ← get prop "type";
                isreq ← call_includes required name;
                pdesc ← get prop "description";
                pdefault ← get prop "default";
                penum ← get prop "enum";
                pexample ← get prop "example";
                pprops ← get prop "properties";
                nested ← (if is_str ptype "object" || truthy pprops
                          then Some <$> flattenSchema_fuel fuel' prop
                          else mret None);
                mret (SchemaField.mk name (or_else ptype (VStr "string")) isreq
                        (or_else pdesc (VStr "")) pdefault penum pexample nested))
             entries
      else if is_str type "array" then
        items ← get schema "items";
        desc ← get schema "description";
        nested ← flattenSchema_fuel fuel' items;
        mret [SchemaField.mk "items" (VStr "array") false
                (or_else desc (VStr "Array items")) VUndefined VUndefined VUndefined
                (Some nested)]
      else
        desc ← get schema "description";
        mret [SchemaField.mk "value" (or_else type (VStr "string")) false
                (or_else desc (VStr "")) VUndefined VUndefined VUndefined None]
  end.

(** [flattenSchema(schema)], called by the normalizer. *)
Definition flattenSchema (schema : value) : result (list SchemaField.t) :=
  flattenSchema_fuel stack_room schema.

(** *** Parameters, request bodies and responses *)

Definition resolveParamType (p : value) : result value :=
  ty ← get p "type";
  if truthy ty then mret ty
  else
    schema ← get p "schema";
    if truthy schema then (sty ← get schema "type"; mret (or_else sty (VStr "string")))
    else mret (VStr "string").

(** [v !== undefined ? String(v) : undefined] *)
Definition String_if_defined (v : value) : result value :=
  if defined v then VStr <$> ToString v else mret VUndefined.

Definition extractParameters (op pathItem : value) (_isSwagger2 : bool)
  : result (list Param.t) :=
  pp ← get pathItem "parameters";
  r1 ← iterate (or_else pp (VArr []));
  opp ← get op "parameters";
  r2 ← iterate (or_else opp (VArr []));
  mapM (fun p =>
          name ← get p "name";
          loc ← get p "in";
          req ← get p "required";
          desc ← get p "description";
          ty ← resolveParamType p;
          dflt ← get p "default";
          dflt' ← String_if_defined dflt;
          enum ← get p "enum";
          ex ← get p "example";
          ex' ← String_if_defined ex;
          mret (Param.mk name loc (truthy req) (or_else desc (VStr "")) ty dflt' enum ex'))
       (r1 ++ r2).

(** [array.filter(p => p.in === 'body')] *)
Fixpoint filter_body (ps : list value) : result (list value) :=
  match ps with
  | [] => mret []
  | p :: r =>
      loc ← get p "in";
      rest ← filter_body r;
      mret (if is_str loc "body" then p :: rest else rest)
  end.

(** [content['application/json'] || content[Object.keys(content)[0]]] *)
Definition pick_content (content : value) : result value :=
  json ← get content "application/json";
  if truthy json then mret json
  else
    ks ← Object_keys content;
    k ← ToString (first_key ks);
    get content k.

Definition extractRequestBody (op : value) (isSwagger2 : bool)
  : result (option RequestBody.t) :=
  if isSwagger2 then
    opp ← get op "parameters";
    ps ← as_array (or_else opp (VArr []));
    bodyParams ← filter_body ps;
    match bodyParams with
    | [] => mret None
    | b0 :: _ =>
        schema ← get b0 "schema";
        req ← get b0 "required";
        fields ← flattenSchema schema;
        ex ← get_opt schema "example";
        mret (Some (RequestBody.mk (truthy req) (VStr "application/json") fields
                      (or_else ex VUndefined)))
    end
  else
    rb ← get op "requestBody";
    if negb (truthy rb) then mret None else
    content ← get rb "content";
    if negb (truthy content) then mret None else
    jsonContent ← pick_content content;
    if negb (truthy jsonContent) then mret None else
    schema ← get jsonContent "schema";
    req ← get rb "required";
    ks ← Object_keys content;
    fields ← flattenSchema schema;
    ex ← get jsonContent "example";
    ex' ← (if truthy ex then mret ex else get_opt schema "example");
    mret (Some (RequestBody.mk (truthy req) (first_key ks) fields ex')).

Definition extractResponses (op : value) (_isSwagger2 : bool) (_warnings : list string)
  : result (list ResponseDef.t) :=
  rs ← get op "responses";
  entries ← Object_entries (or_else rs (VObj []));
  mapM (fun '(statusCode, resp) =>
          content ← get resp "content";
          '(schema, example) ←
            (if truthy content then
               jsonContent ← pick_content content;
               if truthy jsonContent then
                 js ← get jsonContent "schema";
                 fields ← flattenSchema js;
                 ex ← get jsonContent "example";
                 ex' ← (if truthy ex then mret ex else get_opt js "example");
                 mret (fields, ex')
               else mret ([], VUndefined)
             else
               rschema ← get resp "schema";
               if truthy rschema then (fields ← flattenSchema rschema; mret (fields, VUndefined))
               else mret ([], VUndefined));
          desc ← get resp "description";
          mret (ResponseDef.mk statusCode (or_else desc (VStr "")) (Some schema) example))
       entries.

(** *** Endpoints *)

Definition methods : list string := ["GET"; "POST"; "PUT"; "PATCH"; "DELETE"].

(** The body of the inner loop: the endpoint of one method of one path
    item, or nothing when the path item has no such operation. *)
Definition extractOperation (doc : value) (isSwagger2 : bool) (warnings : list string)
    (path : string) (pathItem : value) (method : string)
  : result (option Endpoint.t) :=
  op ← get pathItem (toLowerCase method);
  if negb (truthy op) then mret None else
  oid ← get op "operationId";
  let id := or_else oid (VStr (method +:+ "_" +:+ replace_each (one_of "{}/") "_" path)) in
  tg ← get op "tags";
  let tags := or_else tg (VArr [VStr "default"]) in
  params ← extractParameters op pathItem isSwagger2;
  reqBody ← extractRequestBody op isSwagger2;
  responses ← extractResponses op isSwagger2 warnings;
  summary ← get op "summary";
  description ← get op "description";
  t0 ← get tags "0";
  osec ← get op "security";
  olen ← get_opt osec "length";
  dsec ← get doc "security";
  dlen ← get_opt dsec "length";
  dep ← get op "deprecated";
  mret (Some (Endpoint.mk id method path (or_else summary (VStr ""))
                (or_else description (or_else summary (VStr "")))
                (or_else t0 (VStr "default")) oid params reqBody responses
                (truthy olen || truthy dlen) (Some (truthy dep)))).

Definition extractEndpoints (doc : value) (isSwagger2 : bool) (warnings : list string)
  : result (list Endpoint.t) :=
  ps ← get doc "paths";
  entries ← Object_entries (or_else ps (VObj []));
  perPath ← mapM (fun '(path, pathItem) =>
                    omap id <$> mapM (extractOperation doc isSwagger2 warnings path pathItem)
                                  methods)
                 entries;
  mret (concat perPath).

(** *** Tags *)

(** The key comparison of a [Map] (SameValueZero).  Objects and arrays are
    compared by identity, and two nodes of a document tree are never the
    same object. *)
Definition same_value_zero (a b : value) : bool :=
  match a, b with
  | VUndefined, VUndefined | VNull, VNull => true
  | VBool x, VBool y => Bool.eqb x y
  | VNum x, VNum y =>
      PrimFloat.eqb x y || (negb (PrimFloat.eqb x x) && negb (PrimFloat.eqb y y))
  | VStr x, VStr y => String.eqb x y
  | _, _ => false
  end.

(** [tagMap.set(name, { name, description, endpointIds: [] })] on a map
    kept in insertion order; every group is filed under its own name. *)
Fixpoint tag_set (name description : value) (m : list TagGroup.t) : list TagGroup.t :=
  match m with
  | [] => [TagGroup.mk name description []]
  | g :: r =>
      if same_value_zero (TagGroup.name g) name
      then TagGroup.mk name description [] :: r
      else g :: tag_set name description r
  end.

(** [if (!tagMap.has(tag)) tagMap.set(tag, { name: tag, endpointIds: [] });
     tagMap.get(tag).endpointIds.push(id)] *)
Fixpoint tag_push (tag id : value) (m : list TagGroup.t) : list TagGroup.t :=
  match m with
  | [] => [TagGroup.mk tag VUndefined [id]]
  | g :: r =>
      if same_value_zero (TagGroup.name g) tag
      then TagGroup.mk (TagGroup.name g) (TagGroup.description g)
             (TagGroup.endpointIds g ++ [id]) :: r
      else g :: tag_push tag id r
  end.

Fixpoint declare_tags (tagDefs : list value) (m : list TagGroup.t)
  : result (list TagGroup.t) :=
  match tagDefs with
  | [] => mret m
  | td :: r =>
      name ← get td "name";
      description ← get td "description";
      declare_tags r (tag_set name description m)
  end.

Definition buildTagGroups (doc : value) (endpoints : list Endpoint.t)
  : result (list TagGroup.t) :=
  tg ← get doc "tags";
  tagDefs ← iterate (or_else tg (VArr []));
  m ← declare_tags tagDefs [];
  mret (fold_left (fun m ep => tag_push (Endpoint.tag ep) (Endpoint.id ep) m) endpoints m).

(** *** Pagination and rate limits *)

Definition PAGINATION_KEYWORDS : list string :=
  ["page"; "limit"; "offset"; "cursor"; "after"; "before"; "per_page"; "pageSize";
   "page_size"].

Definition pagination_kind (lowerName : string) : PaginationHint.kind :=
  if mem lowerName ["cursor"; "after"; "before"] then PaginationHint.cursor
  else if mem lowerName ["offset"] then PaginationHint.offset
  else PaginationHint.page.

(** The inner loop of [detectPagination], over the parameters of one
    endpoint; the state is the array [hints] and the set [seen]. *)
Fixpoint paginate_params (ps : list Param.t) (st : list PaginationHint.t * gset string)
  : result (list PaginationHint.t * gset string) :=
  match ps with
  | [] => mret st
  | p :: r =>
      lowerName ← call_toLowerCase (Param.name p);
      if mem lowerName PAGINATION_KEYWORDS && negb (bool_decide (lowerName ∈ st.2)) then
        description ← (if truthy (Param.description p) then mret (Param.description p)
                       else (n ← ToString (Param.name p);
                             mret (VStr ("Pagination parameter: " +:+ n))));
        paginate_params r
          (st.1 ++ [PaginationHint.mk (pagination_kind lowerName) [Param.name p] description],
           {[lowerName]} ∪ st.2)
      else paginate_params r st
  end.

Fixpoint paginate_endpoints (eps : list Endpoint.t) (st : list PaginationHint.t * gset string)
  : result (list PaginationHint.t * gset string) :=
  match eps with
  | [] => mret st
  | ep :: r => st' ← paginate_params (Endpoint.parameters ep) st; paginate_endpoints r st'
  end.

Definition detectPagination (endpoints : list Endpoint.t) : result (list PaginationHint.t) :=
  fst <$> paginate_endpoints endpoints ([], ∅).

Definition rate_limit_hint (r : ResponseDef.t) : RateLimitHint.t :=
  RateLimitHint.mk 429 "Retry-After"
    (or_else (ResponseDef.description r) (VStr "Rate limit exceeded — wait and retry.")).

(** [detectRateLimits]: the first response with status code 429, in the
    order of the endpoints, ends the scan. *)
Fixpoint detectRateLimits (endpoints : list Endpoint.t) : list RateLimitHint.t :=
  match endpoints with
  | [] => []
  | ep :: rest =>
      match List.find (fun r => String.eqb (ResponseDef.statusCode r) "429")
              (Endpoint.responses ep) with
      | Some r => [rate_limit_hint r]
      | None => detectRateLimits rest
      end
  end.

(** *** The normalizer *)

Definition parse_error : exn := Error "Could not parse input as JSON or YAML".

(** The two nested [try] blocks. *)
Definition decode (input : string) : result value :=
  match JSON_parse input with
  | Some doc => Ok doc
  | None =>
      match yaml_load input with
      | Some doc => Ok doc
      | None => Throw parse_error
      end
  end.

(** What [parseOpenApiSpec] does with the decoded document. *)
Definition normalize (doc : value) : result ParseResult.t :=
  let warnings := [] in
  let todos := [] in
  sw ← get doc "swagger";
  let isSwagger2 := truthy sw in
  inf ← get doc "info";
  let info := or_else inf (VObj []) in
  baseUrl ← extractBaseUrl doc isSwagger2;
  let todos := if negb (truthy baseUrl)
               then todos ++ ["TODO: Base URL could not be determined — please set it manually."]
               else todos in
  '(auth, warnings) ← extractAuth doc isSwagger2 warnings;
  endpoints ← extractEndpoints doc isSwagger2 warnings;
  tags ← buildTagGroups doc endpoints;
  paginationHints ← detectPagination endpoints;
  let rateLimitHints := detectRateLimits endpoints in
  title ← get info "title";
  description ← get info "description";
  version ← get info "version";
  mret (ParseResult.mk
          (ApiSpec.mk (or_else title (VStr "Untitled API"))
             (or_else description (VStr ""))
             (or_else version (VStr "1.0.0"))
             (or_else baseUrl (VStr "https://api.example.com"))
             auth endpoints tags paginationHints rateLimitHints ApiSpec.openapi)
          warnings todos).

Definition parseOpenApiSpec (input : string) : result ParseResult.t :=
  doc ← decode input; normalize doc.

End WithHost.

End OpenApiParser.

(** ** A reference host

    One concrete [Host], on which the normalizers can be run.  Its JSON
    reader follows RFC 8259 on documents whose strings stay within
    U+0000..U+00FF and whose numbers convert exactly; the other components
    cover the plain cases and are no complete model of the libraries. *)

Module Reference.

Definition quote : ascii := "034"%char.

Definition backslash : ascii := "092"%char.

Definition json_ws (c : ascii) : bool :=
  (code c =? 32)%N || (code c =? 9)%N || (code c =? 10)%N || (code c =? 13)%N.

Fixpoint skip_ws (l : list ascii) : list ascii :=
  match l with
  | c :: r => if json_ws c then skip_ws r else l
  | [] => []
  end.

Definition digit (c : ascii) : option N :=
  if in_range 48 57 c then Some (code c - 48)%N else None.

Definition hex_digit (c : ascii) : option N :=
  if in_range 48 57 c then Some (code c - 48)%N
  else if in_range 97 102 c then Some (code c - 87)%N
  else if in_range 65 70 c then Some (code c - 55)%N
  else None.

(** A run of digits: its value, its length and what follows. *)
Fixpoint read_digits (l : list ascii) (acc : N) (n : nat) : N * nat * list ascii :=
  match l with
  | c :: r => match digit c with
              | Some d => read_digits r (acc * 10 + d)%N (S n)
              | None => (acc, n, l)
              end
  | [] => (acc, n, l)
  end.

Definition unescape (e : ascii) : option ascii :=
  if Ascii.eqb e quote then Some quote
  else if Ascii.eqb e backslash then Some backslash
  else if Ascii.eqb e "/" then Some "/"%char
  else if Ascii.eqb e "b" then Some (ascii_of_N 8)
  else if Ascii.eqb e "f" then Some (ascii_of_N 12)
  else if Ascii.eqb e "n" then Some (ascii_of_N 10)
  else if Ascii.eqb e "r" then Some (ascii_of_N 13)
  else if Ascii.eqb e "t" then Some (ascii_of_N 9)
  else None.

(** The text of a string, after its opening quote. *)
Fixpoint read_string (l : list ascii) (acc : list ascii) : option (string * list ascii) :=
  match l with
  | [] => None
  | c :: r =>
      if Ascii.eqb c quote then Some (str (rev acc), r)
      else if Ascii.eqb c backslash then
        match r with
        | e :: r' =>
            if Ascii.eqb e "u" then
              match r' with
              | a :: b :: c1 :: d :: r'' =>
                  match hex_digit a, hex_digit b, hex_digit c1, hex_digit d with
                  | Some 0%N, Some 0%N, Some x, Some y =>
                      read_string r'' (ascii_of_N (16 * x + y) :: acc)
                  | _, _, _, _ => None
                  end
              | _ => None
              end
            else
              match unescape e with
              | Some u => read_string r' (u :: acc)
              | None => None
              end
        | [] => None
        end
      else if (code c <? 32)%N then None
      else read_string r (c :: acc)
  end.

Definition float_of_N (n : N) : float := PrimFloat.of_uint63 (Uint63.of_Z (Z.of_N n)).

(** A number whose digits, read as one integer, stay below 2^53 and whose
    decimal exponent is at most 22 in size converts with one correctly
    rounded operation; the reader declines the others. *)
Definition read_number (l : list ascii) : option (float * list ascii) :=
  let '(neg, l1) := match l with
                    | c :: r => if Ascii.eqb c "-" then (true, r) else (false, l)
                    | [] => (false, l)
                    end in
  let '(ip, n1, l2) := read_digits l1 0%N 0 in
  let leading_zero := match l1 with
                      | c :: _ => Ascii.eqb c "0" && (1 <? n1)%nat
                      | [] => false
                      end in
  if (n1 =? 0)%nat || leading_zero then None else
  let '(m, fd, l3) :=
    match l2 with
    | c :: r => if Ascii.eqb c "." then
                  let '(m, n2, r') := read_digits r ip 0 in (m, Some n2, r')
                else (ip, None, l2)
    | [] => (ip, None, l2)
    end in
  if match fd with Some 0 => true | _ => false end then None else
  let frac := match fd with Some n => Z.of_nat n | None => 0%Z end in
  let exponent :=
    match l3 with
    | c :: r =>
        if Ascii.eqb c "e" || Ascii.eqb c "E" then
          let '(eneg, r1) := match r with
                             | s :: r' => if Ascii.eqb s "-" then (true, r')
                                          else if Ascii.eqb s "+" then (false, r')
                                          else (false, r)
                             | [] => (false, r)
                             end in
          let '(e, n3, r2) := read_digits r1 0%N 0 in
          if (n3 =? 0)%nat then None
          else Some (if eneg then (- Z.of_N e)%Z else Z.of_N e, r2)
        else Some (0%Z, l3)
    | [] => Some (0%Z, l3)
    end in
  match exponent with
  | None => None
  | Some (e, l4) =>
      let e10 := (e - frac)%Z in
      if (m <? 2 ^ 53)%N && (Z.abs e10 <=? 22)%Z then
        let p := float_of_N (10 ^ Z.to_N (Z.abs e10)) in
        let x := if (e10 <? 0)%Z then PrimFloat.div (float_of_N m) p
                 else PrimFloat.mul (float_of_N m) p in
        Some (if neg then PrimFloat.opp x else x, l4)
      else None
  end.

(** An array index as a property key: the canonical spelling of an integer
    below 2^32 - 1. *)
Definition index_of_key (k : string) : option N :=
  let '(n, len, rest) := read_digits (chars k) 0%N 0 in
  match rest with
  | [] => if String.eqb (NilZero.string_of_uint (N.to_uint n)) k && (n <? 2 ^ 32 - 1)%N
          then Some n else None
  | _ => None
  end.

(** Defining a property: a key that is there keeps its place. *)
Fixpoint define (k : string) (v : value) (props : list (string * value))
  : list (string * value) :=
  match props with
  | [] => [(k, v)]
  | (k', v') :: r => if String.eqb k k' then (k, v) :: r else (k', v') :: define k v r
  end.

Fixpoint insert_index (n : N) (kv : string * value) (l : list (N * (string * value)))
  : list (N * (string * value)) :=
  match l with
  | [] => [(n, kv)]
  | (n', kv') :: r => if (n <? n')%N then (n, kv) :: l else (n', kv') :: insert_index n kv r
  end.

(** Enumeration order: the index keys in ascending order, then the other
    keys in the order of their definition. *)
Definition enumeration_order (props : list (string * value)) : list (string * value) :=
  let idx := fold_left (fun acc kv => match index_of_key kv.1 with
                                      | Some n => insert_index n kv acc
                                      | None => acc
                                      end) props [] in
  map snd idx ++ List.filter (fun kv => match index_of_key kv.1 with
                                        | Some _ => false
                                        | None => true
                                        end) props.

Definition literal (word : string) (l : list ascii) : option (list ascii) :=
  if prefixb (chars word) l then Some (skipn (String.length word) l) else None.

Fixpoint read_value (fuel : nat) (l : list ascii) : option (value * list ascii) :=
  match fuel with
  | 0 => None
  | S fuel' =>
      let elements :=
        fix elements (n : nat) (l : list ascii) (acc : list value) :=
          match n with
          | 0 => None
          | S n' =>
              match read_value fuel' l with
              | Some (v, r) =>
                  match skip_ws r with
                  | c :: r' =>
                      if Ascii.eqb c "," then elements n' r' (v :: acc)
                      else if Ascii.eqb c "]" then Some (VArr (rev (v :: acc)), r')
                      else None
                  | [] => None
                  end
              | None => None
              end
          end in
      let members :=
        fix members (n : nat) (l : list ascii) (acc : list (string * value)) :=
          match n with
          | 0 => None
          | S n' =>
              match skip_ws l with
              | q :: r0 =>
                  if Ascii.eqb q quote then
                    match read_string r0 [] with
                    | Some (k, r1) =>
                        match skip_ws r1 with
                        | c :: r2 =>
                            if Ascii.eqb c ":" then
                              match read_value fuel' r2 with
                              | Some (v, r3) =>
                                  match skip_ws r3 with
                                  | d :: r4 =>
                                      if Ascii.eqb d "," then members n' r4 (define k v acc)
                                      else if Ascii.eqb d "}"
                                      then Some (VObj (enumeration_order (define k v acc)), r4)
                                      else None
                                  | [] => None
                                  end
                              | None => None
                              end
                            else None
                        | [] => None
                        end
                    | None => None
                    end
                  else None
              | [] => None
              end
          end in
      match skip_ws l with
      | [] => None
      | c :: r =>
          if Ascii.eqb c "{" then
            match skip_ws r with
            | d :: r' => if Ascii.eqb d "}" then Some (VObj [], r') else members (length l) r []
            | [] => None
            end
          else if Ascii.eqb c "[" then
            match skip_ws r with
            | d :: r' => if Ascii.eqb d "]" then Some (VArr [], r') else elements (length l) r []
            | [] => None
            end
          else if Ascii.eqb c quote then
            match read_string r [] with
            | Some (s, r') => Some (VStr s, r')
            | None => None
            end
          else
            match literal "true" (c :: r), literal "false" (c :: r), literal "null" (c :: r) with
            | Some r', _, _ => Some (VBool true, r')
            | _, Some r', _ => Some (VBool false, r')
            | _, _, Some r' => Some (VNull, r')
            | _, _, _ =>
                match read_number (c :: r) with
                | Some (x, r') => Some (VNum x, r')
                | None => None
                end
            end
      end
  end.

(** A JSON text: one value between optional white space. *)
Definition read_json (input : string) : option value :=
  match read_value (S (String.length input)) (chars input) with
  | Some (v, r) => match skip_ws r with [] => Some v | _ => None end
  | None => None
  end.

(** Writes double quotes for the single quotes of [s], so that a JSON text
    can be spelled as a literal. *)
Definition dq (s : string) : string :=
  str (map (fun c => if Ascii.eqb c "'" then quote else c) (chars s)).

(** The blank document loads as [undefined]; a document in JSON syntax,
    which is YAML flow syntax, loads as its JSON value.  The loader
    declines every other text. *)
Definition load_flow_yaml (input : string) : option value :=
  match skip_ws (chars input) with
  | [] => Some VUndefined
  | _ => read_json input
  end.

Definition spell_N (n : N) : string := NilZero.string_of_uint (N.to_uint n).

(** The decimal spelling of an integral number; the other numbers are
    spelled by their integral part. *)
Definition spell_number (x : float) : string :=
  match FloatOps.Prim2SF x with
  | SpecFloat.S754_zero _ => "0"
  | SpecFloat.S754_infinity false => "Infinity"
  | SpecFloat.S754_infinity true => "-Infinity"
  | SpecFloat.S754_nan => "NaN"
  | SpecFloat.S754_finite s m e =>
      (if s then "-" else "") +:+
      spell_N (match e with
               | Zneg k => N.shiftr (Npos m) (Npos k)
               | _ => N.shiftl (Npos m) (Z.to_N e)
               end)
  end.

(** The number that a run of decimal digits between white space spells,
    zero for the empty text and NaN for any other text. *)
Definition number_of_text (s : string) : float :=
  match skip_ws (chars s) with
  | [] => 0%float
  | l => let '(n, len, rest) := read_digits l 0%N 0 in
         match len, skip_ws rest with
         | S _, [] => float_of_N n
         | _, _ => nan
         end
  end.

Definition spell_primitive (v : value) : option string :=
  match v with
  | VUndefined => Some "undefined"
  | VNull => Some "null"
  | VBool true => Some "true"
  | VBool false => Some "false"
  | VNum x => Some (spell_number x)
  | VStr s => Some s
  | VArr _ | VObj _ => None
  end.

(** An object without an own [toString] is spelled by
    [Object.prototype.toString]; one with such a property, which a decoder
    never fills with a function, has no primitive value.  An array is
    joined with commas, [undefined] and [null] giving the empty text. *)
Fixpoint to_primitive (v : value) : option value :=
  match v with
  | VObj props =>
      if existsb (fun kv => String.eqb kv.1 "toString") props then None
      else Some (VStr "[object Object]")
  | VArr items =>
      let spell :=
        fix spell (l : list value) : option (list string) :=
          match l with
          | [] => Some []
          | x :: r =>
              s ← match x with
                  | VUndefined | VNull => Some ""
                  | VArr _ | VObj _ => p ← to_primitive x; spell_primitive p
                  | _ => spell_primitive x
                  end;
              rest ← spell r;
              Some (s :: rest)
          end in
      parts ← spell items; Some (VStr (join "," parts))
  | _ => Some v
  end.

Fixpoint take_until (stop : ascii -> bool) (l : list ascii) : list ascii * list ascii :=
  match l with
  | [] => ([], [])
  | c :: r => if stop c then ([], l)
              else let '(a, b) := take_until stop r in (c :: a, b)
  end.

Definition hex_unit (n : N) : ascii :=
  if (n <? 10)%N then ascii_of_N (48 + n) else ascii_of_N (55 + n).

(** The path percent-encode set of the URL standard. *)
Definition path_encoded (c : ascii) : bool :=
  (code c <? 33)%N || (126 <? code c)%N || one_of "#<>?^`{}" c || Ascii.eqb c quote.

Definition percent_encode (c : ascii) : list ascii :=
  if path_encoded c
  then ["%"%char; hex_unit (code c / 16); hex_unit (code c mod 16)]
  else [c].

(** The path of an http or https URL with a host: the text from the first
    slash after the host to the query or the fragment, percent-encoded.
    Dot segments are kept as they are written. *)
Definition pathname (u : string) : option string :=
  let l := chars u in
  let low := map lower_unit l in
  let rest := if prefixb (chars "http://") low then Some (skipn 7 l)
              else if prefixb (chars "https://") low then Some (skipn 8 l)
              else None in
  match rest with
  | None => None
  | Some r =>
      let '(authority, after) := take_until (one_of "/?#\") r in
      match authority with
      | [] => None
      | _ =>
          match after with
          | c :: p =>
              if one_of "/\" c then
                let '(path, _) := take_until (one_of "?#") p in
                Some (str ("/"%char :: flat_map percent_encode
                                         (map (fun x => if Ascii.eqb x backslash then "/"%char else x)
                                            path)))
              else Some "/"
          | [] => Some "/"
          end
      end
  end.

#[export] Instance host : Host := {
  JSON_parse := read_json;
  yaml_load := load_flow_yaml;
  stack_room := 2000;
  Number_toString := spell_number;
  String_toNumber := number_of_text;
  ToPrimitive := to_primitive;
  URL_pathname := pathname
}.

End Reference.

(** ** Regular expressions

    The patterns of the text normalizer use literals, classes of one code
    unit, greedy repetition of a class, greedy options, alternatives,
    capture groups and the assertions [\b], [^] and [$].  [run] is the
    backtracking matcher of ECMAScript for them, in continuation style. *)

Module Regex.

Inductive t :=
| Eps
| Unit (class : ascii -> bool)
| Seq (r1 r2 : t)
| Alt (r1 r2 : t)
| Star (class : ascii -> bool)
| Opt (r : t)
| Group (n : nat) (r : t)
| WordBoundary
| LineStart
| LineEnd
| InputEnd.

(** A position in the subject: the unit before it, the units from it on,
    its index, and the spans of the groups captured so far. *)
Record cursor := Cursor {
  before : option ascii;
  rest : list ascii;
  pos : nat;
  groups : list (nat * (nat * nat))
}.

Definition line_terminator (c : ascii) : bool := (code c =? 10)%N || (code c =? 13)%N.

Definition dot (c : ascii) : bool := negb (line_terminator c).

Definition digit (c : ascii) : bool := in_range 48 57 c.

Definition alnum (c : ascii) : bool :=
  in_range 48 57 c || in_range 65 90 c || in_range 97 122 c.

Definition word (c : ascii) : bool := alnum c || Ascii.eqb c "_".

Definition just (x c : ascii) : bool := Ascii.eqb x c.

(** Canonicalization under the flag [i]; no unit beyond U+007F folds to an
    ASCII letter. *)
Definition fold (c : ascii) : ascii :=
  if in_range 97 122 c then ascii_of_N (code c - 32) else c.

Definition just_i (x c : ascii) : bool := Ascii.eqb (fold x) (fold c).

Definition seq (rs : list t) : t := fold_right Seq Eps rs.

Definition plus (class : ascii -> bool) : t := Seq (Unit class) (Star class).

(** A literal text, and a literal text under the flag [i]. *)
Definition lit (s : string) : t := seq (map (fun x => Unit (just x)) (chars s)).

Definition liti (s : string) : t := seq (map (fun x => Unit (just_i x)) (chars s)).

Definition word_opt (o : option ascii) : bool :=
  match o with
  | Some c => word c
  | None => false
  end.

Definition set_group (n : nat) (span : nat * nat) (c : cursor) : cursor :=
  Cursor (before c) (rest c) (pos c) ((n, span) :: groups c).

Fixpoint star (class : ascii -> bool) (l : list ascii) (b : option ascii) (p : nat)
    (g : list (nat * (nat * nat))) (k : cursor -> option cursor) : option cursor :=
  match l with
  | x :: r =>
      if class x then
        match star class r (Some x) (S p) g k with
        | Some c => Some c
        | None => k (Cursor b l p g)
        end
      else k (Cursor b l p g)
  | [] => k (Cursor b [] p g)
  end.

Fixpoint run (r : t) (c : cursor) (k : cursor -> option cursor) : option cursor :=
  match r with
  | Eps => k c
  | Unit class =>
      match rest c with
      | x :: l => if class x then k (Cursor (Some x) l (S (pos c)) (groups c)) else None
      | [] => None
      end
  | Seq r1 r2 => run r1 c (fun c' => run r2 c' k)
  | Alt r1 r2 =>
      match run r1 c k with
      | Some c' => Some c'
      | None => run r2 c k
      end
  | Star class => star class (rest c) (before c) (pos c) (groups c) k
  | Opt r1 =>
      match run r1 c k with
      | Some c' => Some c'
      | None => k c
      end
  | Group n r1 => run r1 c (fun c' => k (set_group n (pos c, pos c') c'))
  | WordBoundary =>
      if xorb (word_opt (before c)) (word_opt (head (rest c))) then k c else None
  | LineStart =>
      match before c with
      | None => k c
      | Some x => if line_terminator x then k c else None
      end
  | LineEnd =>
      match rest c with
      | [] => k c
      | x :: _ => if line_terminator x then k c else None
      end
  | InputEnd =>
      match rest c with
      | [] => k c
      | _ :: _ => None
      end
  end.

(** A match: where it starts, where it stops, and the spans of its groups. *)
Record Match := MkMatch {
  index : nat;
  stop : nat;
  captures : list (nat * (nat * nat))
}.

(** The leftmost match that starts at [p] or later. *)
Fixpoint search (r : t) (b : option ascii) (l : list ascii) (p : nat) : option Match :=
  match run r (Cursor b l p []) Some with
  | Some c => Some (MkMatch p (pos c) (groups c))
  | None =>
      match l with
      | x :: l' => search r (Some x) l' (S p)
      | [] => None
      end
  end.

Fixpoint seek (i : nat) (b : option ascii) (l : list ascii) (p : nat)
  : option (option ascii * list ascii * nat) :=
  match i with
  | 0 => Some (b, l, p)
  | S i' =>
      match l with
      | x :: l' => seek i' (Some x) l' (S p)
      | [] => None
      end
  end.

(** [r.exec(text)] with [r.lastIndex = lastIndex]; a pattern without the
    flag [g] is run with [lastIndex = 0]. *)
Definition exec (r : t) (text : string) (lastIndex : nat) : option Match :=
  match seek lastIndex None (chars text) 0 with
  | Some (b, l, p) => search r b l p
  | None => None
  end.

(** [r.test(text)] for a pattern without the flag [g] *)
Definition test (r : t) (text : string) : bool :=
  match exec r text 0 with
  | Some _ => true
  | None => false
  end.

Fixpoint span_of (n : nat) (g : list (nat * (nat * nat))) : option (nat * nat) :=
  match g with
  | [] => None
  | (n', sp) :: g' => if (n =? n')%nat then Some sp else span_of n g'
  end.

(** [m[0]] *)
Definition whole (text : string) (m : Match) : string := slice text (index m) (stop m).

(** [m[n]], [None] for a group that took no part in the match. *)
Definition group_opt (text : string) (m : Match) (n : nat) : option string :=
  match span_of n (captures m) with
  | Some (a, b) => Some (slice text a b)
  | None => None
  end.

(** [m[n]] as the receiver of a method call: calling a method of
    [undefined] throws. *)
Definition group (text : string) (m : Match) (n : nat) : result string :=
  match group_opt text m n with
  | Some s => Ok s
  | None => Throw TypeError
  end.

(** [m[n] || dflt] *)
Definition group_or (text : string) (m : Match) (n : nat) (dflt : string) : string :=
  match group_opt text m n with
  | Some s => if String.eqb s "" then dflt else s
  | None => dflt
  end.

(** [while ((m = r.exec(text)) !== null) body] for a pattern with the flag
    [g]: each round resumes where the last match stopped.  [fuel] bounds
    the number of rounds. *)
Fixpoint each_match {S : Type} (fuel : nat) (r : t) (text : string) (lastIndex : nat)
    (body : Match -> S -> result S) (s : S) : result S :=
  match fuel with
  | 0 => Ok s
  | Datatypes.S fuel' =>
      match exec r text lastIndex with
      | None => Ok s
      | Some m => s' ← body m s; each_match fuel' r text (stop m) body s'
      end
  end.

(** [text.match(r)] for a pattern with the flag [g]: the texts of all
    matches; after an empty match the search resumes one unit further. *)
Fixpoint match_all_from (fuel : nat) (r : t) (text : string) (lastIndex : nat) : list string :=
  match fuel with
  | 0 => []
  | Datatypes.S fuel' =>
      match exec r text lastIndex with
      | None => []
      | Some m =>
          whole text m ::
          match_all_from fuel' r text
            (if (stop m =? index m)%nat then Datatypes.S (stop m) else stop m)
      end
  end.

Definition match_all (r : t) (text : string) : list string :=
  match_all_from (String.length text + 2) r text 0.

(** [text.replace(r, by)] for a pattern without the flag [g] *)
Definition replace_first (r : t) (by_ : string) (text : string) : string :=
  match exec r text 0 with
  | Some m => slice text 0 (index m) +:+ by_ +:+ slice text (stop m) (String.length text)
  | None => text
  end.

End Regex.

(** ** The free-text normalizer *)

Module TextParser.

Import Regex.

Section WithHost.

Context `{Host}.

Definition newline : ascii := "010"%char.

(** [text.split('\n').filter(l => l.trim().length > 0)] *)
Definition nonblank_lines (text : string) : list string :=
  List.filter (fun l => negb (String.eqb (trim l) "")) (split newline text).

(** *** Title *)

(** [/^#\s+(.+)$/m] *)
Definition h1_pattern : Regex.t :=
  seq [LineStart; lit "#"; plus space; Group 1 (plus dot); LineEnd].

Definition extractTitle (text : string) : result (option string) :=
  match exec h1_pattern text 0 with
  | Some h1 => g ← group text h1 1; mret (Some (trim g))
  | None =>
      match nonblank_lines text with
      | l0 :: _ => if (String.length l0 <? 80)%nat then mret (Some (trim l0)) else mret None
      | [] => mret None
      end
  end.

Definition extractDescription (text : string) : string :=
  slice (join " " (firstn 3 (nonblank_lines text))) 0 200.

(** *** Base URL *)

Definition quote : ascii := "034"%char.

(** The class [^\s\n DQ '`<>] of the pattern below, where DQ stands for
    the double quote. *)
Definition url_unit (c : ascii) : bool :=
  negb (space c || Ascii.eqb c newline || Ascii.eqb c quote || one_of "'`<>" c).

(** [/(?:base\s*url|api\s*url|endpoint|server|host)[:\s]*\n?\s*(https?:\/\/[^\s\n DQ '`<>]+)/i] *)
Definition urlPattern : Regex.t :=
  seq [Alt (seq [liti "base"; Star space; liti "url"])
         (Alt (seq [liti "api"; Star space; liti "url"])
            (Alt (liti "endpoint") (Alt (liti "server") (liti "host"))));
       Star (fun c => Ascii.eqb c ":" || space c);
       Opt (Unit (just newline));
       Star space;
       Group 1 (seq [liti "http"; Opt (liti "s"); lit "://"; plus url_unit])].

(** [/(https?:\/\/[a-zA-Z0-9][-a-zA-Z0-9.]*(?:\/api)?(?:\/v\d+)?)/] *)
Definition anyUrlPattern : Regex.t :=
  Group 1 (seq [lit "http"; Opt (lit "s"); lit "://"; Unit alnum;
                Star (fun c => alnum c || one_of "-." c);
                Opt (lit "/api");
                Opt (seq [lit "/v"; plus digit])]).

(** [/\/+$/] *)
Definition trailing_slashes : Regex.t := seq [plus (just "/"); InputEnd].

Definition extractBaseUrl (text : string) : result (option string) :=
  match exec urlPattern text 0 with
  | Some m => g ← group text m 1; mret (Some (replace_first trailing_slashes "" g))
  | None =>
      match exec anyUrlPattern text 0 with
      | Some anyUrl => g ← group text anyUrl 1;
                       mret (Some (replace_first trailing_slashes "" g))
      | None => mret None
      end
  end.

(** *** Auth *)

(** [/bearer\s*token/i] *)
Definition bearer_token : Regex.t := seq [liti "bearer"; Star space; liti "token"].

(** [/authorization:\s*bearer/i] *)
Definition authorization_bearer : Regex.t :=
  seq [liti "authorization:"; Star space; liti "bearer"].

(** [/api[_-]?key/i] *)
Definition api_key : Regex.t := seq [liti "api"; Opt (Unit (one_of "_-")); liti "key"].

(** [/x-api-key/i] *)
Definition x_api_key : Regex.t := liti "x-api-key".

(** [/(x-api-key|api[_-]?key)/i] *)
Definition header_pattern : Regex.t := Group 1 (Alt x_api_key api_key).

Definition extractAuth (text : string) (warnings : list string)
  : AuthScheme.t * list string :=
  let lower := toLowerCase text in
  if test bearer_token text || test authorization_bearer text then
    (AuthScheme.mk AuthScheme.bearer VUndefined VUndefined (VStr "bearer")
       (VStr "Bearer token authentication (detected from docs)") VUndefined, warnings)
  else if test api_key text || test x_api_key text then
    let headerName := match exec header_pattern text 0 with
                      | Some headerMatch => group_or text headerMatch 1 "X-API-Key"
                      | None => "X-API-Key"
                      end in
    (AuthScheme.mk AuthScheme.apiKey (VStr headerName) VUndefined VUndefined
       (VStr "API Key authentication (detected from docs)") VUndefined, warnings)
  else if includes lower "basic auth" then
    (AuthScheme.mk AuthScheme.basic VUndefined VUndefined (VStr "basic")
       (VStr "Basic authentication (detected from docs)") VUndefined, warnings)
  else if includes lower "oauth" then
    (AuthScheme.mk AuthScheme.oauth2 VUndefined VUndefined VUndefined
       (VStr "OAuth 2.0 (detected from docs)") VUndefined, warnings)
  else
    (AuthScheme.mk AuthScheme.unknown VUndefined VUndefined VUndefined
       (VStr "Authentication method not detected — please specify.") VUndefined,
     warnings ++ ["Authentication method could not be determined from the text."]).

(** *** Endpoints *)

Definition HTTP_METHODS : list string := ["GET"; "POST"; "PUT"; "PATCH"; "DELETE"].

(** [(GET|POST|PUT|PATCH|DELETE)] under the flag [i], as group [n] *)
Definition method_group (n : nat) : Regex.t :=
  Group n (Alt (liti "GET") (Alt (liti "POST") (Alt (liti "PUT")
                (Alt (liti "PATCH") (liti "DELETE"))))).

(** [(\/[a-zA-Z0-9_\-{}/:.]+)], as group [n] *)
Definition path_group (n : nat) : Regex.t :=
  Group n (seq [lit "/"; plus (fun c => alnum c || one_of "_-{}/:." c)]).

(** The three patterns of [extractEndpoints]: a bare signature, one in a
    code span, and one with the method in bold. *)
Definition patterns : list Regex.t :=
  [seq [WordBoundary; method_group 1; plus space; path_group 2];
   seq [lit "`"; method_group 1; plus space; path_group 2; lit "`"];
   seq [lit "**"; method_group 1; lit "**"; plus space; path_group 2]].

(** [/curl\s+(?:-X\s+)?(GET|POST|PUT|PATCH|DELETE)?\s*[' DQ]?(https?:\/\/[^\s' DQ]+)/gi] *)
Definition curlPattern : Regex.t :=
  seq [liti "curl"; plus space; Opt (seq [liti "-X"; plus space]);
       Opt (method_group 1); Star space;
       Opt (Unit (fun c => Ascii.eqb c "'" || Ascii.eqb c quote));
       Group 2 (seq [liti "http"; Opt (liti "s"); lit "://";
                     plus (fun c => negb (space c || Ascii.eqb c "'" || Ascii.eqb c quote))])].

Definition extractContextAround (text : string) (index radius : nat) : string :=
  let start := index - radius in
  let end_ := Nat.min (String.length text) (index + radius) in
  slice text start end_.

(** [/#+\s+(.+)/] *)
Definition heading_pattern : Regex.t :=
  seq [plus (just "#"); plus space; Group 1 (plus dot)].

Definition extractSummaryFromContext (context method path : string) : result string :=
  match exec heading_pattern context 0 with
  | Some headingMatch => g ← group context headingMatch 1; mret (trim g)
  | None => mret (method +:+ " " +:+ path)
  end.

(** [/\{([^}]+)\}/g] *)
Definition placeholder_pattern : Regex.t :=
  seq [lit "{"; Group 1 (plus (fun c => negb (Ascii.eqb c "}"))); lit "}"].

Definition path_param (name : string) : Param.t :=
  Param.mk (VStr name) (VStr "path") true (VStr ("Path parameter: " +:+ name))
    (VStr "string") VUndefined VUndefined VUndefined.

Definition extractParamsFromContext (path _context : string) : list Param.t :=
  map (fun p => path_param (remove_each (one_of "{}") p))
    (match_all placeholder_pattern path).

(** [s.charAt(0).toUpperCase() + s.slice(1)] *)
Definition capitalize (s : string) : string :=
  match chars s with
  | [] => ""
  | c :: r => str (upper_unit c ++ r)
  end.

Definition guessTag (path : string) : string :=
  let segments := List.filter (fun s => negb (String.eqb s "") && negb (startsWith s "{")
                                        && negb (startsWith s ":"))
                    (split "/" path) in
  match segments with
  | _ :: s1 :: _ => capitalize s1
  | [s0] => capitalize s0
  | [] => "default"
  end.

Definition endpoint_id (method path : string) : string :=
  toLowerCase method +:+ "_" +:+ replace_each (one_of "{}/:.") "_" path.

Definition ok_response : ResponseDef.t :=
  ResponseDef.mk "200" (VStr "Successful response") None VUndefined.

(** The state of [extractEndpoints]: the array [endpoints] and the set
    [seen]. *)
Definition mined : Type := list Endpoint.t * gset string.

(** The body of the loop over the matches of one of the three patterns. *)
Definition mine_signature (text : string) (m : Match) (st : mined) : result mined :=
  g1 ← group text m 1;
  let method := toUpperCase g1 in
  path ← group text m 2;
  let key := method +:+ " " +:+ path in
  if bool_decide (key ∈ st.2) || negb (mem method HTTP_METHODS) then mret st else
  let context := extractContextAround text (index m) 500 in
  let params := extractParamsFromContext path context in
  let tag := guessTag path in
  summary ← extractSummaryFromContext context method path;
  mret (st.1 ++ [Endpoint.mk (VStr (endpoint_id method path)) method path (VStr summary)
                   (VStr (slice context 0 200)) (VStr tag) VUndefined params
                   None [ok_response] true None],
        {[key]} ∪ st.2).

(** The body of the loop over the [curl] examples. *)
Definition mine_curl (text : string) (curlMatch : Match) (st : mined) : result mined :=
  let method := toUpperCase (group_or text curlMatch 1 "GET") in
  let fullUrl := match group_opt text curlMatch 2 with
                 | Some u => u
                 | None => "undefined"
                 end in
  match URL_pathname fullUrl with
  | None => mret st
  | Some path =>
      let key := method +:+ " " +:+ path in
      if bool_decide (key ∈ st.2) then mret st else
      let tag := guessTag path in
      mret (st.1 ++ [Endpoint.mk (VStr (endpoint_id method path)) method path
                       (VStr (method +:+ " " +:+ path))
                       (VStr "Extracted from curl example") (VStr tag) VUndefined []
                       None [ok_response] true None],
            {[key]} ∪ st.2)
  end.

(** No pattern of [extractEndpoints] matches the empty text, so a loop
    over its matches ends within as many rounds as the text has positions. *)
Definition rounds (text : string) : nat := S (String.length text).

Fixpoint mine_patterns (fuel : nat) (text : string) (ps : list Regex.t) (st : mined)
  : result mined :=
  match ps with
  | [] => mret st
  | pattern :: rest =>
      st' ← each_match fuel pattern text 0 (mine_signature text) st;
      mine_patterns fuel text rest st'
  end.

(** [extractEndpoints], with [fuel] rounds for each of its loops. *)
Definition extractEndpoints_within (fuel : nat) (text : string) : result (list Endpoint.t) :=
  st ← mine_patterns fuel text patterns ([], ∅);
  st' ← each_match fuel curlPattern text 0 (mine_curl text) st;
  mret st'.1.

Definition extractEndpoints (text : string) : result (list Endpoint.t) :=
  extractEndpoints_within (rounds text) text.

(** *** Tag groups *)

Definition buildTagGroups (endpoints : list Endpoint.t) : list TagGroup.t :=
  fold_left (fun m ep => OpenApiParser.tag_push (or_else (Endpoint.tag ep) (VStr "default"))
                           (Endpoint.id ep) m)
    endpoints [].

(** *** Pagination and rate limits *)

Definition whole_word (w : string) : Regex.t := seq [WordBoundary; lit w; WordBoundary].

Definition extractPaginationHints (text : string) : list PaginationHint.t :=
  let lower := toLowerCase text in
  (if test (whole_word "cursor") lower || test (whole_word "after") lower
   then [PaginationHint.mk PaginationHint.cursor [VStr "cursor"]
           (VStr "Cursor-based pagination detected")]
   else []) ++
  (if test (whole_word "offset") lower && test (whole_word "limit") lower
   then [PaginationHint.mk PaginationHint.offset [VStr "offset"; VStr "limit"]
           (VStr "Offset-based pagination detected")]
   else []) ++
  (if test (whole_word "page") lower && test (whole_word "per_page") lower
   then [PaginationHint.mk PaginationHint.page [VStr "page"; VStr "per_page"]
           (VStr "Page-based pagination detected")]
   else []).

(** [/429|rate.?limit|too many requests/i] *)
Definition rate_limit_pattern : Regex.t :=
  Alt (liti "429") (Alt (seq [liti "rate"; Opt (Unit dot); liti "limit"])
                      (liti "too many requests")).

Definition extractRateLimitHints (text : string) : list RateLimitHint.t :=
  if test rate_limit_pattern text
  then [RateLimitHint.mk 429 "Retry-After" (VStr "Rate limiting detected in docs")]
  else [].

(** *** The normalizer *)

Definition or_default (o : option string) (dflt : string) : string :=
  match o with
  | Some s => if String.eqb s "" then dflt else s
  | None => dflt
  end.

Definition parseTextDocs (input : string) : result ParseResult.t :=
  let warnings := [] in
  let todos := [] in
  baseUrl ← extractBaseUrl input;
  let todos := if String.eqb (or_default baseUrl "") ""
               then todos ++ ["TODO: Base URL could not be determined from the text — please provide it."]
               else todos in
  let '(auth, warnings) := extractAuth input warnings in
  endpoints ← extractEndpoints input;
  let '(warnings, todos) :=
    if (length endpoints =? 0)%nat
    then (warnings ++ ["No endpoints could be extracted from the documentation text."],
          todos ++ ["TODO: Manually add endpoint definitions — the parser could not detect any."])
    else (warnings, todos) in
  let tags := buildTagGroups endpoints in
  let paginationHints := extractPaginationHints input in
  let rateLimitHints := extractRateLimitHints input in
  title ← extractTitle input;
  mret (ParseResult.mk
          (ApiSpec.mk (VStr (or_default title "Untitled API"))
             (VStr (extractDescription input))
             (VStr "1.0.0")
             (VStr (or_default baseUrl "https://api.example.com"))
             auth endpoints tags paginationHints rateLimitHints ApiSpec.text)
          warnings todos).

End WithHost.

End TextParser.

(** ** The language of a pattern

    The texts that a pattern matches, whatever stands around them: an
    assertion is counted as matching the empty text. *)
Fixpoint lang (r : Regex.t) (w : list ascii) : Prop :=
  match r with
  | Regex.Eps | Regex.WordBoundary | Regex.LineStart | Regex.LineEnd | Regex.InputEnd => w = []
  | Regex.Unit class => exists x, w = [x] /\ class x = true
  | Regex.Seq r1 r2 => exists w1 w2, w = w1 ++ w2 /\ lang r1 w1 /\ lang r2 w2
  | Regex.Alt r1 r2 => lang r1 w \/ lang r2 w
  | Regex.Star class => forallb class w = true
  | Regex.Opt r1 => w = [] \/ lang r1 w
  | Regex.Group _ r1 => lang r1 w
  end.

(** Group [n] takes part in every match of the pattern. *)
Fixpoint sets (n : nat) (r : Regex.t) : bool :=
  match r with
  | Regex.Seq r1 r2 => sets n r1 || sets n r2
  | Regex.Alt r1 r2 => sets n r1 && sets n r2
  | Regex.Group m r1 => (n =? m)%nat || sets n r1
  | _ => false
  end.

(** The pattern has no assertion. *)
Fixpoint pure (r : Regex.t) : bool :=
  match r with
  | Regex.Eps | Regex.Unit _ | Regex.Star _ => true
  | Regex.Seq r1 r2 | Regex.Alt r1 r2 => pure r1 && pure r2
  | Regex.Opt r1 | Regex.Group _ r1 => pure r1
  | Regex.WordBoundary | Regex.LineStart | Regex.LineEnd | Regex.InputEnd => false
  end.

(** A lower bound on the length of a match. *)
Fixpoint min_len (r : Regex.t) : nat :=
  match r with
  | Regex.Unit _ => 1
  | Regex.Seq r1 r2 => min_len r1 + min_len r2
  | Regex.Alt r1 r2 => Nat.min (min_len r1) (min_len r2)
  | Regex.Group _ r1 => min_len r1
  | _ => 0
  end.

(** ** Placeholders in a path *)

Definition open_brace : ascii := "{"%char.

Definition close_brace : ascii := "}"%char.

(** The number of units before the first closing brace. *)
Fixpoint body_end (l : list ascii) : option nat :=
  match l with
  | [] => None
  | c :: r => if Ascii.eqb c close_brace then Some 0 else option_map S (body_end r)
  end.

(** The length of the placeholder that starts the text: an opening brace,
    one unit or more up to the first closing brace, and that brace. *)
Definition placeholder_at (l : list ascii) : option nat :=
  match l with
  | c :: r =>
      if Ascii.eqb c open_brace then
        match body_end r with
        | Some (S n) => Some (S n + 2)
        | _ => None
        end
      else None
  | [] => None
  end.

(** Every brace opened in the text is closed in it. *)
Definition closed_before (pre : list ascii) : Prop :=
  forall p1 p2, pre = p1 ++ open_brace :: p2 -> In close_brace p2.

(** The path holds the token [{name}], whose name is not empty and has
    no brace, at a place before which every opened brace is closed. *)
Definition has_token (path name : string) : Prop :=
  exists pre post,
    path = pre +:+ "{" +:+ name +:+ "}" +:+ post /\
    name <> "" /\
    ~ In open_brace (chars name) /\ ~ In close_brace (chars name) /\
    closed_before (chars pre).

(** The method and the path of an endpoint, as [extractEndpoints] keys
    its set [seen]. *)
Definition endpoint_key (e : Endpoint.t) : string :=
  Endpoint.method e +:+ " " +:+ Endpoint.path e.

(** How [extractEndpoints] comes by the parameters of an endpoint: from
    the placeholders of its path, or, for an endpoint mined from a [curl]
    example, none, its path being the path of a URL. *)
Definition mined_parameters `{Host} (e : Endpoint.t) : Prop :=
  Endpoint.parameters e = TextParser.extractParamsFromContext (Endpoint.path e) ""
  \/ Endpoint.parameters e = [] /\ exists u, URL_pathname u = Some (Endpoint.path e).

(** What [extractEndpoints] puts in every endpoint. *)
Definition mined_endpoint `{Host} (e : Endpoint.t) : Prop :=
  Endpoint.auth e = true /\ Endpoint.responses e = [TextParser.ok_response] /\
  mined_parameters e.

(** A round of either loop of [extractEndpoints] leaves the state as it is,
    or adds one endpoint whose key was not seen before. *)
Definition mined_step `{Host} (st st' : TextParser.mined) : Prop :=
  st' = st \/
  exists e, st' = (fst st ++ [e], ({[endpoint_key e]} : gset string) ∪ snd st) /\
            (endpoint_key e ∉ snd st) /\ mined_endpoint e.

(** ** Reading a document without exceptions *)

(** [v[k]] on a value that is known to be neither [undefined] nor [null],
    for a key other than [length]. *)
Definition prop (v : value) (k : string) : value := assoc k (own_entries v).


(** The operations that [extractEndpoints] walks through, in its order:
    for each path item and each of the five methods, the entry of the item
    under the method's lower-case name, when it is truthy. *)
Definition operations (doc : value) : list (string * string * value) :=
  flat_map (fun '(path, pathItem) =>
              omap (fun method =>
                      let op := prop pathItem (toLowerCase method) in
                      if truthy op then Some (path, method, op) else None)
                OpenApiParser.methods)
    (own_entries (or_else (prop doc "paths") (VObj []))).

(** The status codes under which an operation declares responses. *)
Definition response_codes (op : value) : list string :=
  map fst (own_entries (or_else (prop op "responses") (VObj []))).


(** A computation is tame when the only exceptions it can raise are a
    TypeError and a RangeError. *)
Definition tame {A : Type} (m : result A) : Prop :=
  forall e, m = Throw e -> e = TypeError \/ e = RangeError.

(** The document of the round-trip scenario, and its text. *)
Definition c2_doc : value :=
  VObj [("openapi", VStr "3.0.0");
        ("info", VObj [("title", VStr "T"); ("version", VStr "1")]);
        ("servers", VArr [VObj [("url", VStr "https://x.io")]]);
        ("paths", VObj [("/a", VObj [("get", VObj [("operationId", VStr "getA");
           ("responses", VObj [("200", VObj [("description", VStr "ok")])])])])])].

Definition c2_input : string :=
  Reference.dq "{'openapi':'3.0.0','info':{'title':'T','version':'1'},'servers':[{'url':'https://x.io'}],'paths':{'/a':{'get':{'operationId':'getA','responses':{'200':{'description':'ok'}}}}}}".




(** An operation whose request body lists [text/plain] before
    [application/json]. *)
Definition two_media_body : value :=
  VObj [("content",
         VObj [("text/plain", VObj [("schema", VObj [("type", VStr "string")])]);
               ("application/json",
                VObj [("schema", VObj [("type", VStr "object");
                                       ("properties", VObj [("a", VObj [("type", VStr "integer")])])])])])].

Definition two_media_op : value := VObj [("requestBody", two_media_body)].

(** An operation whose request body lists [text/plain] and
    [application/xml], and no [application/json]. *)
Definition no_json_body : value :=
  VObj [("content",
         VObj [("text/plain", VObj [("schema", VObj [("type", VStr "string")])]);
               ("application/xml",
                VObj [("schema", VObj [("type", VStr "object");
                                       ("properties", VObj [("b", VObj [("type", VStr "integer")])])])])])].

Definition no_json_op : value := VObj [("requestBody", no_json_body)].

(** A schema of arrays of arrays, [n] deep, of strings. *)
Fixpoint nested_arrays (n : nat) : value :=
  match n with
  | 0 => VObj [("type", VStr "string")]
  | S k => VObj [("type", VStr "array"); ("items", nested_arrays k)]
  end.

(** A Swagger-2 document whose one response has that schema. *)
Definition deep_document (n : nat) : value :=
  VObj [("swagger", VStr "2.0");
        ("paths", VObj [("/a", VObj [("get", VObj [("responses",
            VObj [("200", VObj [("schema", nested_arrays n)])])])])])].

(** An OpenAPI document whose two operations share one operationId. *)
Definition shared_id_input : string :=
  Reference.dq "{'openapi':'3.0.0','paths':{'/a':{'get':{'operationId':'x'}},'/b':{'get':{'operationId':'x'}}}}".

(** A text whose two paths differ and are spelled alike once slashes and
    dots are replaced. *)
Definition alike_paths_text : string := "GET /a/b and GET /a.b".

(** A text with the generic api_key phrase and no header-like token. *)
Definition generic_key_text : string := "Send your api_key with each call.".

(** A text whose path opens a brace inside a brace. *)
Definition nested_brace_text : string := "GET /{a{id}".

Definition pet_text : string := "GET /pets/{id}".

(** ** Notions of the statements on the rest of the normalizers *)

(** The parameters that a path item or an operation declares, as the
    spread in [extractParameters] lists them. *)
Definition declared_parameters (v : value) : list value :=
  match or_else (prop v "parameters") (VArr []) with
  | VArr items => items
  | VStr s => units s
  | _ => []
  end.

(** The name under which a pagination hint was recorded, in lower case. *)
Definition hint_key (h : PaginationHint.t) : string :=
  match PaginationHint.parameters h with
  | [VStr n] => toLowerCase n
  | _ => ""
  end.

(** The endpoint ids of all groups, group after group. *)
Definition filed_ids (groups : list TagGroup.t) : list value :=
  concat (map TagGroup.endpointIds groups).

(** The identifier that [extractEndpoints] of the structured normalizer
    makes up for an operation without an operationId. *)
Definition default_id (method path : string) : string :=
  method +:+ "_" +:+ replace_each (one_of "{}/") "_" path.

(** The names that [detectPagination] can record: a name is compared in
    lower case, so the keyword pageSize of [PAGINATION_KEYWORDS] matches no
    parameter. *)
Definition live_keywords : list string :=
  ["page"; "limit"; "offset"; "cursor"; "after"; "before"; "per_page"; "page_size"].

(** What [detectPagination] keeps true of its array [hints] and its set
    [seen], for parameters that satisfy [Q]. *)
Definition paginated (Q : Param.t -> Prop) (st : list PaginationHint.t * gset string) : Prop :=
  NoDup (map hint_key st.1) /\
  (forall k, k ∈ st.2 <-> In k (map hint_key st.1)) /\
  Forall (fun h =>
            In (hint_key h) live_keywords /\
            PaginationHint.type h = OpenApiParser.pagination_kind (hint_key h) /\
            exists p n, Q p /\ Param.name p = VStr n /\ PaginationHint.parameters h = [VStr n])
    st.1.

(** An array of JavaScript has fewer than 2^32 elements. *)
Definition array_sized {A : Type} (l : list A) : Prop := (Z.of_nat (length l) < 2 ^ 32)%Z.

(** An OpenAPI 3 document with a server, a document-level security
    requirement, parameters on a path item and on its operations, and a
    request body. *)
Definition petstore_input : string :=
  Reference.dq "{'openapi':'3.0.0','info':{'title':'Pets'},'servers':[{'url':'https://pets.io/v1/'}],'security':[{'key':[]}],'components':{'securitySchemes':{'key':{'type':'apiKey','in':'header','name':'X-Key'},'web':{'type':'http','scheme':'bearer'}}},'tags':[{'name':'pets'},{'name':'unused'}],'paths':{'/pets':{'parameters':[{'name':'limit','in':'query'}],'get':{'tags':['pets'],'security':[],'parameters':[{'name':'pageSize','in':'query'},{'name':'Cursor','in':'query','required':true},{'name':'limit','in':'query','schema':{'type':'integer'}}]},'post':{'summary':'Add a pet','requestBody':{'content':{'application/json':{'schema':{'type':'object','required':['name'],'properties':{'name':{'type':'string'},'tag':{'$ref':'#/t'}}}}}}}},'/pets/{id}':{'delete':{'operationId':'removePet','deprecated':true}}}}".

(** The document with nothing in it. *)
Definition empty_input : string := "{}".

(** A path item and an operation that both declare a parameter named id. *)
Definition shared_item : value :=
  VObj [("parameters", VArr [VObj [("name", VStr "id"); ("in", VStr "path");
                                   ("required", VBool true); ("type", VStr "integer")]])].

Definition shared_op : value :=
  VObj [("parameters", VArr [VObj [("name", VStr "id"); ("in", VStr "query")]])].

(** A schema that is a reference. *)
Definition ref_schema : value := VObj [("$ref", VStr "#/components/schemas/Pet")].

(** The text of a schema with the properties b, 10 and 2, in this order. *)
Definition numbered_schema_input : string :=
  Reference.dq "{'properties':{'b':{},'10':{},'2':{}}}".

(** An OpenAPI 3 document with a server and a document-level security
    requirement, whose one operation declares an empty security array. *)
Definition secured_input : string :=
  Reference.dq "{'openapi':'3.0.0','servers':[{'url':'https://x.io/'}],'security':[{'k':[]}],'paths':{'/a':{'get':{'security':[]}}}}".

Definition secured_doc : value :=
  VObj [("openapi", VStr "3.0.0");
        ("servers", VArr [VObj [("url", VStr "https://x.io/")]]);
        ("security", VArr [VObj [("k", VArr [])]]);
        ("paths", VObj [("/a", VObj [("get", VObj [("security", VArr [])])])])].

(** ** What a group captures *)

(** The texts that group [n] of a pattern can hold after a match. *)
Fixpoint captured (n : nat) (r : Regex.t) (w : list ascii) : Prop :=
  match r with
  | Regex.Seq r1 r2 | Regex.Alt r1 r2 => captured n r1 w \/ captured n r2 w
  | Regex.Opt r1 => captured n r1 w
  | Regex.Group m r1 => n = m /\ lang r1 w \/ captured n r1 w
  | _ => False
  end.

(** A text of the ASCII range. *)
Definition plain (s : string) : bool := forallb (fun x => (code x <? 128)%N) (chars s).

(** The lower-case forms of the texts that [extractRateLimitHints] looks
    for: 429, too many requests, and rate and limit with nothing or one unit
    that ends no line between them. *)
Definition rate_limit_cue (x : list ascii) : Prop :=
  x = chars "429" \/ x = chars "too many requests" \/ x = chars "ratelimit" \/
  exists c, Regex.line_terminator c = false /\ x = chars "rate" ++ c :: chars "limit".

(** A text that does not start with a unit of the class. *)
Definition unpadded (f : ascii -> bool) (l : list ascii) : Prop :=
  match l with
  | [] => True
  | x :: _ => f x = false
  end.

(** The units that the path of a signature is made of. *)
Definition path_unit (c : ascii) : bool := Regex.alnum c || one_of "_-{}/:." c.

(** An endpoint as [extractEndpoints] makes it from a signature: its path
    is a slash and one unit or more of the class of paths, its summary is a
    text, its description is the start of a stretch of the text, and its
    parameters are those of the placeholders of its path. *)
Definition from_signature (e : Endpoint.t) : Prop :=
  (exists rest, Endpoint.path e = String "/" rest /\ rest <> "" /\
                forallb path_unit (chars rest) = true) /\
  (exists s, Endpoint.summary e = VStr s) /\
  (exists context, Endpoint.description e = VStr (slice context 0 200)) /\
  Endpoint.parameters e = TextParser.extractParamsFromContext (Endpoint.path e) "".

(** An endpoint as [extractEndpoints] makes it from a [curl] example: its
    path is that of a URL that starts with http, in any letter case, its
    summary is its method and its path, and it has no parameter. *)
Definition from_curl `{Host} (e : Endpoint.t) : Prop :=
  (exists u, URL_pathname u = Some (Endpoint.path e) /\
             startsWith (toLowerCase u) "http" = true) /\
  Endpoint.summary e = VStr (Endpoint.method e +:+ " " +:+ Endpoint.path e) /\
  Endpoint.description e = VStr "Extracted from curl example" /\
  Endpoint.parameters e = [].

(** What [extractEndpoints] of the text normalizer puts in an endpoint. *)
Definition shaped `{Host} (e : Endpoint.t) : Prop :=
  In (Endpoint.method e) TextParser.HTTP_METHODS /\
  Endpoint.id e = VStr (TextParser.endpoint_id (Endpoint.method e) (Endpoint.path e)) /\
  Endpoint.tag e = VStr (TextParser.guessTag (Endpoint.path e)) /\
  Endpoint.operationId e = VUndefined /\
  Endpoint.requestBody e = None /\
  Endpoint.deprecated e = None /\
  (from_signature e \/ from_curl e).

(** The ids of the endpoints that carry a tag, in their order. *)
Definition tagged (t : value) (eps : list Endpoint.t) : list value :=
  map Endpoint.id
    (List.filter (fun e => OpenApiParser.same_value_zero t (Endpoint.tag e)) eps).

(** A group before and after an endpoint with the tag [t] and the id [i]
    was filed. *)
Definition pushed (t : string) (i : value) (g g' : TagGroup.t) : Prop :=
  TagGroup.name g' = TagGroup.name g /\
  TagGroup.endpointIds g'
  = TagGroup.endpointIds g ++
    (if OpenApiParser.same_value_zero (TagGroup.name g) (VStr t) then [i] else []).

(** What the loop of [buildTagGroups] keeps true of the groups made for
    the endpoints gone through, when the tags are texts: no two groups have
    the same name, no group is empty, each group lists the ids of the
    endpoints that carry its name, and every endpoint has its group. *)
Definition grouped (m : list TagGroup.t) (done : list Endpoint.t) : Prop :=
  NoDup (map TagGroup.name m) /\
  Forall (fun g => (exists t, TagGroup.name g = VStr t) /\
                   TagGroup.endpointIds g <> [] /\
                   TagGroup.endpointIds g = tagged (TagGroup.name g) done) m /\
  Forall (fun e => exists g, In g m /\ TagGroup.name g = Endpoint.tag e) done.

(** Where the run of slashes that ends a text starts, if there is one. *)
Fixpoint trailing (l : list ascii) : option nat :=
  match l with
  | [] => None
  | x :: r =>
      if Regex.just "/" x && forallb (Regex.just "/") r then Some 0
      else option_map S (trailing r)
  end.

(** The text without the run of slashes that ends it. *)
Definition strip (l : list ascii) : list ascii :=
  match trailing l with
  | Some i => firstn i l
  | None => l
  end.

(** ** The parsing route (app/api/parse/route.ts)

    The handler that receives a request with the documentation and answers
    with the canonical spec. *)

Module Route.

Import Regex.

(** What went wrong in a request that is answered with status 500: its body
    is no JSON text, or an exception was thrown; the answer carries the
    message of the exception. *)
Inductive failure :=
| BodyNotJson
| Thrown (e : exn).

(** The answers of the handler: the result as JSON with status 200, an
    error with status 400, and an error with status 500. *)
Inductive reply :=
| Parsed (result : ParseResult.t)
| Refused (error : string)
| Crashed (f : failure).

Definition status (r : reply) : nat :=
  match r with
  | Parsed _ => 200
  | Refused _ => 400
  | Crashed _ => 500
  end.

Section WithHost.

Context `{Host}.

(** [/^(openapi|swagger)\s*:/m] *)
Definition key_pattern : Regex.t :=
  seq [LineStart; Alt (lit "openapi") (lit "swagger"); Star space; lit ":"].

(** [!!(doc.openapi || doc.swagger)] *)
Definition has_version_key (doc : value) : result bool :=
  o ← get doc "openapi";
  if truthy o then mret true else (s ← get doc "swagger"; mret (truthy s)).

Definition isLikelyOpenApi (content : string) : bool :=
  let trimmed := trim content in
  if startsWith trimmed "{" then
    match JSON_parse trimmed with
    | Some doc =>
        match has_version_key doc with
        | Ok b => b
        | Throw _ => false
        end
    | None => false
    end
  else test key_pattern trimmed.

(** [v.trim()] *)
Definition call_trim (v : value) : result string :=
  match v with
  | VStr s => Ok (trim s)
  | _ => Throw TypeError
  end.

(** The text of a value whose [trim] method was called without an
    exception. *)
Definition text_of (v : value) : string :=
  match v with
  | VStr s => s
  | _ => ""
  end.

(** The body of the [try] block, for the value that [request.json()]
    resolved to. *)
Definition handle (body : value) : result reply :=
  content ← get body "content";
  type ← get body "type";
  if negb (truthy content) then mret (Refused "No content provided") else
  trimmed ← call_trim content;
  if (String.length trimmed =? 0)%nat then mret (Refused "No content provided") else
  let content := text_of content in
  if is_str type "openapi" || (is_str type "auto" && isLikelyOpenApi content)
  then Parsed <$> OpenApiParser.parseOpenApiSpec content
  else Parsed <$> TextParser.parseTextDocs content.

(** [POST(request)], for the outcome of [request.json()]: [None] when the
    body of the request is no JSON text. *)
Definition POST (body : option value) : reply :=
  match body with
  | None => Crashed BodyNotJson
  | Some body =>
      match handle body with
      | Ok r => r
      | Throw e => Crashed (Thrown e)
      end
  end.

End WithHost.

End Route.

(** A line starts after the units [pre]: nothing, or a line terminator,
    comes last in them. *)
Definition starts_line (pre : list ascii) : bool :=
  match last pre with
  | Some x => Regex.line_terminator x
  | None => true
  end.

(** The unit before a position that lies [skipped] beyond a position
    with [b] before it. *)
Definition unit_before (b : option ascii) (skipped : list ascii) : option ascii :=
  match last skipped with
  | Some x => Some x
  | None => b
  end.

Definition opens (b : option ascii) : bool :=
  match b with
  | Some x => Regex.line_terminator x
  | None => true
  end.

(** A request for the free-text normalizer. *)
Definition text_body : value :=
  VObj [("content", VStr pet_text); ("type", VStr "text")].


(** ** The learning-path generator (the second part of openapi-parser.ts) *)

Module LearningStep.
Inductive kind := info | endpoint | exercise.
Record t := mk {
  title : value;
  description : value;
  endpointId : value;
  content : string;
  type : kind
}.
End LearningStep.

Module LearningPath.
Record t := mk {
  id : string;
  title : string;
  description : string;
  icon : string;
  steps : list LearningStep.t
}.
End LearningPath.

Module LearningPaths.

Section WithHost.

Context `{Host}.

Definition nl : string := String "010" "".

(** [s.charAt(0).toUpperCase() + s.slice(1)] *)
Definition capitalize (s : string) : string :=
  match chars s with
  | [] => ""
  | c :: r => str (upper_unit c ++ r)
  end.

(** *** Basics *)

Definition buildAuthContent (spec : ApiSpec.t) : result string :=
  let a := ApiSpec.auth spec in
  match AuthScheme.type a with
  | AuthScheme.bearer =>
      mret "This API uses Bearer tokens. Include `Authorization: Bearer YOUR_TOKEN` in every request header."
  | AuthScheme.apiKey =>
      h ← ToString (or_else (AuthScheme.headerName a) (VStr "X-API-Key"));
      mret ("This API uses an API key. Include `" +:+ h +:+
            ": YOUR_KEY` in every request header.")
  | AuthScheme.basic =>
      mret "This API uses Basic Auth. Send your username and password encoded in the Authorization header."
  | AuthScheme.oauth2 =>
      mret "This API uses OAuth 2.0. You'll need to complete the OAuth flow to get an access token."
  | _ =>
      mret "Authentication method not detected. Check the API documentation for auth requirements."
  end.

Definition kind_name (k : PaginationHint.kind) : string :=
  match k with
  | PaginationHint.cursor => "cursor"
  | PaginationHint.offset => "offset"
  | PaginationHint.page => "page"
  | PaginationHint.unknown => "unknown"
  end.

(** [buildPaginationContent(spec)]; reading a property of
    [spec.paginationHints[0]] throws when there is no hint. *)
Definition buildPaginationContent (spec : ApiSpec.t) : result string :=
  match ApiSpec.paginationHints spec with
  | [] => Throw TypeError
  | hint :: _ =>
      ps ← mapM (fun p => s ← ToString p; mret ("`" +:+ s +:+ "`"))
             (PaginationHint.parameters hint);
      mret ("This API uses **" +:+ kind_name (PaginationHint.type hint) +:+
            "-based** pagination with parameters: " +:+ join ", " ps +:+ "." +:+ nl +:+ nl +:+
            "Always check the response for pagination metadata (like `next`, `total`, or `has_more`) to know if there are more pages.")
  end.

Definition error_handling : string :=
  "Common HTTP errors you might encounter:" +:+ nl +:+ nl +:+
  "- **401**: Check your API key/token" +:+ nl +:+
  "- **403**: Verify your permissions" +:+ nl +:+
  "- **404**: Check the endpoint path and resource IDs" +:+ nl +:+
  "- **429**: You're being rate limited — slow down" +:+ nl +:+
  "- **500**: Server issue — retry after a moment".

(** [e.method === 'GET' && !e.path.includes('{')] *)
Definition plain_get (e : Endpoint.t) : bool :=
  String.eqb (Endpoint.method e) "GET" && negb (includes (Endpoint.path e) "{").

Definition buildBasicsPath (spec : ApiSpec.t) : result LearningPath.t :=
  let steps := [] in
  auth ← buildAuthContent spec;
  let steps := steps ++ [LearningStep.mk (VStr "Authentication Setup")
                           (VStr "Learn how to authenticate with this API")
                           VUndefined auth LearningStep.info] in
  let steps :=
    match List.find plain_get (ApiSpec.endpoints spec) with
    | Some firstGet =>
        steps ++ [LearningStep.mk (VStr "Your First Request")
                    (VStr ("Make a GET request to " +:+ Endpoint.path firstGet))
                    (Endpoint.id firstGet)
                    ("Start by calling `GET " +:+ Endpoint.path firstGet +:+
                     "` — this is the simplest endpoint to verify your setup works.")
                    LearningStep.endpoint]
    | None => steps
    end in
  steps ← (if (0 <? length (ApiSpec.paginationHints spec))%nat then
             pagination ← buildPaginationContent spec;
             mret (steps ++ [LearningStep.mk (VStr "Pagination")
                               (VStr "Learn how to paginate through results")
                               VUndefined pagination LearningStep.info])
           else mret steps);
  let steps := steps ++ [LearningStep.mk (VStr "Error Handling")
                           (VStr "Understand common errors and how to fix them")
                           VUndefined error_handling LearningStep.info] in
  mret (LearningPath.mk "basics" "Getting Started"
          "Learn the fundamentals: authentication, first request, pagination, and error handling."
          "🚀" steps).

(** *** CRUD *)

(** The object kept for a resource; a property that was not assigned reads
    as [undefined]. *)
Record ops := Ops {
  list_ : value;
  get_ : value;
  create : value;
  update : value;
  del : value
}.

Definition no_ops : ops := Ops VUndefined VUndefined VUndefined VUndefined VUndefined.

(** The [Map] from resources to their objects, in the order of insertion. *)
Definition resource_map : Type := list (string * ops).

Definition has (name : string) (m : resource_map) : bool :=
  existsb (fun e => String.eqb e.1 name) m.

Fixpoint lookup (name : string) (m : resource_map) : option ops :=
  match m with
  | [] => None
  | (k, o) :: rest => if String.eqb k name then Some o else lookup name rest
  end.

(** [m.set(name, o)], also for the change of the object that is kept for
    [name]. *)
Fixpoint set (name : string) (o : ops) (m : resource_map) : resource_map :=
  match m with
  | [] => [(name, o)]
  | (k, o') :: rest =>
      if String.eqb k name then (k, o) :: rest else (k, o') :: set name o rest
  end.

(** [ep.path.split('/').filter(Boolean).find(...)] *)
Definition resource_of (ep : Endpoint.t) : option string :=
  let segments := List.filter (fun s => negb (String.eqb s "")) (split "/" (Endpoint.path ep)) in
  List.find (fun s => negb (startsWith s "{") && negb (startsWith s ":")
                      && negb (mem s ["api"; "v1"; "v2"; "v3"]))
    segments.

(** The chain of assignments for an endpoint in the object of its
    resource. *)
Definition assign (ep : Endpoint.t) (r : ops) : ops :=
  let method := Endpoint.method ep in
  let braces := includes (Endpoint.path ep) "{" in
  if String.eqb method "GET" && negb braces
  then Ops (Endpoint.id ep) (get_ r) (create r) (update r) (del r)
  else if String.eqb method "GET" && braces
  then Ops (list_ r) (Endpoint.id ep) (create r) (update r) (del r)
  else if String.eqb method "POST"
  then Ops (list_ r) (get_ r) (Endpoint.id ep) (update r) (del r)
  else if String.eqb method "PUT" || String.eqb method "PATCH"
  then Ops (list_ r) (get_ r) (create r) (Endpoint.id ep) (del r)
  else if String.eqb method "DELETE"
  then Ops (list_ r) (get_ r) (create r) (update r) (Endpoint.id ep)
  else r.

(** The body of the first loop of [buildCrudPath]. *)
Definition file (ep : Endpoint.t) (resources : resource_map) : result resource_map :=
  match resource_of ep with
  | None => mret resources
  | Some resource =>
      if String.eqb resource "" then mret resources else
      let resources := if negb (has resource resources)
                       then set resource no_ops resources else resources in
      match lookup resource resources with
      | Some r => mret (set resource (assign ep r) resources)
      | None => Throw TypeError
      end
  end.

Fixpoint file_all (eps : list Endpoint.t) (resources : resource_map) : result resource_map :=
  match eps with
  | [] => mret resources
  | ep :: rest => resources ← file ep resources; file_all rest resources
  end.

(** [Object.values(ops)], with [undefined] for a property that was not
    assigned; the filter that follows drops these. *)
Definition values (o : ops) : list value := [list_ o; get_ o; create o; update o; del o].

(** [Object.values(ops).filter(Boolean).length] *)
Definition count (o : ops) : nat := length (List.filter truthy (values o)).

(** The second loop: the resource with the most operations, and their
    number. *)
Definition best (resources : resource_map) : string * nat :=
  fold_left (fun b e => if (b.2 <? count e.2)%nat then (e.1, count e.2) else b)
    resources ("", 0).

Definition crud_step (title description content : string) (id : value) : LearningStep.t :=
  LearningStep.mk (VStr title) (VStr description) id content LearningStep.endpoint.

Definition crud_steps (bestResource : string) (o : ops) : list LearningStep.t :=
  (if truthy (list_ o)
   then [crud_step ("List " +:+ capitalize bestResource) ("Fetch all " +:+ bestResource)
           ("Start by listing all " +:+ bestResource +:+ " to see what data is available.")
           (list_ o)]
   else []) ++
  (if truthy (get_ o)
   then [crud_step ("Get a Single " +:+ capitalize bestResource)
           ("Fetch one " +:+ bestResource +:+ " by ID")
           "Pick an ID from the list response and fetch the full details."
           (get_ o)]
   else []) ++
  (if truthy (create o)
   then [crud_step ("Create a " +:+ capitalize bestResource)
           ("Create a new " +:+ bestResource)
           ("Try creating a new " +:+ bestResource +:+ " with the required fields.")
           (create o)]
   else []) ++
  (if truthy (update o)
   then [crud_step ("Update a " +:+ capitalize bestResource)
           ("Modify an existing " +:+ bestResource)
           ("Update one of the fields on an existing " +:+ bestResource +:+ ".")
           (update o)]
   else []) ++
  (if truthy (del o)
   then [crud_step ("Delete a " +:+ capitalize bestResource)
           ("Remove a " +:+ bestResource)
           ("Delete a " +:+ bestResource +:+ " by ID. Be careful — this is usually irreversible!")
           (del o)]
   else []).

Definition buildCrudPath (spec : ApiSpec.t) : result (option LearningPath.t) :=
  resources ← file_all (ApiSpec.endpoints spec) [];
  let '(bestResource, bestCount) := best resources in
  if (bestCount <? 2)%nat then mret None else
  match lookup bestResource resources with
  | None => Throw TypeError
  | Some o =>
      mret (Some (LearningPath.mk "crud"
                    ("CRUD Operations — " +:+ capitalize bestResource)
                    ("Learn the full Create, Read, Update, Delete cycle for " +:+
                     bestResource +:+ ".")
                    "📝" (crud_steps bestResource o)))
  end.

(** *** Workflow *)

Definition workflowKeywords : list string :=
  ["order"; "payment"; "checkout"; "cart"; "invoice"; "booking"; "reservation"].

(** The predicate of the filter in [buildWorkflowPath]. *)
Definition in_workflow (ep : Endpoint.t) : result bool :=
  summary ← ToString (Endpoint.summary ep);
  tag ← ToString (Endpoint.tag ep);
  let lower := toLowerCase (Endpoint.path ep +:+ " " +:+ summary +:+ " " +:+ tag) in
  mret (existsb (fun kw => includes lower kw) workflowKeywords).

(** [l.filter(f)] for a predicate that can throw. *)
Fixpoint filter_with {A : Type} (f : A -> result bool) (l : list A) : result (list A) :=
  match l with
  | [] => mret []
  | x :: rest =>
      keep ← f x;
      kept ← filter_with f rest;
      mret (if keep : bool then x :: kept else kept)
  end.

(** The callback of the map in [buildWorkflowPath]. *)
Definition workflow_step (ep : Endpoint.t) (i : nat) : result LearningStep.t :=
  let n := Number_toString (number_of_nat (i + 1)) in
  let signature := Endpoint.method ep +:+ " " +:+ Endpoint.path ep in
  let title := or_else (Endpoint.summary ep) (VStr ("Step " +:+ n +:+ ": " +:+ signature)) in
  let description := or_else (Endpoint.description ep) (VStr signature) in
  what ← ToString (or_else (Endpoint.summary ep) (VStr (Endpoint.path ep)));
  mret (LearningStep.mk title description (Endpoint.id ep)
          ("Step " +:+ n +:+ " of the workflow: " +:+ what) LearningStep.endpoint).

(** [l.map((ep, i) => f(ep, i))] from the index [i] on. *)
Fixpoint map_indexed {A B : Type} (f : A -> nat -> result B) (i : nat) (l : list A)
  : result (list B) :=
  match l with
  | [] => mret []
  | x :: rest => y ← f x i; ys ← map_indexed f (S i) rest; mret (y :: ys)
  end.

Definition buildWorkflowPath (spec : ApiSpec.t) : result (option LearningPath.t) :=
  workflowEndpoints ← filter_with in_workflow (ApiSpec.endpoints spec);
  if (length workflowEndpoints <? 2)%nat then mret None else
  steps ← map_indexed workflow_step 0 (firstn 5 workflowEndpoints);
  mret (Some (LearningPath.mk "workflow" "Business Workflow"
                "Follow a real-world workflow using multiple endpoints."
                "🔄" steps)).

(** *** The generator *)

Definition generateLearningPaths (spec : ApiSpec.t) : result (list LearningPath.t) :=
  let paths := [] in
  basics ← buildBasicsPath spec;
  let paths := paths ++ [basics] in
  crudPath ← buildCrudPath spec;
  let paths := match crudPath with
               | Some p => paths ++ [p]
               | None => paths
               end in
  workflowPath ← buildWorkflowPath spec;
  let paths := match workflowPath with
               | Some p => paths ++ [p]
               | None => paths
               end in
  mret paths.

End WithHost.

End LearningPaths.


(** ** Notions of the statements on the learning paths *)

(** [v] is the id of an endpoint of [eps] whose resource is [k]. *)
Definition id_of_resource (eps : list Endpoint.t) (k : string) (v : value) : Prop :=
  exists e, In e eps /\ v = Endpoint.id e /\ LearningPaths.resource_of e = Some k.

(** The map of resources holds each resource once, and what it holds for a
    resource are ids of endpoints of [eps] with that resource. *)
Definition filed (eps : list Endpoint.t) (m : LearningPaths.resource_map) : Prop :=
  List.NoDup (map fst m) /\
  forall k o, In (k, o) m ->
    Forall (fun v => v = VUndefined \/ id_of_resource eps k v) (LearningPaths.values o).

(** What a step refers to: a step of information refers to nothing, a step
    on an endpoint carries the id of an endpoint of [eps]; no step is an
    exercise. *)
Definition refers (eps : list Endpoint.t) (s : LearningStep.t) : Prop :=
  match LearningStep.type s with
  | LearningStep.info => LearningStep.endpointId s = VUndefined
  | LearningStep.endpoint => exists e, In e eps /\ LearningStep.endpointId s = Endpoint.id e
  | LearningStep.exercise => False
  end.

(** A value that is no array and no object. *)
Definition primitive (v : value) : bool :=
  match v with
  | VArr _ | VObj _ => false
  | _ => true
  end.

(** The texts that the generator puts in its templates are primitive
    values: the header name of the scheme, the summary and the tag of each
    endpoint, and the parameters of the first pagination hint. *)
Definition printable (spec : ApiSpec.t) : Prop :=
  primitive (AuthScheme.headerName (ApiSpec.auth spec)) = true /\
  Forall (fun e => primitive (Endpoint.summary e) = true /\
                   primitive (Endpoint.tag e) = true) (ApiSpec.endpoints spec) /\
  match ApiSpec.paginationHints spec with
  | hint :: _ => Forall (fun p => primitive p = true) (PaginationHint.parameters hint)
  | [] => True
  end.

(** The value converts to a string. *)
Definition spells `{Host} (v : value) : Prop := exists s, ToString v = Ok s.

(** What the generator spells out in its templates converts to a string:
    the header name of a scheme of type apiKey, or the name it defaults to;
    the parameters of the first pagination hint; the summary and the tag of
    each endpoint. *)
Definition spellable `{Host} (spec : ApiSpec.t) : Prop :=
  (AuthScheme.type (ApiSpec.auth spec) = AuthScheme.apiKey ->
   spells (or_else (AuthScheme.headerName (ApiSpec.auth spec)) (VStr "X-API-Key"))) /\
  match ApiSpec.paginationHints spec with
  | hint :: _ => Forall spells (PaginationHint.parameters hint)
  | [] => True
  end /\
  Forall (fun e => spells (Endpoint.summary e) /\ spells (Endpoint.tag e))
    (ApiSpec.endpoints spec).

(** A document with a scheme of type apiKey, a parameter that hints at
    pagination, and two operations on orders, both with a summary and one
    of them with a tag. *)
Definition keyed_input : string :=
  Reference.dq "{'openapi':'3.0.0','components':{'securitySchemes':{'k':{'type':'apiKey','in':'header','name':'X-Key'}}},'paths':{'/orders':{'get':{'summary':'List orders','tags':['Orders'],'parameters':[{'name':'limit','in':'query'}]},'post':{'summary':'Create order'}}}}".

(** A document whose one operation has for its summary an object with a
    property toString that is no function. *)
Definition unspellable_input : string :=
  Reference.dq "{'openapi':'3.0.0','paths':{'/orders':{'get':{'summary':{'toString':1}}}}}".

(** Three signatures on orders. *)
Definition orders_text : string :=
  "GET /orders" +:+ LearningPaths.nl +:+ "POST /orders" +:+ LearningPaths.nl +:+
  "GET /orders/{id}".

(** The endpoint mentions a keyword of a workflow, in its path, its
    summary or its tag. *)
Definition mentions `{Host} (ep : Endpoint.t) : bool :=
  match LearningPaths.in_workflow ep with
  | Ok b => b
  | Throw _ => false
  end.

(** * Properties *)

(** ** The exception monad *)

Lemma bind_Ok {A B : Type} (m : result A) (f : A -> result B) (b : B) :
  m ≫= f = Ok b -> exists a, m = Ok a /\ f a = Ok b.
Proof. destruct m as [a|e]; simpl; [eauto | discriminate]. Qed.

Lemma fmap_Ok {A B : Type} (m : result A) (f : A -> B) (b : B) :
  f <$> m = Ok b -> exists a, m = Ok a /\ b = f a.
Proof. destruct m as [a|e]; simpl; [intros [= <-]; eauto | discriminate]. Qed.

Lemma get_Ok (v : value) (k : string) (x : value) :
  get v k = Ok x -> k <> "length" -> x = prop v k.
Proof.
  intros Hg Hk. apply String.eqb_neq in Hk. unfold prop.
  destruct v; simpl in *; rewrite ?Hk in Hg; congruence.
Qed.

Lemma get_defined (v : value) (k : string) :
  v <> VUndefined -> v <> VNull -> k <> "length" -> get v k = Ok (prop v k).
Proof.
  intros H1 H2 Hk. apply String.eqb_neq in Hk. unfold prop.
  destruct v; simpl; rewrite ?Hk; congruence.
Qed.

Lemma get_receiver (v : value) (k : string) (x : value) :
  get v k = Ok x -> v <> VUndefined /\ v <> VNull.
Proof. destruct v; simpl; intros; split; congruence. Qed.

(** Breaks the equations [m ≫= f = Ok b] of the context into their steps. *)
Ltac steps :=
  repeat match goal with
         | H : _ ≫= _ = Ok _ |- _ =>
             let a := fresh "a" in
             let Ha := fresh "Ha" in
             apply bind_Ok in H as (a & Ha & H)
         | H : _ <$> _ = Ok _ |- _ =>
             let a := fresh "a" in
             let Ha := fresh "Ha" in
             apply fmap_Ok in H as (a & Ha & H)
         | H : (match ?p with pair _ _ => _ end) = Ok _ |- _ => destruct p
         | H : mret _ = Ok _ |- _ => injection H as H
         | H : Ok _ = Ok _ |- _ => injection H as H
         | H : Throw _ = Ok _ |- _ => discriminate H
         end.

(** Runs the steps of the exception monad that are known to succeed. *)
Ltac mred := cbn [mbind mret fmap result_bind result_ret result_fmap negb].

Section Structured.

Context `{Host}.

Lemma get_opt_Ok (v : value) (k : string) :
  k <> "length" -> get_opt v k = Ok (prop v k).
Proof.
  intros Hk.
  destruct v; first [reflexivity | unfold get_opt; apply get_defined; congruence].
Qed.

Lemma append_empty (s : string) : s +:+ "" = s.
Proof.
  induction s as [|a s IH]; [reflexivity |].
  change (String a (s +:+ "") = String a s). by rewrite IH.
Qed.

Lemma append_not_empty (s t : string) : t <> "" -> s +:+ t <> "".
Proof. destruct s; [auto | discriminate]. Qed.

Lemma truthy_VStr (s : string) : s <> "" -> truthy (VStr s) = true.
Proof. intros Hs. simpl. by apply String.eqb_neq in Hs as ->. Qed.

(** What a successful run of [normalize] went through. *)
Lemma normalize_Ok (doc : value) (r : ParseResult.t) :
  OpenApiParser.normalize doc = Ok r ->
  exists baseUrl auth warnings endpoints tags paginationHints title description version,
    let isSwagger2 := truthy (prop doc "swagger") in
    doc <> VUndefined /\ doc <> VNull /\
    OpenApiParser.extractBaseUrl doc isSwagger2 = Ok baseUrl /\
    OpenApiParser.extractAuth doc isSwagger2 [] = Ok (auth, warnings) /\
    OpenApiParser.extractEndpoints doc isSwagger2 warnings = Ok endpoints /\
    OpenApiParser.buildTagGroups doc endpoints = Ok tags /\
    OpenApiParser.detectPagination endpoints = Ok paginationHints /\
    r = ParseResult.mk
          (ApiSpec.mk title description version
             (or_else baseUrl (VStr "https://api.example.com"))
             auth endpoints tags paginationHints
             (OpenApiParser.detectRateLimits endpoints) ApiSpec.openapi)
          warnings
          (if negb (truthy baseUrl)
           then ["TODO: Base URL could not be determined — please set it manually."]
           else []).
Proof.
  unfold OpenApiParser.normalize. intros Hn. steps.
  pose proof (get_receiver _ _ _ Ha) as [Hu Hnull].
  apply get_Ok in Ha; [subst a | discriminate].
  subst r. eexists _, _, _, _, _, _, _, _, _.
  repeat split; eassumption.
Qed.

Lemma parse_Ok (input : string) (doc : value) (r : ParseResult.t) :
  OpenApiParser.decode input = Ok doc ->
  OpenApiParser.parseOpenApiSpec input = Ok r ->
  OpenApiParser.normalize doc = Ok r.
Proof. unfold OpenApiParser.parseOpenApiSpec. by intros ->. Qed.


(** C2: the round-trip scenario.  Whenever [JSON.parse] reads the scenario's
    text as the scenario's document, [parseOpenApiSpec] returns a spec with
    title T, base URL https://x.io and exactly one endpoint, which has id
    getA, method GET, path /a and no parameters, with no todos. *)
Theorem round_trip_scenario :
  JSON_parse c2_input = Some c2_doc ->
  exists r e,
    OpenApiParser.parseOpenApiSpec c2_input = Ok r /\
    ApiSpec.title (ParseResult.spec r) = VStr "T" /\
    ApiSpec.baseUrl (ParseResult.spec r) = VStr "https://x.io" /\
    ApiSpec.endpoints (ParseResult.spec r) = [e] /\
    Endpoint.id e = VStr "getA" /\
    Endpoint.method e = "GET" /\
    Endpoint.path e = "/a" /\
    Endpoint.parameters e = [] /\
    ParseResult.todos r = [].
Proof.
  intros Hjson.
  unfold OpenApiParser.parseOpenApiSpec, OpenApiParser.decode.
  rewrite Hjson. simpl mbind.
  eexists _, _. split; [vm_compute; reflexivity |].
  repeat split.
Qed.



(** C9: for every OpenAPI-3 operation whose request body declares media
    types, one or several, the schema and the example of the returned body
    are those of the [application/json] entry when there is one, and those
    of the first entry otherwise, while its content type is always the
    first key of [content], whichever media type that is and whichever
    entry the schema was taken from. *)
Theorem request_body_content_type
    (op rb c0 : value) (k0 : string) (others : list (string * value)) :
  get op "requestBody" = Ok rb ->
  get rb "content" = Ok (VObj ((k0, c0) :: others)) ->
  let json := prop (VObj ((k0, c0) :: others)) "application/json" in
  let chosen := if truthy json then json else c0 in
  OpenApiParser.extractRequestBody op false =
  if negb (truthy chosen) then mret None else
  fields ← OpenApiParser.flattenSchema (prop chosen "schema");
  mret (Some (RequestBody.mk (truthy (prop rb "required")) (VStr k0) fields
                (if truthy (prop chosen "example") then prop chosen "example"
                 else prop (prop chosen "schema") "example"))).
Proof.
  intros Hrb Hcontent json chosen.
  pose proof (get_receiver _ _ _ Hcontent) as [Hu Hn].
  assert (Hrbt : truthy rb = true).
  { destruct rb as [| |[]|x|s| |]; try reflexivity; try congruence; simpl in Hcontent.
    - discriminate.
    - destruct (PrimFloat.eqb x 0 || negb (PrimFloat.eqb x x)); discriminate.
    - destruct s; [discriminate | reflexivity]. }
  assert (Hpick : OpenApiParser.pick_content (VObj ((k0, c0) :: others)) = Ok chosen).
  { unfold OpenApiParser.pick_content.
    rewrite (get_defined (VObj _) "application/json") by discriminate. fold json. mred.
    subst chosen. destruct (truthy json); [reflexivity |].
    change (Object_keys (VObj ((k0, c0) :: others))) with (Ok (k0 :: map fst others)). mred.
    cbn [first_key ToString ToString_primitive]. mred.
    cbn [get own_entries assoc]. by rewrite String.eqb_refl. }
  unfold OpenApiParser.extractRequestBody.
  rewrite Hrb. mred. rewrite Hrbt. mred. rewrite Hcontent. mred.
  rewrite Hpick. mred.
  destruct (truthy chosen) eqn:Hchosen; mred; [| reflexivity].
  assert (Hcu : chosen <> VUndefined /\ chosen <> VNull).
  { split; intros Heq; rewrite Heq in Hchosen; discriminate. }
  rewrite (get_defined chosen "schema") by (tauto || discriminate). mred.
  rewrite (get_defined rb "required") by (tauto || discriminate). mred.
  change (Object_keys (VObj ((k0, c0) :: others))) with (Ok (k0 :: map fst others)). mred.
  destruct (OpenApiParser.flattenSchema (prop chosen "schema")) as [fields|e]; [|reflexivity].
  mred.
  rewrite (get_defined chosen "example") by (tauto || discriminate). mred.
  destruct (truthy (prop chosen "example")); mred; [reflexivity |].
  rewrite get_opt_Ok by discriminate. reflexivity.
Qed.

Lemma mapM_Ok {A B : Type} (f : A -> result B) (l : list A) (l' : list B) :
  mapM f l = Ok l' -> Forall2 (fun a b => f a = Ok b) l l'.
Proof.
  revert l'. induction l as [|a l IH]; intros l' Hm; simpl in Hm.
  - injection Hm as <-. constructor.
  - steps. subst l'. constructor; auto.
Qed.

Lemma Object_entries_Ok (v : value) (l : list (string * value)) :
  Object_entries v = Ok l -> l = own_entries v.
Proof. unfold Object_entries. destruct v; congruence. Qed.

Lemma extractResponses_Ok (op : value) (sw : bool) (ws : list string)
    (rs : list ResponseDef.t) :
  OpenApiParser.extractResponses op sw ws = Ok rs ->
  map ResponseDef.statusCode rs = response_codes op.
Proof.
  unfold OpenApiParser.extractResponses, response_codes. intros Hr.
  apply bind_Ok in Hr as (resps & Hresps & Hr).
  apply bind_Ok in Hr as (entries & Hentries & Hr).
  apply get_Ok in Hresps; [subst resps | discriminate].
  apply Object_entries_Ok in Hentries. subst entries.
  apply mapM_Ok in Hr.
  induction Hr as [|[code resp] rd l l' Hx _ IH]; [reflexivity |].
  cbn. f_equal; [| exact IH].
  steps. by subst rd.
Qed.

(** What a successful run of the loop body made of one operation. *)
Lemma extractOperation_Ok (doc : value) (sw : bool) (ws : list string)
    (path : string) (pathItem : value) (method : string) (o : option Endpoint.t) :
  In method OpenApiParser.methods ->
  OpenApiParser.extractOperation doc sw ws path pathItem method = Ok o ->
  let op := prop pathItem (toLowerCase method) in
  if truthy op
  then exists e, o = Some e /\ Endpoint.path e = path /\ Endpoint.method e = method /\
                 map ResponseDef.statusCode (Endpoint.responses e) = response_codes op
  else o = None.
Proof.
  intros Hm Ho. unfold OpenApiParser.extractOperation in Ho.
  apply bind_Ok in Ho as (op & Hop & Ho).
  apply get_Ok in Hop.
  2:{ simpl in Hm. intuition subst; discriminate. }
  subst op. cbv zeta.
  destruct (truthy (prop pathItem (toLowerCase method))) eqn:Ht; cbn [negb] in Ho.
  2:{ by injection Ho as <-. }
  steps. subst o. eexists. split; [reflexivity |]. cbn.
  repeat split.
  match goal with
  | Hr : OpenApiParser.extractResponses _ _ _ = Ok _ |- _ =>
      exact (extractResponses_Ok _ _ _ _ Hr)
  end.
Qed.

Lemma extractOperations_Ok (doc : value) (sw : bool) (ws : list string)
    (path : string) (pathItem : value) (ms : list string) (os : list (option Endpoint.t)) :
  (forall m, In m ms -> In m OpenApiParser.methods) ->
  Forall2 (fun m o => OpenApiParser.extractOperation doc sw ws path pathItem m = Ok o) ms os ->
  Forall2 (fun e '(path, method, op) =>
             Endpoint.path e = path /\ Endpoint.method e = method /\
             map ResponseDef.statusCode (Endpoint.responses e) = response_codes op)
    (omap id os)
    (omap (fun method =>
             let op := prop pathItem (toLowerCase method) in
             if truthy op then Some (path, method, op) else None) ms).
Proof.
  intros Hin Hf. induction Hf as [|m o ms os Hm _ IH]; [constructor |].
  apply extractOperation_Ok in Hm; [| apply Hin; by left].
  cbn [omap list_omap]. cbv zeta in Hm |- *.
  destruct (truthy (prop pathItem (toLowerCase m))).
  - destruct Hm as (e & -> & Hp & Hmeth & Hcodes). cbn.
    constructor; [auto | apply IH; intros; apply Hin; by right].
  - subst o. cbn. apply IH. intros; apply Hin; by right.
Qed.

Lemma extractEndpoints_Ok (doc : value) (sw : bool) (ws : list string)
    (eps : list Endpoint.t) :
  OpenApiParser.extractEndpoints doc sw ws = Ok eps ->
  Forall2 (fun e '(path, method, op) =>
             Endpoint.path e = path /\ Endpoint.method e = method /\
             map ResponseDef.statusCode (Endpoint.responses e) = response_codes op)
    eps (operations doc).
Proof.
  unfold OpenApiParser.extractEndpoints, operations. intros He.
  apply bind_Ok in He as (ps & Hps & He).
  apply bind_Ok in He as (entries & Hentries & He).
  apply bind_Ok in He as (perPath & HperPath & He).
  injection He as <-.
  apply get_Ok in Hps; [subst ps | discriminate].
  apply Object_entries_Ok in Hentries. subst entries.
  apply mapM_Ok in HperPath.
  induction HperPath as [|[path pathItem] os l l' Hx _ IH]; [constructor |].
  cbn [concat flat_map]. apply Forall2_app; [| exact IH].
  apply fmap_Ok in Hx as (os' & Hos & ->). apply mapM_Ok in Hos.
  apply extractOperations_Ok with (doc := doc) (sw := sw) (ws := ws); auto.
Qed.



(** *** The exceptions of the structured normalizer *)

Lemma tame_Ok {A : Type} (a : A) : tame (Ok a).
Proof. intros e. discriminate. Qed.

Lemma tame_TypeError {A : Type} : tame (@Throw A TypeError).
Proof. intros e [= <-]. by left. Qed.

Lemma tame_RangeError {A : Type} : tame (@Throw A RangeError).
Proof. intros e [= <-]. by right. Qed.

Lemma tame_bind {A B : Type} (m : result A) (f : A -> result B) :
  tame m -> (forall a, m = Ok a -> tame (f a)) -> tame (m ≫= f).
Proof.
  intros Hm Hf e. destruct m as [a|e']; cbn.
  - by apply Hf.
  - intros [= <-]. by apply Hm.
Qed.

Lemma tame_fmap {A B : Type} (m : result A) (f : A -> B) : tame m -> tame (f <$> m).
Proof. intros Hm e. destruct m as [a|e']; cbn; [discriminate | intros [= <-]; by apply Hm]. Qed.

Lemma tame_mapM {A B : Type} (f : A -> result B) (l : list A) :
  (forall a, In a l -> tame (f a)) -> tame (mapM f l).
Proof.
  induction l as [|a l IH]; intros Hf; cbn [mapM].
  - apply tame_Ok.
  - apply tame_bind; [apply Hf; by left |]. intros b _.
    apply tame_bind; [apply IH; intros; apply Hf; by right |]. intros bs _. apply tame_Ok.
Qed.

Lemma tame_get (v : value) (k : string) : tame (get v k).
Proof.
  destruct v; cbn; try apply tame_Ok; try apply tame_TypeError;
    destruct (String.eqb k "length"); apply tame_Ok.
Qed.

Lemma tame_get_opt (v : value) (k : string) : tame (get_opt v k).
Proof. destruct v; cbn [get_opt]; try apply tame_Ok; apply tame_get. Qed.

Lemma tame_Object_entries (v : value) : tame (Object_entries v).
Proof. destruct v; cbn; try apply tame_Ok; apply tame_TypeError. Qed.

Lemma tame_Object_keys (v : value) : tame (Object_keys v).
Proof. apply tame_fmap, tame_Object_entries. Qed.

Lemma tame_Object_values (v : value) : tame (Object_values v).
Proof. apply tame_fmap, tame_Object_entries. Qed.

Lemma tame_iterate (v : value) : tame (iterate v).
Proof. destruct v; cbn; try apply tame_Ok; apply tame_TypeError. Qed.

Lemma tame_as_array (v : value) : tame (as_array v).
Proof. destruct v; cbn; try apply tame_Ok; apply tame_TypeError. Qed.

Lemma tame_call_toLowerCase (v : value) : tame (call_toLowerCase v).
Proof. destruct v; cbn; try apply tame_Ok; apply tame_TypeError. Qed.

Lemma tame_call_includes (v : value) (name : string) : tame (call_includes v name).
Proof. destruct v; cbn; try apply tame_Ok; apply tame_TypeError. Qed.

Lemma tame_ToString_primitive (v : value) : tame (ToString_primitive v).
Proof. destruct v as [| |[]| | | |]; cbn; try apply tame_Ok; apply tame_TypeError. Qed.

Lemma tame_ToString (v : value) : tame (ToString v).
Proof.
  destruct v; cbn [ToString]; try apply tame_ToString_primitive;
    destruct (ToPrimitive _); try apply tame_ToString_primitive; apply tame_TypeError.
Qed.

Lemma tame_gt_zero (v : value) : tame (gt_zero v).
Proof.
  unfold gt_zero. apply tame_bind; [| intros; apply tame_Ok].
  assert (Hp : forall p, tame (ToNumber_primitive p)).
  { intros p. destruct p; cbn; try apply tame_Ok; apply tame_TypeError. }
  destruct v; cbn [ToNumber]; try apply Hp; destruct (ToPrimitive _); try apply Hp;
    apply tame_TypeError.
Qed.

(** Splits a goal [tame m] along the steps of [m]. *)
Ltac tame_step :=
  match goal with
  | |- tame (Ok _) => apply tame_Ok
  | |- tame (mret _) => apply tame_Ok
  | |- tame (Throw TypeError) => apply tame_TypeError
  | |- tame (get _ _) => apply tame_get
  | |- tame (get_opt _ _) => apply tame_get_opt
  | |- tame (Object_entries _) => apply tame_Object_entries
  | |- tame (Object_keys _) => apply tame_Object_keys
  | |- tame (Object_values _) => apply tame_Object_values
  | |- tame (iterate _) => apply tame_iterate
  | |- tame (as_array _) => apply tame_as_array
  | |- tame (call_toLowerCase _) => apply tame_call_toLowerCase
  | |- tame (call_includes _ _) => apply tame_call_includes
  | |- tame (ToString _) => apply tame_ToString
  | |- tame (gt_zero _) => apply tame_gt_zero
  | |- tame (_ <$> _) => apply tame_fmap
  | |- tame (_ ≫= _) => apply tame_bind; [| intros ? ?]
  | |- tame (if ?b then _ else _) => destruct b
  | |- tame (match ?x with pair _ _ => _ end) => destruct x
  | |- tame (match ?x with nil => _ | cons _ _ => _ end) => destruct x
  | H : tame ?m |- tame ?m => exact H
  end.

Ltac tame_auto := repeat tame_step.

Lemma tame_extractBaseUrl (doc : value) (sw : bool) :
  tame (OpenApiParser.extractBaseUrl doc sw).
Proof. unfold OpenApiParser.extractBaseUrl. tame_auto. Qed.

Lemma tame_extractAuth (doc : value) (sw : bool) (ws : list string) :
  tame (OpenApiParser.extractAuth doc sw ws).
Proof. unfold OpenApiParser.extractAuth. tame_auto. Qed.

Lemma tame_flattenSchema_fuel (fuel : nat) (schema : value) :
  tame (OpenApiParser.flattenSchema_fuel fuel schema).
Proof.
  revert schema. induction fuel as [|fuel IH]; intros schema; [apply tame_RangeError |].
  cbn [OpenApiParser.flattenSchema_fuel]. tame_auto.
  - apply tame_mapM. intros [name prop'] _. tame_auto; apply IH.
  - apply IH.
Qed.

Lemma tame_flattenSchema (schema : value) : tame (OpenApiParser.flattenSchema schema).
Proof. apply tame_flattenSchema_fuel. Qed.

Lemma tame_resolveParamType (p : value) : tame (OpenApiParser.resolveParamType p).
Proof. unfold OpenApiParser.resolveParamType. tame_auto. Qed.

Lemma tame_String_if_defined (v : value) : tame (OpenApiParser.String_if_defined v).
Proof. unfold OpenApiParser.String_if_defined. tame_auto. Qed.

Lemma tame_extractParameters (op pathItem : value) (sw : bool) :
  tame (OpenApiParser.extractParameters op pathItem sw).
Proof.
  unfold OpenApiParser.extractParameters. tame_auto.
  apply tame_mapM. intros p _. tame_auto;
    first [apply tame_resolveParamType | apply tame_String_if_defined].
Qed.

Lemma tame_filter_body (ps : list value) : tame (OpenApiParser.filter_body ps).
Proof. induction ps; cbn [OpenApiParser.filter_body]; tame_auto. Qed.

Lemma tame_pick_content (content : value) : tame (OpenApiParser.pick_content content).
Proof. unfold OpenApiParser.pick_content. tame_auto. Qed.

Lemma tame_extractRequestBody (op : value) (sw : bool) :
  tame (OpenApiParser.extractRequestBody op sw).
Proof.
  unfold OpenApiParser.extractRequestBody. tame_auto;
    first [apply tame_filter_body | apply tame_flattenSchema | apply tame_pick_content].
Qed.

Lemma tame_extractResponses (op : value) (sw : bool) (ws : list string) :
  tame (OpenApiParser.extractResponses op sw ws).
Proof.
  unfold OpenApiParser.extractResponses. tame_auto.
  apply tame_mapM. intros [code resp] _. tame_auto;
    first [apply tame_flattenSchema | apply tame_pick_content].
Qed.

Lemma tame_extractOperation (doc : value) (sw : bool) (ws : list string)
    (path : string) (pathItem : value) (method : string) :
  tame (OpenApiParser.extractOperation doc sw ws path pathItem method).
Proof.
  unfold OpenApiParser.extractOperation. tame_auto;
    first [apply tame_extractParameters | apply tame_extractRequestBody
          | apply tame_extractResponses].
Qed.

Lemma tame_extractEndpoints (doc : value) (sw : bool) (ws : list string) :
  tame (OpenApiParser.extractEndpoints doc sw ws).
Proof.
  unfold OpenApiParser.extractEndpoints. tame_auto.
  apply tame_mapM. intros [path pathItem] _. tame_auto.
  apply tame_mapM. intros m _. apply tame_extractOperation.
Qed.

Lemma tame_declare_tags (tagDefs : list value) (m : list TagGroup.t) :
  tame (OpenApiParser.declare_tags tagDefs m).
Proof.
  revert m. induction tagDefs; intros m; cbn [OpenApiParser.declare_tags]; tame_auto.
  apply IHtagDefs.
Qed.

Lemma tame_buildTagGroups (doc : value) (eps : list Endpoint.t) :
  tame (OpenApiParser.buildTagGroups doc eps).
Proof. unfold OpenApiParser.buildTagGroups. tame_auto. apply tame_declare_tags. Qed.

Lemma tame_paginate_params (ps : list Param.t) (st : list PaginationHint.t * gset string) :
  tame (OpenApiParser.paginate_params ps st).
Proof.
  revert st. induction ps; intros st; cbn [OpenApiParser.paginate_params]; tame_auto;
    apply IHps.
Qed.

Lemma tame_paginate_endpoints (eps : list Endpoint.t)
    (st : list PaginationHint.t * gset string) :
  tame (OpenApiParser.paginate_endpoints eps st).
Proof.
  revert st. induction eps; intros st; cbn [OpenApiParser.paginate_endpoints]; tame_auto;
    first [apply tame_paginate_params | apply IHeps].
Qed.

Lemma tame_normalize (doc : value) : tame (OpenApiParser.normalize doc).
Proof.
  unfold OpenApiParser.normalize, OpenApiParser.detectPagination. tame_auto;
    first [apply tame_extractBaseUrl | apply tame_extractAuth | apply tame_extractEndpoints
          | apply tame_buildTagGroups | apply tame_paginate_endpoints].
Qed.

Lemma decode_spec (input : string) :
  OpenApiParser.decode input = Throw OpenApiParser.parse_error /\
    JSON_parse input = None /\ yaml_load input = None
  \/ exists doc, OpenApiParser.decode input = Ok doc /\
       (JSON_parse input = Some doc \/ JSON_parse input = None /\ yaml_load input = Some doc).
Proof.
  unfold OpenApiParser.decode.
  destruct (JSON_parse input) as [doc|]; [right; eauto |].
  destruct (yaml_load input) as [doc|]; [right; eauto | left; auto].
Qed.

(** The hard failure of the structured normalizer: the error with the
    message of [parse_error] is raised exactly when both decoders fail; once
    a decoder has returned a document, the normalizer does what [normalize]
    does with it, and no exception but a TypeError or, when the stack
    overflows, a RangeError comes out of that. *)
Lemma structured_failures (input : string) :
  (OpenApiParser.parseOpenApiSpec input = Throw OpenApiParser.parse_error <->
   JSON_parse input = None /\ yaml_load input = None) /\
  (forall doc, OpenApiParser.decode input = Ok doc ->
     OpenApiParser.parseOpenApiSpec input = OpenApiParser.normalize doc /\
     forall e, OpenApiParser.normalize doc = Throw e -> e = TypeError \/ e = RangeError).
Proof.
  unfold OpenApiParser.parseOpenApiSpec.
  destruct (decode_spec input) as [(Hd & Hj & Hy) | (doc & Hd & Hj)]; rewrite Hd; cbn.
  - split; [tauto | discriminate].
  - split.
    + split.
      * intros Hn. apply tame_normalize in Hn. by destruct Hn.
      * intros [Hj' Hy']. destruct Hj as [Hj | [_ Hy]]; congruence.
    + intros doc' [= <-]. split; [reflexivity | apply tame_normalize].
Qed.

(** The call stack does overflow: the recursion over a schema that nests
    deeper than the stack has room ends in a RangeError, and so does the
    normalizer on a document with such a schema, on every host. *)
Lemma flattenSchema_fuel_overflow (n : nat) :
  forall m, n <= m ->
    OpenApiParser.flattenSchema_fuel n (nested_arrays m) = Throw RangeError.
Proof.
  induction n as [|n IH]; intros m Hm; [reflexivity |].
  destruct m as [|m]; [lia |].
  cbn [OpenApiParser.flattenSchema_fuel nested_arrays].
  cbn -[OpenApiParser.flattenSchema_fuel nested_arrays].
  rewrite IH by lia. reflexivity.
Qed.

Lemma deep_document_overflows :
  OpenApiParser.normalize (deep_document (S stack_room)) = Throw RangeError.
Proof.
  assert (Hf : OpenApiParser.flattenSchema (nested_arrays (S stack_room)) = Throw RangeError).
  { apply flattenSchema_fuel_overflow. lia. }
  unfold OpenApiParser.normalize, deep_document. cbn [nested_arrays] in *.
  cbv -[OpenApiParser.flattenSchema nested_arrays stack_room].
  rewrite Hf. reflexivity.
Qed.

End Structured.

(** ** The matcher *)

Section Matcher.

Import Regex.

Lemma span_of_app_l (n : nat) (g1 g2 : list (nat * (nat * nat))) :
  is_Some (span_of n g1) -> is_Some (span_of n (g1 ++ g2)).
Proof.
  induction g1 as [|[m sp] g1 IH]; cbn; [intros [? [=]] |].
  destruct (n =? m)%nat; eauto.
Qed.

Lemma span_of_app_r (n : nat) (g1 g2 : list (nat * (nat * nat))) :
  is_Some (span_of n g2) -> is_Some (span_of n (g1 ++ g2)).
Proof.
  intros H2. induction g1 as [|[m sp] g1 IH]; cbn; [done |].
  destruct (n =? m)%nat; eauto.
Qed.

Lemma star_sound (class : ascii -> bool) (k : cursor -> option cursor) (res : cursor)
    (g : list (nat * (nat * nat))) (l : list ascii) :
  forall b p,
    star class l b p g k = Some res ->
    exists w l' b', l = w ++ l' /\ forallb class w = true /\
                    k (Cursor b' l' (p + length w) g) = Some res.
Proof.
  induction l as [|x l IH]; intros b p; cbn [star].
  - intros Hk. exists [], [], b. cbn. by rewrite Nat.add_0_r.
  - destruct (class x) eqn:Hx.
    + destruct (star class l (Some x) (S p) g k) as [c|] eqn:Hs.
      * intros [= <-]. apply IH in Hs as (w & l' & b' & -> & Hw & Hk).
        exists (x :: w), l', b'. cbn. rewrite Hx, Hw.
        repeat split. rewrite <- Hk. do 2 f_equal. lia.
      * intros Hk. exists [], (x :: l), b. cbn. by rewrite Nat.add_0_r.
    + intros Hk. exists [], (x :: l), b. cbn. by rewrite Nat.add_0_r.
Qed.

(** Soundness of [run]: a successful run consumed a text of the language
    of the pattern, recorded the groups that take part in every match, and
    went on with the continuation. *)
Lemma run_sound (r : Regex.t) :
  forall c k res,
    run r c k = Some res ->
    exists w c',
      lang r w /\ rest c = w ++ rest c' /\ pos c' = pos c + length w /\
      (exists g', groups c' = g' ++ groups c /\
                  forall n, sets n r = true -> is_Some (span_of n g')) /\
      k c' = Some res.
Proof.
  assert (Hstay : forall c (k : cursor -> option cursor) res r0,
             lang r0 [] -> (forall n, sets n r0 = false) -> k c = Some res ->
             exists w c', lang r0 w /\ rest c = w ++ rest c' /\ pos c' = pos c + length w /\
               (exists g', groups c' = g' ++ groups c /\
                           forall n, sets n r0 = true -> is_Some (span_of n g')) /\
               k c' = Some res).
  { intros c k res r0 Hl Hs Hk. exists [], c. cbn. rewrite Nat.add_0_r.
    repeat split; try done. exists []. split; [done |]. intros n. by rewrite Hs. }
  induction r as [|class|r1 IH1 r2 IH2|r1 IH1 r2 IH2|class|r1 IH1|m r1 IH1| | | |];
    intros c k res Hrun; cbn [run] in Hrun.
  - by apply Hstay.
  - destruct (rest c) as [|x l] eqn:Hrest; [discriminate |].
    destruct (class x) eqn:Hx; [| discriminate].
    exists [x], (Cursor (Some x) l (S (pos c)) (groups c)). cbn.
    repeat split; eauto; try lia.
    exists []. split; [done |]. intros n [=].
  - apply IH1 in Hrun as (w1 & c1 & Hl1 & Hr1 & Hp1 & (g1 & Hg1 & Hs1) & Hrun).
    apply IH2 in Hrun as (w2 & c2 & Hl2 & Hr2 & Hp2 & (g2 & Hg2 & Hs2) & Hk).
    exists (w1 ++ w2), c2. cbn [lang]. repeat split.
    + eauto.
    + by rewrite Hr1, Hr2, app_assoc.
    + rewrite Hp2, Hp1, length_app. lia.
    + exists (g2 ++ g1). split; [by rewrite Hg2, Hg1, app_assoc |].
      intros n Hn. cbn in Hn. apply orb_true_iff in Hn as [Hn | Hn].
      * by apply span_of_app_r, Hs1.
      * by apply span_of_app_l, Hs2.
    + exact Hk.
  - destruct (run r1 c k) as [c'|] eqn:H1.
    + injection Hrun as <-.
      apply IH1 in H1 as (w & c1 & Hl & Hr & Hp & (g1 & Hg & Hs) & Hk).
      exists w, c1. cbn [lang]. repeat split; eauto.
      exists g1. split; [done |]. intros n Hn. cbn in Hn.
      apply andb_true_iff in Hn as [Hn _]. eauto.
    + apply IH2 in Hrun as (w & c1 & Hl & Hr & Hp & (g1 & Hg & Hs) & Hk).
      exists w, c1. cbn [lang]. repeat split; eauto.
      exists g1. split; [done |]. intros n Hn. cbn in Hn.
      apply andb_true_iff in Hn as [_ Hn]. eauto.
  - apply star_sound in Hrun as (w & l' & b' & Hl & Hw & Hk).
    exists w, (Cursor b' l' (pos c + length w) (groups c)). cbn.
    repeat split; eauto. exists []. split; [done |]. intros n [=].
  - destruct (run r1 c k) as [c'|] eqn:H1.
    + injection Hrun as <-.
      apply IH1 in H1 as (w & c1 & Hl & Hr & Hp & (g1 & Hg & Hs) & Hk).
      exists w, c1. cbn [lang]. repeat split; eauto.
      exists g1. split; [done |]. intros n [=].
    + apply Hstay; [by left | done | done].
  - apply IH1 in Hrun as (w & c1 & Hl & Hr & Hp & (g1 & Hg & Hs) & Hk).
    exists w, (set_group m (pos c, pos c1) c1). cbn. repeat split; eauto.
    exists ((m, (pos c, pos c1)) :: g1). split; [by rewrite Hg |].
    intros n Hn. cbn. destruct (n =? m)%nat; [eauto | apply Hs, Hn].
  - apply Hstay; [done | done |]. by destruct (xorb _ _).
  - apply Hstay; [done | done |].
    destruct (before c) as [x|]; [by destruct (line_terminator x) | done].
  - apply Hstay; [done | done |].
    destruct (rest c) as [|x l]; [done | by destruct (line_terminator x)].
  - apply Hstay; [done | done |]. by destruct (rest c).
Qed.

Lemma lang_min_len (r : Regex.t) (w : list ascii) : lang r w -> min_len r <= length w.
Proof.
  revert w. induction r; intros w Hl; cbn in *; try lia.
  - destruct Hl as (x & -> & _). cbn. lia.
  - destruct Hl as (w1 & w2 & -> & H1 & H2). rewrite length_app.
    apply IHr1 in H1. apply IHr2 in H2. lia.
  - destruct Hl as [H1 | H2]; [apply IHr1 in H1 | apply IHr2 in H2]; lia.
  - auto.
Qed.

(** A match found by [search]: the text splits into what was skipped, the
    match and the rest. *)
Lemma search_sound (r : Regex.t) (l : list ascii) :
  forall b p m,
    search r b l p = Some m ->
    exists skipped w l',
      l = skipped ++ w ++ l' /\ index m = p + length skipped /\
      stop m = index m + length w /\ lang r w /\
      forall n, sets n r = true -> is_Some (span_of n (captures m)).
Proof.
  induction l as [|x l IH]; intros b p m; cbn [search].
  - destruct (run r _ Some) as [c|] eqn:Hrun; [| discriminate].
    intros [= <-]. apply run_sound in Hrun as (w & c' & Hl & Hr & Hp & (g' & Hg & Hs) & [= <-]).
    cbn in *. exists [], w, (rest c'). cbn. rewrite Nat.add_0_r.
    repeat split; eauto. intros n Hn. rewrite Hg, app_nil_r. eauto.
  - destruct (run r _ Some) as [c|] eqn:Hrun.
    + intros [= <-]. apply run_sound in Hrun as (w & c' & Hl & Hr & Hp & (g' & Hg & Hs) & [= <-]).
      cbn in *. exists [], w, (rest c'). cbn. rewrite Nat.add_0_r.
      repeat split; eauto. intros n Hn. rewrite Hg, app_nil_r. eauto.
    + intros Hs. apply IH in Hs as (skipped & w & l' & -> & Hi & Hst & Hl & Hg).
      exists (x :: skipped), w, l'. cbn. repeat split; eauto. lia.
Qed.

Lemma seek_Some (i : nat) :
  forall b l p b' l' p',
    seek i b l p = Some (b', l', p') -> l' = skipn i l /\ p' = p + i /\ i <= length l.
Proof.
  induction i as [|i IH]; intros b l p b' l' p'; cbn [seek].
  - intros [= <- <- <-]. cbn. repeat split; lia.
  - destruct l as [|x l]; [discriminate |]. intros Hs.
    apply IH in Hs as (-> & -> & Hle). cbn. repeat split; lia.
Qed.

Lemma seek_zero (l : list ascii) : seek 0 None l 0 = Some (None, l, 0).
Proof. reflexivity. Qed.

Lemma str_app (a b : list ascii) : str (a ++ b) = str a +:+ str b.
Proof.
  induction a as [|x a IH]; [reflexivity |].
  change (String x (str (a ++ b)) = String x (str a +:+ str b)). by rewrite IH.
Qed.

Lemma chars_str (l : list ascii) : chars (str l) = l.
Proof. apply list_ascii_of_string_of_list_ascii. Qed.

Lemma str_chars (s : string) : str (chars s) = s.
Proof. apply string_of_list_ascii_of_string. Qed.

Lemma length_chars (s : string) : length (chars s) = String.length s.
Proof. induction s as [|x s IH]; cbn; [reflexivity | by rewrite <- IH]. Qed.

Lemma slice_middle (text : string) (pre w post : list ascii) :
  chars text = pre ++ w ++ post ->
  slice text (length pre) (length pre + length w) = str w.
Proof.
  intros Ht. unfold slice. rewrite Ht, drop_app_length.
  replace (length pre + length w - length pre) with (length w) by lia.
  by rewrite take_app_length.
Qed.

(** A match found by [exec]. *)
Lemma exec_sound (r : Regex.t) (text : string) (i : nat) (m : Match) :
  exec r text i = Some m ->
  exists pre w post,
    chars text = pre ++ w ++ post /\ i <= length pre /\
    index m = length pre /\ stop m = length pre + length w /\ lang r w /\
    forall n, sets n r = true -> is_Some (span_of n (captures m)).
Proof.
  unfold exec. destruct (seek i None (chars text) 0) as [[[b l] p]|] eqn:Hseek; [| discriminate].
  apply seek_Some in Hseek as (-> & -> & Hle). intros Hs.
  apply search_sound in Hs as (skipped & w & l' & Hl & Hi & Hst & Hlang & Hg).
  exists (firstn i (chars text) ++ skipped), w, l'.
  rewrite <- app_assoc, <- Hl, firstn_skipn, length_app, firstn_length_le by lia.
  repeat split; eauto; lia.
Qed.

Lemma star_complete (class : ascii -> bool) (k : cursor -> option cursor)
    (l' : list ascii) (w : list ascii) :
  forallb class w = true ->
  forall b p g,
    (forall b' g', is_Some (k (Cursor b' l' (p + length w) g'))) ->
    is_Some (star class (w ++ l') b p g k).
Proof.
  induction w as [|x w IH]; intros Hw b p g Hk.
  - cbn in Hk. rewrite Nat.add_0_r in Hk. cbn [app].
    destruct l' as [|y l']; cbn [star]; [apply Hk |].
    destruct (class y); [| apply Hk].
    destruct (star class l' (Some y) (S p) g k); [eauto | apply Hk].
  - cbn in Hw. apply andb_true_iff in Hw as [Hx Hw]. cbn [app star]. rewrite Hx.
    destruct (star class (w ++ l') (Some x) (S p) g k) eqn:Hs; [eauto |].
    assert (Hnone : is_Some (star class (w ++ l') (Some x) (S p) g k)).
    { apply IH; [done |]. intros b' g'. cbn in Hk.
      replace (S p + length w) with (p + S (length w)) by lia. apply Hk. }
    rewrite Hs in Hnone. by destruct Hnone.
Qed.

(** Completeness of [run] for a pattern without assertions: when a text of
    the language stands at the cursor and the continuation accepts what
    follows it, the run succeeds. *)
Lemma run_complete (r : Regex.t) :
  pure r = true ->
  forall w, lang r w ->
  forall c l' (k : cursor -> option cursor),
    rest c = w ++ l' ->
    (forall b g, is_Some (k (Cursor b l' (pos c + length w) g))) ->
    is_Some (run r c k).
Proof.
  induction r as [|class|r1 IH1 r2 IH2|r1 IH1 r2 IH2|class|r1 IH1|m r1 IH1| | | |];
    intros Hp w Hl c l' k Hr Hk; cbn [run]; cbn in Hp, Hl; try discriminate.
  - subst w. cbn in *. rewrite Nat.add_0_r in Hk. destruct c as [b l p g]. cbn in *. subst l.
    apply Hk.
  - destruct Hl as (x & -> & Hx). cbn in Hr. rewrite Hr, Hx.
    replace (S (pos c)) with (pos c + length [x]) by (cbn; lia). apply Hk.
  - apply andb_true_iff in Hp as [Hp1 Hp2]. destruct Hl as (w1 & w2 & -> & Hl1 & Hl2).
    rewrite <- app_assoc in Hr.
    apply (IH1 Hp1 w1 Hl1 c (w2 ++ l')); [done |]. intros b g.
    apply (IH2 Hp2 w2 Hl2 _ l'); [done |]. intros b' g'. cbn.
    rewrite <- Nat.add_assoc, <- length_app. apply Hk.
  - apply andb_true_iff in Hp as [Hp1 Hp2].
    destruct (run r1 c k) eqn:H1; [eauto |].
    destruct Hl as [Hl | Hl].
    + pose proof (IH1 Hp1 w Hl c l' k Hr Hk) as Hs. rewrite H1 in Hs. by destruct Hs.
    + by apply (IH2 Hp2 w Hl c l').
  - rewrite Hr. by apply star_complete.
  - destruct (run r1 c k) eqn:H1; [eauto |].
    destruct Hl as [-> | Hl].
    + cbn in *. rewrite Nat.add_0_r in Hk. destruct c as [b l p g]. cbn in *. subst l.
      apply Hk.
    + pose proof (IH1 Hp w Hl c l' k Hr Hk) as Hs. rewrite H1 in Hs. by destruct Hs.
  - apply (IH1 Hp w Hl c l'); [done |]. intros b g. apply Hk.
Qed.

Lemma search_complete (r : Regex.t) (w l' : list ascii) (skipped : list ascii) :
  pure r = true -> lang r w ->
  forall b p, is_Some (search r b (skipped ++ w ++ l') p).
Proof.
  intros Hp Hl. induction skipped as [|x skipped IH]; intros b p.
  - cbn [app].
    assert (Hrun : is_Some (run r (Cursor b (w ++ l') p []) Some)).
    { by apply (run_complete r Hp w Hl _ l'). }
    destruct Hrun as [c Hrun].
    destruct (w ++ l'); cbn [search]; rewrite Hrun; eauto.
  - cbn [app search]. destruct (run r _ Some); [eauto | apply IH].
Qed.

(** For a pattern without assertions, [test] decides whether some part of
    the text is in the language of the pattern. *)
Lemma test_true (r : Regex.t) (text : string) :
  pure r = true ->
  test r text = true <-> exists pre w post, chars text = pre ++ w ++ post /\ lang r w.
Proof.
  intros Hp. unfold test. split.
  - destruct (exec r text 0) as [m|] eqn:He; [| discriminate]. intros _.
    apply exec_sound in He as (pre & w & post & Ht & _ & _ & _ & Hl & _). eauto.
  - intros (pre & w & post & Ht & Hl). unfold exec. rewrite seek_zero, Ht.
    destruct (search_complete r w post pre Hp Hl None 0) as [m ->]. reflexivity.
Qed.

(** *** Case folding *)

Lemma every_unit (P : ascii -> bool) :
  forallb P (map ascii_of_nat (List.seq 0 256)) = true -> forall c, P c = true.
Proof.
  intros Hall c. rewrite forallb_forall in Hall. apply Hall.
  rewrite <- (ascii_nat_embedding c). apply in_map, in_seq.
  pose proof (nat_ascii_bounded c). lia.
Qed.

(** Two units that the flag [i] identifies have the same lower case. *)
Lemma just_i_lower (x c : ascii) : just_i x c = true -> lower_unit c = lower_unit x.
Proof.
  revert c. revert x.
  assert (H : forall x c, implb (just_i x c) (Ascii.eqb (lower_unit c) (lower_unit x)) = true).
  { intros x c. revert c. apply every_unit. revert x.
    apply (every_unit (fun x => forallb (fun c =>
             implb (just_i x c) (Ascii.eqb (lower_unit c) (lower_unit x)))
             (map ascii_of_nat (List.seq 0 256)))).
    vm_compute. reflexivity. }
  intros x c Hj. specialize (H x c). rewrite Hj in H. by apply Ascii.eqb_eq.
Qed.

Lemma lang_liti (l w : list ascii) :
  lang (seq (map (fun x => Unit (just_i x)) l)) w -> map lower_unit w = map lower_unit l.
Proof.
  revert w. induction l as [|x l IH]; intros w; cbn.
  - by intros ->.
  - intros (w1 & w2 & -> & (c & -> & Hc) & Hl). cbn. f_equal; [by apply just_i_lower | by apply IH].
Qed.

Lemma lang_liti_lower (s : string) (w : list ascii) :
  lang (liti s) w -> toLowerCase (str w) = toLowerCase s.
Proof.
  intros Hl. unfold toLowerCase. rewrite chars_str. f_equal. by apply lang_liti.
Qed.

Lemma toLowerCase_app (a b : list ascii) :
  toLowerCase (str (a ++ b)) = toLowerCase (str a) +:+ toLowerCase (str b).
Proof. unfold toLowerCase. by rewrite !chars_str, map_app, str_app. Qed.

(** A match of a pattern that is one group spans that group. *)
Lemma search_group (n : nat) (r : Regex.t) (l : list ascii) :
  forall b p m,
    search (Group n r) b l p = Some m -> span_of n (captures m) = Some (index m, stop m).
Proof.
  assert (Hrun : forall c res,
             run (Group n r) c Some = Some res ->
             span_of n (groups res) = Some (pos c, pos res)).
  { intros c res Hr. cbn [run] in Hr.
    apply run_sound in Hr as (w & c' & _ & _ & _ & _ & [= <-]).
    cbn. by rewrite Nat.eqb_refl. }
  induction l as [|x l IH]; intros b p m; cbn [search].
  - destruct (run _ _ Some) as [c|] eqn:Hr; [| discriminate].
    intros [= <-]. cbn. by apply Hrun in Hr.
  - destruct (run _ _ Some) as [c|] eqn:Hr; [| apply IH].
    intros [= <-]. cbn. by apply Hrun in Hr.
Qed.

End Matcher.

(** ** The free-text normalizer *)

Section Text.

Context `{Host}.

Import Regex.

(** What a successful run of [parseTextDocs] went through. *)
Lemma parseTextDocs_Ok (input : string) (r : ParseResult.t) :
  TextParser.parseTextDocs input = Ok r ->
  exists endpoints,
    TextParser.extractEndpoints input = Ok endpoints /\
    ApiSpec.endpoints (ParseResult.spec r) = endpoints /\
    forall todos, ApiSpec.auth (ParseResult.spec r) = (TextParser.extractAuth input todos).1.
Proof.
  unfold TextParser.parseTextDocs. intros Hp.
  apply bind_Ok in Hp as (baseUrl & _ & Hp).
  assert (Hws : forall ws, (TextParser.extractAuth input ws).1 = (TextParser.extractAuth input []).1).
  { intros ws. unfold TextParser.extractAuth.
    repeat match goal with |- context [if ?b then _ else _] => destruct b end; reflexivity. }
  destruct (TextParser.extractAuth input []) as [auth warnings] eqn:Hauth.
  apply bind_Ok in Hp as (endpoints & Heps & Hp).
  destruct (length endpoints =? 0)%nat.
  - apply bind_Ok in Hp as (title & _ & [= <-]). exists endpoints. cbn.
    repeat split; [done |]. intros ws. by rewrite Hws.
  - apply bind_Ok in Hp as (title & _ & [= <-]). exists endpoints. cbn.
    repeat split; [done |]. intros ws. by rewrite Hws.
Qed.

(** *** Loops over matches *)

Lemma each_match_invariant {S : Type} (P : S -> Prop) (r : Regex.t) (text : string)
    (body : Match -> S -> result S) :
  (forall m s s', P s -> body m s = Ok s' -> P s') ->
  forall fuel i s res, P s -> each_match fuel r text i body s = Ok res -> P res.
Proof.
  intros Hbody. induction fuel as [|fuel IH]; intros i s res Hs; cbn [each_match].
  - by intros [= <-].
  - destruct (exec r text i) as [m|]; [| by intros [= <-]].
    intros He. apply bind_Ok in He as (s' & Hb & He). eauto.
Qed.

Lemma each_match_total {S : Type} (r : Regex.t) (text : string)
    (body : Match -> S -> result S) :
  (forall i m s, exec r text i = Some m -> exists s', body m s = Ok s') ->
  forall fuel i s, exists res, each_match fuel r text i body s = Ok res.
Proof.
  intros Hbody. induction fuel as [|fuel IH]; intros i s; cbn [each_match]; [eauto |].
  destruct (exec r text i) as [m|] eqn:He; [| eauto].
  destruct (Hbody i m s He) as [s' ->]. mred. apply IH.
Qed.

Lemma exec_beyond (r : Regex.t) (text : string) (i : nat) :
  String.length text < i -> exec r text i = None.
Proof.
  intros Hi. unfold exec.
  destruct (seek i None (chars text) 0) as [[[b l] p]|] eqn:Hs; [| reflexivity].
  apply seek_Some in Hs as (_ & _ & Hle). rewrite length_chars in Hle. lia.
Qed.

Lemma exec_bounds (r : Regex.t) (text : string) (i : nat) (m : Match) :
  exec r text i = Some m ->
  i <= index m /\ index m + min_len r <= stop m /\ stop m <= String.length text.
Proof.
  intros He. apply exec_sound in He as (pre & w & post & Ht & Hi & -> & -> & Hl & _).
  apply lang_min_len in Hl. apply (f_equal (@length ascii)) in Ht.
  rewrite length_chars, !length_app in Ht. lia.
Qed.

(** A loop over the matches of a pattern that matches no empty text ends
    by itself within [String.length text + 1 - i] rounds: further rounds
    change nothing. *)
Lemma each_match_rounds {S : Type} (r : Regex.t) (text : string)
    (body : Match -> S -> result S) :
  1 <= min_len r ->
  forall fuel i s n,
    String.length text < fuel + i ->
    each_match (fuel + n) r text i body s = each_match fuel r text i body s.
Proof.
  intros Hmin. induction fuel as [|fuel IH]; intros i s n Hlen.
  - cbn [each_match Nat.add]. destruct n; [reflexivity |]. cbn [each_match].
    by rewrite exec_beyond by lia.
  - cbn [each_match Nat.add]. destruct (exec r text i) as [m|] eqn:He; [| reflexivity].
    apply exec_bounds in He as (Hi & Hst & _).
    destruct (body m s) as [s'|e]; [| reflexivity]. mred. apply IH. lia.
Qed.

Lemma match_all_rounds (r : Regex.t) (text : string) :
  forall fuel i n,
    String.length text + 1 < fuel + i ->
    match_all_from (fuel + n) r text i = match_all_from fuel r text i.
Proof.
  induction fuel as [|fuel IH]; intros i n Hlen.
  - cbn [match_all_from Nat.add]. destruct n; [reflexivity |]. cbn [match_all_from].
    by rewrite exec_beyond by lia.
  - cbn [match_all_from Nat.add]. destruct (exec r text i) as [m|] eqn:He; [| reflexivity].
    apply exec_bounds in He as (Hi & Hst & _). f_equal. apply IH.
    destruct (Nat.eqb_spec (stop m) (index m)); lia.
Qed.

Lemma group_Ok (r : Regex.t) (text : string) (i n : nat) (m : Match) :
  exec r text i = Some m -> sets n r = true -> exists g, group text m n = Ok g.
Proof.
  intros He Hn. apply exec_sound in He as (_ & _ & _ & _ & _ & _ & _ & _ & Hs).
  destruct (Hs n Hn) as [[a b] Hsp]. unfold group, group_opt. rewrite Hsp. eauto.
Qed.

(** *** Totality *)

Lemma extractTitle_total (text : string) : exists t, TextParser.extractTitle text = Ok t.
Proof.
  unfold TextParser.extractTitle.
  destruct (exec TextParser.h1_pattern text 0) as [m|] eqn:He.
  - destruct (group_Ok _ _ _ 1 _ He eq_refl) as [g ->]. mred. eauto.
  - destruct (TextParser.nonblank_lines text) as [|l0 ?]; [eauto |].
    destruct (String.length l0 <? 80)%nat; eauto.
Qed.

Lemma extractBaseUrl_total (text : string) : exists u, TextParser.extractBaseUrl text = Ok u.
Proof.
  unfold TextParser.extractBaseUrl.
  destruct (exec TextParser.urlPattern text 0) as [m|] eqn:He.
  - destruct (group_Ok _ _ _ 1 _ He eq_refl) as [g ->]. mred. eauto.
  - destruct (exec TextParser.anyUrlPattern text 0) as [m|] eqn:He'; [| eauto].
    destruct (group_Ok _ _ _ 1 _ He' eq_refl) as [g ->]. mred. eauto.
Qed.

Lemma extractSummaryFromContext_total (context method path : string) :
  exists t, TextParser.extractSummaryFromContext context method path = Ok t.
Proof.
  unfold TextParser.extractSummaryFromContext.
  destruct (exec TextParser.heading_pattern context 0) as [m|] eqn:He; [| eauto].
  destruct (group_Ok _ _ _ 1 _ He eq_refl) as [g ->]. mred. eauto.
Qed.

Lemma mine_signature_total (pattern : Regex.t) (text : string) (i : nat) (m : Match)
    (st : TextParser.mined) :
  In pattern TextParser.patterns ->
  exec pattern text i = Some m ->
  exists st', TextParser.mine_signature text m st = Ok st'.
Proof.
  intros Hin He. unfold TextParser.mine_signature.
  assert (H1 : sets 1 pattern = true /\ sets 2 pattern = true).
  { cbn in Hin. destruct Hin as [<- | [<- | [<- | []]]]; split; reflexivity. }
  destruct (group_Ok _ _ _ 1 _ He (proj1 H1)) as [g1 ->].
  destruct (group_Ok _ _ _ 2 _ He (proj2 H1)) as [g2 ->]. mred.
  destruct (_ || _); [eauto |].
  destruct (extractSummaryFromContext_total
              (TextParser.extractContextAround text (index m) 500) (toUpperCase g1) g2)
    as [t ->].
  mred. eauto.
Qed.

Lemma mine_curl_total (text : string) (m : Match) (st : TextParser.mined) :
  exists st', TextParser.mine_curl text m st = Ok st'.
Proof.
  unfold TextParser.mine_curl. destruct (URL_pathname _); [| eauto].
  destruct (bool_decide _); eauto.
Qed.

Lemma mine_patterns_total (fuel : nat) (text : string) (ps : list Regex.t) :
  (forall p, In p ps -> In p TextParser.patterns) ->
  forall st, exists st', TextParser.mine_patterns fuel text ps st = Ok st'.
Proof.
  induction ps as [|p ps IH]; intros Hin st; cbn [TextParser.mine_patterns]; [eauto |].
  destruct (each_match_total p text (TextParser.mine_signature text)
              (fun i m s He => mine_signature_total p text i m s (Hin p (or_introl eq_refl)) He)
              fuel 0 st) as [st' ->].
  mred. apply IH. intros q Hq. apply Hin. by right.
Qed.

Lemma extractEndpoints_within_total (fuel : nat) (text : string) :
  exists eps, TextParser.extractEndpoints_within fuel text = Ok eps.
Proof.
  unfold TextParser.extractEndpoints_within.
  destruct (mine_patterns_total fuel text TextParser.patterns (fun p Hp => Hp) ([], ∅))
    as [st ->].
  mred.
  destruct (each_match_total TextParser.curlPattern text (TextParser.mine_curl text)
              (fun i m s _ => mine_curl_total text m s) fuel 0 st) as [st' ->].
  mred. eauto.
Qed.

(** [parseTextDocs] returns for every text. *)
Lemma parseTextDocs_total (input : string) :
  exists r, TextParser.parseTextDocs input = Ok r.
Proof.
  unfold TextParser.parseTextDocs.
  destruct (extractBaseUrl_total input) as [u ->]. mred.
  destruct (TextParser.extractAuth input []) as [auth warnings].
  destruct (extractEndpoints_within_total (TextParser.rounds input) input) as [eps Heps].
  unfold TextParser.extractEndpoints. rewrite Heps. mred.
  destruct (extractTitle_total input) as [t ->].
  destruct (length eps =? 0)%nat; mred; eauto.
Qed.

(** None of the loops of [extractEndpoints] stops for lack of rounds. *)
Lemma extractEndpoints_rounds (text : string) (n : nat) :
  TextParser.extractEndpoints_within (TextParser.rounds text + n) text
  = TextParser.extractEndpoints text.
Proof.
  unfold TextParser.extractEndpoints, TextParser.extractEndpoints_within, TextParser.rounds.
  assert (Hp : forall ps st,
             (forall p, In p ps -> 1 <= min_len p) ->
             TextParser.mine_patterns (S (String.length text) + n) text ps st
             = TextParser.mine_patterns (S (String.length text)) text ps st).
  { induction ps as [|p ps IH]; intros st Hmin; cbn [TextParser.mine_patterns]; [reflexivity |].
    rewrite each_match_rounds by (lia || apply Hmin; by left).
    destruct (each_match _ p text 0 _ st); [| reflexivity]. mred.
    apply IH. intros q Hq. apply Hmin. by right. }
  rewrite Hp.
  2:{ intros p Hin. cbn in Hin. destruct Hin as [<- | [<- | [<- | []]]]; cbn; lia. }
  destruct (TextParser.mine_patterns _ text TextParser.patterns _); [| reflexivity]. mred.
  rewrite each_match_rounds; [reflexivity | cbn; lia | lia].
Qed.

(** *** Invariants of [extractEndpoints] *)

Lemma extractEndpoints_invariant (P : TextParser.mined -> Prop) (text : string) :
  P ([], ∅) ->
  (forall m st st', P st -> TextParser.mine_signature text m st = Ok st' -> P st') ->
  (forall m st st', P st -> TextParser.mine_curl text m st = Ok st' -> P st') ->
  forall fuel eps,
    TextParser.extractEndpoints_within fuel text = Ok eps -> exists seen, P (eps, seen).
Proof.
  intros H0 Hsig Hcurl fuel eps. unfold TextParser.extractEndpoints_within. intros He.
  apply bind_Ok in He as (st & Hst & He).
  apply bind_Ok in He as ([eps' seen] & Hst' & [= <-]).
  exists seen.
  apply (each_match_invariant P _ _ _ Hcurl _ _ _ _) in Hst'; [exact Hst' |].
  clear Hst'. revert Hst. generalize TextParser.patterns. generalize ([] : list Endpoint.t, ∅ : gset string) H0.
  intros st0 Hst0 ps. revert st0 Hst0. induction ps as [|p ps IH]; intros st0 Hst0;
    cbn [TextParser.mine_patterns].
  - by intros [= <-].
  - intros Hm. apply bind_Ok in Hm as (st1 & H1 & Hm).
    apply (each_match_invariant P _ _ _ Hsig) in H1; eauto.
Qed.

(** *** Placeholders *)

Lemma body_end_Some (l : list ascii) (n : nat) :
  body_end l = Some n ->
  exists body l', l = body ++ close_brace :: l' /\ length body = n /\ ~ In close_brace body.
Proof.
  revert n. induction l as [|c l IH]; intros n; cbn; [discriminate |].
  destruct (Ascii.eqb_spec c close_brace) as [-> | Hc].
  - intros [= <-]. exists [], l. repeat split. intros [].
  - destruct (body_end l) as [k|]; [| discriminate]. intros [= <-].
    destruct (IH k eq_refl) as (body & l' & -> & Hlen & Hnot).
    exists (c :: body), l'. cbn. repeat split; [lia |]. intros [Heq | Hin]; [by subst | done].
Qed.

Lemma body_end_body (body l' : list ascii) :
  ~ In close_brace body -> body_end (body ++ close_brace :: l') = Some (length body).
Proof.
  induction body as [|c body IH]; intros Hnot; cbn.
  - reflexivity.
  - destruct (Ascii.eqb_spec c close_brace) as [-> | _]; [exfalso; apply Hnot; by left |].
    rewrite IH; [reflexivity |]. intros Hin. apply Hnot. by right.
Qed.

Lemma body_end_In (l r : list ascii) :
  In close_brace l -> exists k, body_end (l ++ r) = Some k /\ k < length l.
Proof.
  induction l as [|c l IH]; [intros [] |]. intros Hin. cbn.
  destruct (Ascii.eqb_spec c close_brace) as [-> | Hc]; [exists 0; split; [done | lia] |].
  destruct Hin as [Heq | Hin]; [by subst |].
  destruct (IH Hin) as (k & -> & Hk). exists (S k). split; [done | lia].
Qed.

(** The loop of [[^}]*] before a closing brace stops at the first closing
    brace, and fails when there is none. *)
Lemma star_to_close (k : cursor -> option cursor) (g : list (nat * (nat * nat)))
    (l : list ascii) :
  (forall b x l' p, negb (Ascii.eqb x close_brace) = true -> k (Cursor b (x :: l') p g) = None) ->
  (forall b p, k (Cursor b [] p g) = None) ->
  (forall b b' l' p, k (Cursor b l' p g) = k (Cursor b' l' p g)) ->
  forall b p,
    star (fun c => negb (Ascii.eqb c close_brace)) l b p g k
    = match body_end l with
      | Some n => k (Cursor None (skipn n l) (p + n) g)
      | None => None
      end.
Proof.
  intros Hother Hend Hbefore. induction l as [|x l IH]; intros b p; cbn [star body_end].
  - apply Hend.
  - destruct (Ascii.eqb_spec x close_brace) as [-> | Hx]; cbn [negb].
    + cbn [skipn]. rewrite Nat.add_0_r. apply Hbefore.
    + rewrite IH. destruct (body_end l) as [n|]; cbn [option_map].
      * cbn [skipn]. replace (p + S n) with (S p + n) by lia.
        destruct (k (Cursor None (skipn n l) (S p + n) g)); [reflexivity |].
        apply Hother. by destruct (Ascii.eqb_spec x close_brace).
      * apply Hother. by destruct (Ascii.eqb_spec x close_brace).
Qed.

(** Where the placeholder pattern matches, and how far. *)
Lemma run_placeholder (b : option ascii) (l : list ascii) (p : nat) :
  option_map pos (run TextParser.placeholder_pattern (Cursor b l p []) Some)
  = option_map (fun n => p + n) (placeholder_at l).
Proof.
  destruct l as [|x l]; [reflexivity |].
  cbn [TextParser.placeholder_pattern seq fold_right lit map chars list_ascii_of_string
       run rest pos groups placeholder_at].
  change (just "{" x) with (Ascii.eqb "{" x). rewrite Ascii.eqb_sym.
  change "{"%char with open_brace.
  destruct (Ascii.eqb x open_brace); [| reflexivity].
  destruct l as [|y l]; [reflexivity |]. cbn [body_end].
  change "}"%char with close_brace.
  cbn [plus run rest pos groups before].
  destruct (Ascii.eqb_spec y close_brace) as [-> | Hy]; cbn [negb]; [reflexivity |].
  rewrite star_to_close.
  - destruct (body_end l) as [n|] eqn:Hn; cbn [option_map]; [| reflexivity].
    apply body_end_Some in Hn as (body & l' & -> & <- & Hnot).
    cbn [set_group rest pos groups before]. rewrite drop_app_length.
    unfold just. rewrite Ascii.eqb_refl. cbn [option_map pos]. f_equal. lia.
  - intros b0 z l' p0 Hz. cbn [set_group rest pos groups before]. unfold just.
    rewrite Ascii.eqb_sym. by destruct (Ascii.eqb z close_brace).
  - reflexivity.
  - reflexivity.
Qed.

Lemma search_here (b : option ascii) (l : list ascii) (p n : nat) :
  placeholder_at l = Some n ->
  exists m, search TextParser.placeholder_pattern b l p = Some m /\
            index m = p /\ stop m = p + n.
Proof.
  intros Hn. pose proof (run_placeholder b l p) as Hrun. rewrite Hn in Hrun.
  destruct l as [|x l]; [discriminate |]. cbn [search].
  destruct (run _ _ Some) as [c|]; [| discriminate].
  injection Hrun as Hpos. eexists. split; [reflexivity |]. cbn. auto.
Qed.

Lemma search_next (b : option ascii) (x : ascii) (l : list ascii) (p : nat) :
  placeholder_at (x :: l) = None ->
  search TextParser.placeholder_pattern b (x :: l) p
  = search TextParser.placeholder_pattern (Some x) l (S p).
Proof.
  intros Hn. pose proof (run_placeholder b (x :: l) p) as Hrun. rewrite Hn in Hrun.
  cbn [search]. by destruct (run _ _ Some).
Qed.

Lemma closed_before_suffix (a b : list ascii) : closed_before (a ++ b) -> closed_before b.
Proof.
  intros Hc p1 p2 ->. apply (Hc (a ++ p1) p2). by rewrite <- app_assoc.
Qed.

Lemma placeholder_at_token (name post : list ascii) :
  name <> [] -> ~ In close_brace name ->
  placeholder_at (open_brace :: name ++ close_brace :: post) = Some (length name + 2).
Proof.
  intros Hne Hnot. cbn [placeholder_at]. rewrite Ascii.eqb_refl, body_end_body by done.
  destruct name; [done | reflexivity].
Qed.

(** The search for a placeholder, started before a token: it finds the
    token, or a placeholder that ends before the token, after which every
    opened brace is still closed before the token. *)
Lemma search_token (name post : list ascii) (pre : list ascii) :
  name <> [] -> ~ In close_brace name ->
  closed_before pre ->
  forall b p,
    exists m,
      search TextParser.placeholder_pattern b
        (pre ++ open_brace :: name ++ close_brace :: post) p = Some m /\
      (index m = p + length pre /\ stop m = index m + length name + 2 \/
       p <= index m /\ index m < stop m /\ stop m <= p + length pre /\
       closed_before (skipn (stop m - p) pre)).
Proof.
  intros Hne Hnot. induction pre as [|x pre IH]; intros Hclosed b p.
  - cbn [app].
    destruct (search_here b _ p _ (placeholder_at_token name post Hne Hnot))
      as (m & Hm & Hi & Hs).
    exists m. split; [done |]. left. cbn. lia.
  - cbn [app].
    destruct (placeholder_at (x :: pre ++ open_brace :: name ++ close_brace :: post))
      as [n|] eqn:Hat.
    + destruct (search_here b _ p _ Hat) as (m & Hm & Hi & Hs).
      exists m. split; [done |]. right.
      cbn [placeholder_at] in Hat.
      destruct (Ascii.eqb_spec x open_brace) as [-> | _]; [| discriminate].
      destruct (body_end_In pre (open_brace :: name ++ close_brace :: post)
                  (Hclosed [] pre eq_refl)) as (k & Hk & Hlt).
      rewrite Hk in Hat. destruct k as [|k]; [discriminate |]. injection Hat as <-.
      cbn [length]. repeat split; try lia.
      replace (stop m - p) with (S (S k + 1)) by lia. cbn [skipn].
      rewrite <- (firstn_skipn (S k + 1) pre) in Hclosed.
      apply (closed_before_suffix [open_brace]) in Hclosed.
      by apply closed_before_suffix in Hclosed.
    + rewrite search_next by done.
      destruct (IH (closed_before_suffix [x] pre Hclosed) (Some x) (S p))
        as (m & Hm & [[Hi Hs] | (Hi & Hlt & Hs & Hc)]).
      * exists m. split; [done |]. left. cbn [length]. lia.
      * exists m. split; [done |]. right. cbn [length]. repeat split; try lia.
        replace (stop m - p) with (S (stop m - S p)) by lia. exact Hc.
Qed.

Lemma seek_within (i : nat) :
  forall b l p, i <= length l -> exists b', seek i b l p = Some (b', skipn i l, p + i).
Proof.
  induction i as [|i IH]; intros b l p Hi; cbn [seek skipn].
  - exists b. by rewrite Nat.add_0_r.
  - destruct l as [|x l]; [cbn in Hi; lia |].
    destruct (IH (Some x) l (S p)) as [b' ->]; [cbn in Hi; lia |].
    exists b'. cbn [skipn]. by replace (p + S i) with (S p + i) by lia.
Qed.

(** Every token that [has_token] describes is among the matches that
    [extractParamsFromContext] gets from the path. *)
Lemma match_all_token (path : string) (name post : list ascii) :
  name <> [] -> ~ In close_brace name ->
  forall fuel done pre,
    chars path = done ++ pre ++ open_brace :: name ++ close_brace :: post ->
    closed_before pre ->
    length pre < fuel ->
    In (str (open_brace :: name ++ [close_brace]))
       (match_all_from fuel TextParser.placeholder_pattern path (length done)).
Proof.
  intros Hne Hnot. induction fuel as [|fuel IH]; intros done pre Hpath Hclosed Hfuel; [lia |].
  cbn [match_all_from]. unfold exec.
  destruct (seek_within (length done) None (chars path) 0) as [b ->].
  { rewrite Hpath, length_app. lia. }
  rewrite Hpath at 1. rewrite drop_app_length. cbn [Nat.add].
  destruct (search_token name post pre Hne Hnot Hclosed b (length done))
    as (m & -> & [[Hi Hs] | (Hi & Hlt & Hs & Hc)]).
  - left. unfold whole.
    assert (index m = length (done ++ pre)) as -> by (rewrite length_app; lia).
    assert (stop m = length (done ++ pre) + length (open_brace :: name ++ [close_brace])) as ->.
    { rewrite Hs, Hi. cbn [length]. rewrite !length_app. cbn [length]. lia. }
    apply slice_middle with (post := post).
    rewrite Hpath, <- !app_assoc. cbn. by rewrite <- app_assoc.
  - right. destruct (Nat.eqb_spec (stop m) (index m)); [lia |].
    replace (stop m) with (length (done ++ firstn (stop m - length done) pre)).
    2:{ rewrite length_app, firstn_length_le by lia. lia. }
    apply IH with (pre := skipn (stop m - length done) pre).
    + by rewrite <- app_assoc, (app_assoc (firstn _ pre)), firstn_skipn.
    + exact Hc.
    + rewrite length_skipn. lia.
Qed.

(** *** What the loops of [extractEndpoints] add *)

Lemma mine_signature_step (text : string) (m : Match) (st st' : TextParser.mined) :
  TextParser.mine_signature text m st = Ok st' -> mined_step st st'.
Proof.
  unfold TextParser.mine_signature. intros Hm.
  apply bind_Ok in Hm as (g1 & _ & Hm). apply bind_Ok in Hm as (path & _ & Hm).
  destruct (bool_decide _) eqn:Hseen; cbn [orb] in Hm; [left; by injection Hm |].
  destruct (negb _); [left; by injection Hm |].
  apply bind_Ok in Hm as (summary & _ & [= <-]).
  right. match goal with |- exists e, (_ ++ [?x], _) = _ /\ _ => exists x end.
  split; [reflexivity |].
  split; [by apply bool_decide_eq_false in Hseen |].
  repeat split. by left.
Qed.

Lemma mine_curl_step (text : string) (m : Match) (st st' : TextParser.mined) :
  TextParser.mine_curl text m st = Ok st' -> mined_step st st'.
Proof.
  unfold TextParser.mine_curl. intros Hm.
  destruct (URL_pathname _) as [path|] eqn:Hurl; [| left; by injection Hm].
  destruct (bool_decide _) eqn:Hseen; [left; by injection Hm |].
  injection Hm as <-.
  right. match goal with |- exists e, (_ ++ [?x], _) = _ /\ _ => exists x end.
  split; [reflexivity |].
  split; [by apply bool_decide_eq_false in Hseen |].
  repeat split. right. split; [reflexivity |]. eauto.
Qed.

(** The endpoints of a text: no two have the same key, and each is as
    [mined_endpoint] says. *)
Lemma extractEndpoints_mined (text : string) (eps : list Endpoint.t) :
  TextParser.extractEndpoints text = Ok eps ->
  NoDup (map endpoint_key eps) /\ Forall mined_endpoint eps.
Proof.
  intros He.
  pose (P := fun st : TextParser.mined =>
               NoDup (map endpoint_key st.1) /\
               (forall e, In e st.1 -> endpoint_key e ∈ st.2) /\
               Forall mined_endpoint st.1).
  assert (Hstep : forall st st', P st -> mined_step st st' -> P st').
  { intros st st' (Hnd & Hseen & Hall) [-> | (e & -> & Hnew & He')]; [done |].
    unfold P. cbn [fst snd]. repeat split.
    - rewrite map_app. cbn [map]. apply NoDup_app.
      split; [done |]. split; [| apply NoDup_singleton].
      intros k Hk Hk'. apply list_elem_of_singleton in Hk'. subst k. apply Hnew.
      apply list_elem_of_In, in_map_iff in Hk as (e' & <- & Hin). by apply Hseen.
    - intros e' [Hin | [<- | []]]%in_app_or.
      + apply elem_of_union_r. by apply Hseen.
      + apply elem_of_union_l. by apply elem_of_singleton.
    - apply Forall_app. split; [done | by constructor]. }
  destruct (extractEndpoints_invariant P text) with (fuel := TextParser.rounds text) (eps := eps)
    as (seen & Hnd & _ & Hall).
  - repeat split; [constructor | intros e [] | constructor].
  - intros m st st' HP Hm. eapply Hstep; [exact HP | by eapply mine_signature_step].
  - intros m st st' HP Hm. eapply Hstep; [exact HP | by eapply mine_curl_step].
  - exact He.
  - done.
Qed.

Lemma chars_app (a b : string) : chars (a +:+ b) = chars a ++ chars b.
Proof.
  induction a as [|x a IH]; [reflexivity |].
  change (x :: chars (a +:+ b) = x :: chars a ++ chars b). by rewrite IH.
Qed.

Lemma remove_braces (name : list ascii) :
  ~ In open_brace name -> ~ In close_brace name ->
  remove_each (one_of "{}") (str (open_brace :: name ++ [close_brace])) = str name.
Proof.
  intros Ho Hc. unfold remove_each. rewrite chars_str. f_equal.
  cbn [List.filter]. change (one_of "{}" open_brace) with true. cbn [negb].
  induction name as [|c name IH]; [reflexivity |].
  cbn [app List.filter].
  assert (one_of "{}" c = false) as ->.
  { unfold one_of. cbn [chars list_ascii_of_string existsb].
    change "{"%char with open_brace. change "}"%char with close_brace.
    destruct (Ascii.eqb_spec c open_brace) as [-> | _]; [exfalso; apply Ho; by left |].
    destruct (Ascii.eqb_spec c close_brace) as [-> | _]; [exfalso; apply Hc; by left |].
    reflexivity. }
  cbn [negb]. f_equal. apply IH; intros Hin; [apply Ho | apply Hc]; by right.
Qed.

(** A token of the path gives a parameter of its name. *)
Lemma has_token_param (path name context : string) :
  has_token path name ->
  In (TextParser.path_param name) (TextParser.extractParamsFromContext path context).
Proof.
  intros (pre & post & Hpath & Hne & Ho & Hc & Hclosed).
  unfold TextParser.extractParamsFromContext.
  rewrite <- (str_chars name) at 1. rewrite <- (remove_braces (chars name) Ho Hc).
  apply in_map with (f := fun p => TextParser.path_param (remove_each (one_of "{}") p)).
  unfold match_all.
  apply (match_all_token path (chars name) (chars post)) with (done := []) (pre := chars pre).
  - intros He. apply Hne. by rewrite <- (str_chars name), He.
  - exact Hc.
  - rewrite Hpath, !chars_app. reflexivity.
  - exact Hclosed.
  - rewrite Hpath, <- !length_chars, !chars_app, !length_app. lia.
Qed.

Lemma has_token_brace (path name : string) :
  has_token path name -> In open_brace (chars path).
Proof.
  intros (pre & post & -> & _). rewrite !chars_app. apply in_or_app. right. by left.
Qed.

Lemma header_lang (w : list ascii) :
  lang TextParser.header_pattern w ->
  In (toLowerCase (str w)) ["x-api-key"; "apikey"; "api_key"; "api-key"] /\ w <> [].
Proof.
  intros Hl. split.
  - destruct Hl as [Hl | Hl].
    + left. by rewrite (lang_liti_lower _ _ Hl).
    + destruct Hl as (w1 & w' & -> & H1 & w2 & w'' & -> & H2 & w3 & w4 & -> & H3 & ->).
      rewrite !toLowerCase_app, (lang_liti_lower _ _ H1), (lang_liti_lower _ _ H3).
      destruct H2 as [-> | (c & -> & Hc)].
      * right. left. reflexivity.
      * cbn in Hc. rewrite orb_false_r in Hc. apply orb_true_iff in Hc as [Hc | Hc];
          apply Ascii.eqb_eq in Hc; subst c.
        -- right. right. left. reflexivity.
        -- right. right. right. left. reflexivity.
  - apply lang_min_len in Hl. intros ->. cbn in Hl. lia.
Qed.

(** C4, as amended: for every text with an api-key cue and no bearer cue,
    the text normalizer returns an apiKey scheme whose header name is the
    matched token as the text spells it, an occurrence of x-api-key,
    apikey, api_key or api-key in any letter case; the default X-API-Key
    is never put in its place. *)
Theorem api_key_header_is_the_matched_token (text : string) (warnings : list string) :
  test TextParser.bearer_token text || test TextParser.authorization_bearer text = false ->
  test TextParser.api_key text || test TextParser.x_api_key text = true ->
  exists pre token post,
    text = pre +:+ token +:+ post /\
    In (toLowerCase token) ["x-api-key"; "apikey"; "api_key"; "api-key"] /\
    TextParser.extractAuth text warnings =
      (AuthScheme.mk AuthScheme.apiKey (VStr token) VUndefined VUndefined
         (VStr "API Key authentication (detected from docs)") VUndefined, warnings) /\
    forall r, TextParser.parseTextDocs text = Ok r ->
              AuthScheme.type (ApiSpec.auth (ParseResult.spec r)) = AuthScheme.apiKey /\
              AuthScheme.headerName (ApiSpec.auth (ParseResult.spec r)) = VStr token.
Proof.
  intros Hbearer Hcue.
  assert (Hfound : test TextParser.header_pattern text = true).
  { apply test_true; [reflexivity |].
    apply orb_true_iff in Hcue as [Hc | Hc]; apply test_true in Hc; try reflexivity;
      destruct Hc as (pre & w & post & Ht & Hl); exists pre, w, post; split; try done.
    - by right.
    - by left. }
  unfold test in Hfound.
  destruct (exec TextParser.header_pattern text 0) as [m|] eqn:Hexec; [clear Hfound | discriminate].
  pose proof Hexec as Hspan. unfold exec in Hspan. rewrite seek_zero in Hspan.
  apply search_group in Hspan.
  destruct (exec_sound _ _ _ _ Hexec) as (pre & w & post & Ht & _ & Hi & Hs & Hl & _).
  apply header_lang in Hl as [Hlow Hne].
  assert (Hname : group_or text m 1 "X-API-Key" = str w).
  { unfold group_or, group_opt. rewrite Hspan, Hi, Hs, (slice_middle text pre w post Ht).
    destruct (String.eqb_spec (str w) "") as [He | _]; [| reflexivity].
    apply (f_equal chars) in He. rewrite chars_str in He. contradiction. }
  assert (Hauth : forall ws, TextParser.extractAuth text ws =
            (AuthScheme.mk AuthScheme.apiKey (VStr (str w)) VUndefined VUndefined
               (VStr "API Key authentication (detected from docs)") VUndefined, ws)).
  { intros ws. unfold TextParser.extractAuth. by rewrite Hbearer, Hcue, Hexec, Hname. }
  exists (str pre), (str w), (str post).
  split; [by rewrite <- !str_app, <- Ht, str_chars |].
  split; [exact Hlow |].
  split; [apply Hauth |].
  intros r Hr. apply parseTextDocs_Ok in Hr as (eps & _ & _ & Ha).
  by rewrite (Ha []), Hauth.
Qed.

(** C10: every endpoint that the text normalizer produces requires
    authentication and has exactly one response, of status code 200 and
    description [Successful response], whatever the text says. *)
Theorem text_endpoints_auth_and_one_response (text : string) :
  exists r,
    TextParser.parseTextDocs text = Ok r /\
    Forall (fun e =>
              Endpoint.auth e = true /\
              map (fun rd => (ResponseDef.statusCode rd, ResponseDef.description rd))
                (Endpoint.responses e) = [("200", VStr "Successful response")])
      (ApiSpec.endpoints (ParseResult.spec r)).
Proof.
  destruct (parseTextDocs_total text) as [r Hr]. exists r. split; [exact Hr |].
  apply parseTextDocs_Ok in Hr as (eps & Heps & -> & _).
  apply extractEndpoints_mined in Heps as [_ Hall].
  eapply Forall_impl; [exact Hall |].
  intros e (Hauth & Hresp & _). by rewrite Hresp.
Qed.

(** C5, as amended: when the host's URL class keeps braces out of a URL's
    path, each endpoint that the text normalizer extracts has, for every
    token [{name}] of its path whose name is not empty and has no brace and
    before which every opened brace is closed, a parameter of that name,
    located in the path, required, and of type string. *)
Theorem path_tokens_have_parameters (text : string) :
  (forall u p, URL_pathname u = Some p -> ~ In open_brace (chars p)) ->
  exists r,
    TextParser.parseTextDocs text = Ok r /\
    forall e name,
      In e (ApiSpec.endpoints (ParseResult.spec r)) ->
      has_token (Endpoint.path e) name ->
      exists p, In p (Endpoint.parameters e) /\
                Param.name p = VStr name /\ Param.in_ p = VStr "path" /\
                Param.required p = true /\ Param.type p = VStr "string".
Proof.
  intros Hurl. destruct (parseTextDocs_total text) as [r Hr]. exists r. split; [exact Hr |].
  apply parseTextDocs_Ok in Hr as (eps & Heps & -> & _).
  apply extractEndpoints_mined in Heps as [_ Hall].
  intros e name Hin Htoken. rewrite List.Forall_forall in Hall.
  destruct (Hall e Hin) as (_ & _ & [Hparams | (_ & u & Hu)]).
  - exists (TextParser.path_param name). rewrite Hparams.
    split; [by apply has_token_param |]. repeat split.
  - exfalso. apply (Hurl u _ Hu). by apply has_token_brace in Htoken.
Qed.

Lemma operations_distinct (doc : value) :
  NoDup (map fst (own_entries (or_else (prop doc "paths") (VObj [])))) ->
  NoDup (map (fun '(path, method, _) => (method, path)) (operations doc)).
Proof.
  unfold operations. generalize (own_entries (or_else (prop doc "paths") (VObj []))).
  intros entries. induction entries as [|[path pathItem] entries IH]; intros Hnd; [constructor |].
  cbn [map fst] in Hnd. apply NoDup_cons in Hnd as [Hfresh Hnd].
  cbn [flat_map]. rewrite map_app. apply NoDup_app. split; [| split; [| by apply IH]].
  - assert (Hms : NoDup OpenApiParser.methods).
    { unfold OpenApiParser.methods. apply (bool_decide_unpack _). vm_compute. exact I. }
    revert Hms. generalize OpenApiParser.methods. intros ms.
    induction ms as [|m ms IHms]; intros Hms; [constructor |].
    apply NoDup_cons in Hms as [Hm Hms]. cbn [omap list_omap].
    destruct (truthy (prop pathItem (toLowerCase m))); [| by apply IHms].
    cbn [map]. apply NoDup_cons. split; [| by apply IHms].
    intros Hin. apply Hm.
    apply list_elem_of_In in Hin. apply in_map_iff in Hin as ([[p' m'] op'] & [= <- <-] & Hin).
    apply list_elem_of_In in Hin. apply list_elem_of_omap in Hin as (m'' & Hm'' & Heq).
    destruct (truthy _); [| discriminate]. by simplify_eq.
  - intros [m p] Hin1 Hin2. apply Hfresh.
    apply list_elem_of_In in Hin1. apply in_map_iff in Hin1 as ([[p1 m1] op1] & [= <- <-] & Hin1).
    apply list_elem_of_In in Hin1. apply list_elem_of_omap in Hin1 as (m'' & _ & Heq).
    destruct (truthy _); [| discriminate]. simplify_eq.
    apply list_elem_of_In in Hin2. apply in_map_iff in Hin2 as ([[p2 m2] op2] & [= <- <-] & Hin2).
    apply in_flat_map in Hin2 as ([p3 item3] & Hin3 & Hin2).
    apply list_elem_of_In in Hin2. apply list_elem_of_omap in Hin2 as (m3 & _ & Heq).
    destruct (truthy _); [| discriminate]. simplify_eq.
    apply list_elem_of_In, in_map_iff. by eexists (_, item3).
Qed.

(** C3, as amended: in every canonical spec that either normalizer
    produces, no two endpoints have the same method and the same path.  The
    text normalizer drops a later match of a method and path it has seen;
    the structured one makes one endpoint for each path key of the document
    and each method.  Nothing keeps the ids of two endpoints apart. *)
Theorem endpoints_distinct_in_method_and_path :
  (forall text,
     exists r, TextParser.parseTextDocs text = Ok r /\
       NoDup (map (fun e => (Endpoint.method e, Endpoint.path e))
                (ApiSpec.endpoints (ParseResult.spec r)))) /\
  (forall input doc r,
     OpenApiParser.decode input = Ok doc ->
     NoDup (map fst (own_entries (or_else (prop doc "paths") (VObj [])))) ->
     OpenApiParser.parseOpenApiSpec input = Ok r ->
     NoDup (map (fun e => (Endpoint.method e, Endpoint.path e))
              (ApiSpec.endpoints (ParseResult.spec r)))).
Proof.
  split.
  - intros text. destruct (parseTextDocs_total text) as [r Hr]. exists r. split; [exact Hr |].
    apply parseTextDocs_Ok in Hr as (eps & Heps & -> & _).
    apply extractEndpoints_mined in Heps as [Hnd _].
    apply (NoDup_fmap_1 (fun mp : string * string => mp.1 +:+ " " +:+ mp.2)).
    assert (Heq : (fun mp : string * string => mp.1 +:+ " " +:+ mp.2)
                    <$> map (fun e => (Endpoint.method e, Endpoint.path e)) eps
                  = map endpoint_key eps).
    { clear. induction eps as [|e eps IH]; [reflexivity |]. cbn. by rewrite IH. }
    by rewrite Heq.
  - intros input doc r Hd Hkeys Hp.
    apply (parse_Ok _ _ _ Hd), normalize_Ok in Hp
      as (baseUrl & auth & warnings & eps & tags & ph & t & d & v &
          Hu & Hn & _ & _ & Heps & _ & _ & ->).
    apply extractEndpoints_Ok in Heps. cbn [ParseResult.spec ApiSpec.endpoints].
    apply operations_distinct in Hkeys.
    assert (Heq : map (fun e => (Endpoint.method e, Endpoint.path e)) eps
                  = map (fun '(path, method, _) => (method, path)) (operations doc)).
    { clear Hkeys. induction Heps as [|e [[p m] op] eps ops (Hp & Hm & _) _ IH]; [reflexivity |].
      cbn [map]. by rewrite Hp, Hm, IH. }
    by rewrite Heq.
Qed.

(** C1, as amended: [parseOpenApiSpec] throws the error with the message
    [Could not parse input as JSON or YAML] if and only if the input fails
    JSON decoding and also fails YAML decoding.  For an input that either
    decoder reads, it does what [normalize] does with the document: it
    returns a ParseResult, or it throws a TypeError, on a document that is
    not shaped as the normalizer takes it to be, or a RangeError, when the
    recursion over a schema overflows the call stack; it throws nothing
    else.  [parseTextDocs] returns for every input, and none of its loops
    stops for lack of rounds. *)
Theorem only_undecodable_input_is_a_parse_error (input : string) :
  (OpenApiParser.parseOpenApiSpec input = Throw OpenApiParser.parse_error <->
   JSON_parse input = None /\ yaml_load input = None) /\
  (forall doc, OpenApiParser.decode input = Ok doc ->
     OpenApiParser.parseOpenApiSpec input = OpenApiParser.normalize doc /\
     forall e, OpenApiParser.normalize doc = Throw e -> e = TypeError \/ e = RangeError) /\
  (exists r, TextParser.parseTextDocs input = Ok r) /\
  (forall n, TextParser.extractEndpoints_within (TextParser.rounds input + n) input
             = TextParser.extractEndpoints input).
Proof.
  destruct (structured_failures input) as [Hiff Hdoc].
  split; [exact Hiff |]. split; [exact Hdoc |].
  split; [apply parseTextDocs_total | apply extractEndpoints_rounds].
Qed.

End Text.

Lemma round_trip_scenario_witness :
  exists r e,
    @OpenApiParser.parseOpenApiSpec Reference.host c2_input = Ok r /\
    ApiSpec.title (ParseResult.spec r) = VStr "T" /\
    ApiSpec.baseUrl (ParseResult.spec r) = VStr "https://x.io" /\
    ApiSpec.endpoints (ParseResult.spec r) = [e] /\
    Endpoint.id e = VStr "getA" /\
    Endpoint.method e = "GET" /\
    Endpoint.path e = "/a" /\
    Endpoint.parameters e = [] /\
    ParseResult.todos r = [].
Proof. apply (@round_trip_scenario Reference.host). vm_compute. reflexivity. Defined.




Lemma request_body_content_type_witness :
  (exists body,
     @OpenApiParser.extractRequestBody Reference.host two_media_op false = Ok (Some body) /\
     RequestBody.contentType body = VStr "text/plain" /\
     map SchemaField.name (RequestBody.schema body) = ["a"]) /\
  (exists body,
     @OpenApiParser.extractRequestBody Reference.host no_json_op false = Ok (Some body) /\
     RequestBody.contentType body = VStr "text/plain" /\
     map SchemaField.type (RequestBody.schema body) = [VStr "string"]).
Proof.
  split.
  - eexists. split.
    + rewrite (@request_body_content_type Reference.host two_media_op two_media_body
                 (VObj [("schema", VObj [("type", VStr "string")])]) "text/plain"
                 [("application/json",
                   prop (prop two_media_body "content") "application/json")]);
        [vm_compute; reflexivity | reflexivity | reflexivity].
    + split; reflexivity.
  - eexists. split.
    + rewrite (@request_body_content_type Reference.host no_json_op no_json_body
                 (VObj [("schema", VObj [("type", VStr "string")])]) "text/plain"
                 [("application/xml", prop (prop no_json_body "content") "application/xml")]);
        [vm_compute; reflexivity | reflexivity | reflexivity].
    + split; reflexivity.
Defined.

(** ** Closed instances *)


(** C1, the claim as stated fails: [JSON.parse] reads the text [null] and
    the normalizer then throws, a TypeError. *)
Lemma null_document_throws :
  @JSON_parse Reference.host "null" = Some VNull /\
  @OpenApiParser.parseOpenApiSpec Reference.host "null" = Throw TypeError.
Proof. split; vm_compute; reflexivity. Qed.

Lemma only_undecodable_input_witness :
  @OpenApiParser.parseOpenApiSpec Reference.host c2_input =
    @OpenApiParser.normalize Reference.host c2_doc /\
  forall e, @OpenApiParser.normalize Reference.host c2_doc = Throw e ->
            e = TypeError \/ e = RangeError.
Proof.
  apply (proj1 (proj2 (@only_undecodable_input_is_a_parse_error Reference.host c2_input))).
  vm_compute. reflexivity.
Defined.

(** C3, the claim as stated fails for either normalizer: two endpoints
    with one id. *)
Lemma two_endpoints_share_an_id :
  (exists r e1 e2,
     @TextParser.parseTextDocs Reference.host alike_paths_text = Ok r /\
     ApiSpec.endpoints (ParseResult.spec r) = [e1; e2] /\
     Endpoint.path e1 = "/a/b" /\ Endpoint.path e2 = "/a.b" /\
     Endpoint.id e1 = VStr "get__a_b" /\ Endpoint.id e2 = VStr "get__a_b") /\
  (exists r e1 e2,
     @OpenApiParser.parseOpenApiSpec Reference.host shared_id_input = Ok r /\
     ApiSpec.endpoints (ParseResult.spec r) = [e1; e2] /\
     Endpoint.path e1 = "/a" /\ Endpoint.path e2 = "/b" /\
     Endpoint.id e1 = VStr "x" /\ Endpoint.id e2 = VStr "x").
Proof.
  split; eexists _, _, _; (split; [vm_compute; reflexivity |]);
    (split; [reflexivity |]); repeat split.
Qed.

Lemma endpoints_distinct_witness :
  exists r,
    @OpenApiParser.parseOpenApiSpec Reference.host shared_id_input = Ok r /\
    NoDup (map (fun e => (Endpoint.method e, Endpoint.path e))
             (ApiSpec.endpoints (ParseResult.spec r))).
Proof.
  eexists. split; [vm_compute; reflexivity |].
  apply (proj2 (@endpoints_distinct_in_method_and_path Reference.host) shared_id_input
           (VObj [("openapi", VStr "3.0.0");
                  ("paths", VObj [("/a", VObj [("get", VObj [("operationId", VStr "x")])]);
                                  ("/b", VObj [("get", VObj [("operationId", VStr "x")])])])])).
  - vm_compute. reflexivity.
  - apply (bool_decide_unpack _). vm_compute. exact I.
  - vm_compute. reflexivity.
Defined.

(** C4, the claim as stated fails: the text has the generic phrase and no
    header-like token, and the header name is the phrase, not X-API-Key. *)
Lemma generic_phrase_is_the_header_name :
  Regex.test TextParser.api_key generic_key_text = true /\
  Regex.test TextParser.x_api_key generic_key_text = false /\
  Regex.test TextParser.bearer_token generic_key_text
    || Regex.test TextParser.authorization_bearer generic_key_text = false /\
  AuthScheme.headerName (TextParser.extractAuth generic_key_text []).1 = VStr "api_key" /\
  exists r, @TextParser.parseTextDocs Reference.host generic_key_text = Ok r /\
            AuthScheme.type (ApiSpec.auth (ParseResult.spec r)) = AuthScheme.apiKey /\
            AuthScheme.headerName (ApiSpec.auth (ParseResult.spec r)) = VStr "api_key".
Proof.
  do 4 (split; [vm_compute; reflexivity |]).
  eexists. split; [vm_compute; reflexivity |]. split; reflexivity.
Qed.

Lemma api_key_header_witness :
  exists pre token post,
    generic_key_text = pre +:+ token +:+ post /\
    In (toLowerCase token) ["x-api-key"; "apikey"; "api_key"; "api-key"] /\
    TextParser.extractAuth generic_key_text [] =
      (AuthScheme.mk AuthScheme.apiKey (VStr token) VUndefined VUndefined
         (VStr "API Key authentication (detected from docs)") VUndefined, []) /\
    forall r, @TextParser.parseTextDocs Reference.host generic_key_text = Ok r ->
              AuthScheme.type (ApiSpec.auth (ParseResult.spec r)) = AuthScheme.apiKey /\
              AuthScheme.headerName (ApiSpec.auth (ParseResult.spec r)) = VStr token.
Proof.
  apply (@api_key_header_is_the_matched_token Reference.host generic_key_text []);
    vm_compute; reflexivity.
Defined.

(** C5, the claim as stated fails: the path holds the token [{id}], and
    the only parameter of the endpoint is named aid. *)
Lemma nested_brace_token_has_no_parameter :
  exists r e,
    @TextParser.parseTextDocs Reference.host nested_brace_text = Ok r /\
    ApiSpec.endpoints (ParseResult.spec r) = [e] /\
    Endpoint.path e = "/{a" +:+ "{" +:+ "id" +:+ "}" +:+ "" /\
    map Param.name (Endpoint.parameters e) = [VStr "aid"].
Proof.
  eexists _, _. split; [vm_compute; reflexivity |]. split; [reflexivity |].
  split; reflexivity.
Qed.

Lemma reference_pathname_no_brace (u p : string) :
  Reference.pathname u = Some p -> ~ In open_brace (chars p).
Proof.
  assert (Henc : forall c, ~ In open_brace (Reference.percent_encode c)).
  { intros c Hin.
    assert (Hmem : existsb (Ascii.eqb open_brace) (Reference.percent_encode c) = true).
    { apply existsb_exists. exists open_brace. split; [done | apply Ascii.eqb_refl]. }
    clear Hin. revert Hmem. by destruct c as [[] [] [] [] [] [] [] []]; vm_compute. }
  assert (Hflat : forall l, ~ In open_brace (flat_map Reference.percent_encode l)).
  { intros l Hin. apply in_flat_map in Hin as (c & _ & Hin). by apply Henc in Hin. }
  unfold Reference.pathname.
  destruct (if prefixb _ _ then _ else _) as [r|]; [| discriminate].
  destruct (Reference.take_until _ r) as [authority after].
  destruct authority; [discriminate |].
  destruct after as [|c rest].
  - intros [= <-]. cbn. intros [Hs | []]. discriminate.
  - destruct (one_of _ c).
    + destruct (Reference.take_until _ rest) as [path ?]. intros [= <-].
      change (chars (String ?a ?t)) with (a :: chars t). rewrite chars_str.
      intros [Hs | Hin]; [discriminate | by apply Hflat in Hin].
    + intros [= <-]. cbn. intros [Hs | []]. discriminate.
Qed.

Lemma path_tokens_witness :
  exists r e p,
    @TextParser.parseTextDocs Reference.host pet_text = Ok r /\
    In e (ApiSpec.endpoints (ParseResult.spec r)) /\
    Endpoint.path e = "/pets/{id}" /\
    In p (Endpoint.parameters e) /\
    Param.name p = VStr "id" /\ Param.in_ p = VStr "path" /\
    Param.required p = true /\ Param.type p = VStr "string".
Proof.
  destruct (@path_tokens_have_parameters Reference.host pet_text reference_pathname_no_brace)
    as (r & Hr & Hall).
  assert (He : exists e, In e (ApiSpec.endpoints (ParseResult.spec r)) /\
                         Endpoint.path e = "/pets/{id}").
  { vm_compute in Hr. injection Hr as <-. eexists. split; [left; reflexivity | reflexivity]. }
  destruct He as (e & Hin & Hpath).
  destruct (Hall e "id" Hin) as (p & Hp).
  - rewrite Hpath. exists "/pets/", "". repeat split; try discriminate.
    + intros [Heq | [Heq | []]]; discriminate.
    + intros [Heq | [Heq | []]]; discriminate.
    + intros p1 p2 Heq. exfalso.
      assert (Hin' : In open_brace (chars "/pets/")).
      { rewrite Heq. apply in_or_app. right. by left. }
      cbn in Hin'. intuition discriminate.
  - exists r, e, p. tauto.
Defined.

(** * Numbers

    The length of an array, as the number that the program reads, is
    positive when the array is not empty. *)

Section Numbers.

Lemma iter_pos_nat {A : Type} (f : A -> A) (p : positive) :
  forall x, SpecFloat.iter_pos f p x = Nat.iter (Pos.to_nat p) f x.
Proof.
  induction p as [p IH|p IH|]; intros x; cbn [SpecFloat.iter_pos].
  - rewrite !IH, Pos2Nat.inj_xI. rewrite <- Nat.iter_add, <- Nat.iter_succ_r. f_equal. lia.
  - rewrite !IH, Pos2Nat.inj_xO. rewrite <- Nat.iter_add. f_equal. lia.
  - reflexivity.
Qed.

Lemma shr_1_positive (q : positive) (r s : bool) :
  (1 < Pos.to_nat (SpecFloat.digits2_pos q))%nat ->
  exists q' r' s', SpecFloat.shr_1 (SpecFloat.Build_shr_record (Zpos q) r s) = SpecFloat.Build_shr_record (Zpos q') r' s' /\
                   Pos.to_nat (SpecFloat.digits2_pos q) = S (Pos.to_nat (SpecFloat.digits2_pos q')).
Proof.
  destruct q as [q|q|]; cbn; intros Hd.
  - eexists _, _, _. split; [reflexivity | lia].
  - eexists _, _, _. split; [reflexivity | lia].
  - lia.
Qed.

Lemma shr_iter_positive (n : nat) :
  forall q r s, (n < Pos.to_nat (SpecFloat.digits2_pos q))%nat ->
    exists q' r' s', Nat.iter n SpecFloat.shr_1 (SpecFloat.Build_shr_record (Zpos q) r s) = SpecFloat.Build_shr_record (Zpos q') r' s'.
Proof.
  induction n as [|n IH]; intros q r s Hd.
  - eexists _, _, _. reflexivity.
  - rewrite Nat.iter_succ_r.
    destruct (shr_1_positive q r s) as (q' & r' & s' & -> & Hq); [lia |].
    apply IH. lia.
Qed.

(** Shifting a positive mantissa into its format leaves it positive. *)
Lemma shr_fexp_positive (q : positive) (e : Z) (l : SpecFloat.location) :
  (-1075 < e)%Z ->
  exists q' r' s' e',
    SpecFloat.shr_fexp FloatOps.prec FloatOps.emax (Zpos q) e l = (SpecFloat.Build_shr_record (Zpos q') r' s', e') /\ (e <= e')%Z.
Proof.
  intros He. unfold SpecFloat.shr_fexp, SpecFloat.shr.
  assert (Hrec : exists r s, SpecFloat.shr_record_of_loc (Zpos q) l = SpecFloat.Build_shr_record (Zpos q) r s).
  { destruct l as [|[]]; eexists _, _; reflexivity. }
  destruct Hrec as (r & s & ->).
  assert (Hk : (SpecFloat.fexp FloatOps.prec FloatOps.emax (SpecFloat.Zdigits2 (Zpos q) + e) - e < Zpos (SpecFloat.digits2_pos q))%Z).
  { unfold SpecFloat.fexp, SpecFloat.emin, FloatOps.prec, FloatOps.emax. cbn [SpecFloat.Zdigits2]. lia. }
  destruct (SpecFloat.fexp FloatOps.prec FloatOps.emax (SpecFloat.Zdigits2 (Zpos q) + e) - e)%Z as [|k|k] eqn:Hsh.
  - eexists _, _, _, _. split; [reflexivity | lia].
  - rewrite iter_pos_nat.
    destruct (shr_iter_positive (Pos.to_nat k) q r s) as (q' & r' & s' & ->); [lia |].
    eexists _, _, _, _. split; [reflexivity | lia].
  - eexists _, _, _, _. split; [reflexivity | lia].
Qed.

Lemma binary_round_aux_positive (q : positive) (e : Z) :
  (-1075 < e)%Z ->
  (exists m e', SpecFloat.binary_round_aux FloatOps.prec FloatOps.emax false (Zpos q) e SpecFloat.loc_Exact = SpecFloat.S754_finite false m e')
  \/ SpecFloat.binary_round_aux FloatOps.prec FloatOps.emax false (Zpos q) e SpecFloat.loc_Exact = SpecFloat.S754_infinity false.
Proof.
  intros He. unfold SpecFloat.binary_round_aux.
  destruct (shr_fexp_positive q e SpecFloat.loc_Exact He) as (q1 & r1 & s1 & e1 & -> & He1).
  cbn [SpecFloat.shr_m].
  assert (Hround : exists q2, SpecFloat.round_nearest_even (Zpos q1)
                                (SpecFloat.loc_of_shr_record (SpecFloat.Build_shr_record (Zpos q1) r1 s1)) = Zpos q2).
  { unfold SpecFloat.round_nearest_even. destruct r1, s1; cbn [SpecFloat.loc_of_shr_record Z.add];
      try (eexists; reflexivity).
    destruct (Z.even (Zpos q1)); eexists; reflexivity. }
  destruct Hround as (q2 & ->).
  destruct (shr_fexp_positive q2 e1 SpecFloat.loc_Exact) as (q3 & r3 & s3 & e3 & -> & He3); [lia |].
  cbn [SpecFloat.shr_m]. destruct (e3 <=? FloatOps.emax - FloatOps.prec)%Z; [left; eexists _, _; reflexivity | right; reflexivity].
Qed.

Lemma binary_round_positive (p : positive) :
  (exists m e, SpecFloat.binary_round FloatOps.prec FloatOps.emax false p 0 = SpecFloat.S754_finite false m e)
  \/ SpecFloat.binary_round FloatOps.prec FloatOps.emax false p 0 = SpecFloat.S754_infinity false.
Proof.
  unfold SpecFloat.binary_round, SpecFloat.shl_align.
  assert (Hf : (-53 < SpecFloat.fexp FloatOps.prec FloatOps.emax (Zpos (SpecFloat.digits2_pos p) + 0))%Z).
  { unfold SpecFloat.fexp, SpecFloat.emin, FloatOps.prec, FloatOps.emax. lia. }
  destruct (SpecFloat.fexp FloatOps.prec FloatOps.emax (Zpos (SpecFloat.digits2_pos p) + 0) - 0)%Z eqn:Hd;
    apply binary_round_aux_positive; lia.
Qed.

Lemma number_of_nat_positive (n : nat) :
  (0 < n)%nat -> (Z.of_nat n < 2 ^ 63)%Z ->
  PrimFloat.ltb 0%float (number_of_nat n) = true /\
  PrimFloat.eqb (number_of_nat n) 0%float = false /\
  PrimFloat.eqb (number_of_nat n) (number_of_nat n) = true.
Proof.
  intros Hn Hb. unfold number_of_nat.
  rewrite FloatAxioms.ltb_spec, !FloatAxioms.eqb_spec, FloatAxioms.of_uint63_spec.
  rewrite Uint63.of_Z_spec, Z.mod_small by (change wB with (2 ^ 63)%Z; lia).
  destruct (Z.of_nat n) as [|p|p] eqn:Hz; [lia | | lia].
  change (Prim2SF 0) with (SpecFloat.S754_zero false). cbn [SpecFloat.binary_normalize].
  destruct (binary_round_positive p) as [(m & e & ->) | ->]; cbn.
  - unfold SpecFloat.SFeqb, SpecFloat.SFltb. cbn. rewrite Z.compare_refl, Pos.compare_cont_refl. auto.
  - auto.
Qed.


Lemma length_truthy (x : value) (l : list value) :
  array_sized (x :: l) -> truthy (VNum (number_of_nat (length (x :: l)))) = true.
Proof.
  unfold array_sized. intros Hl.
  destruct (number_of_nat_positive (length (x :: l))) as (_ & H0 & Hx); [cbn; lia | lia |].
  cbn [truthy]. by rewrite H0, Hx.
Qed.

Lemma length_gt_zero `{Host} (x : value) (l : list value) :
  array_sized (x :: l) -> gt_zero (VNum (number_of_nat (length (x :: l)))) = Ok true.
Proof.
  unfold array_sized. intros Hl.
  destruct (number_of_nat_positive (length (x :: l))) as (Hp & _ & _); [cbn; lia | lia |].
  unfold gt_zero. cbn [ToNumber ToNumber_primitive mbind result_bind mret result_ret].
  by rewrite Hp.
Qed.

End Numbers.

(** * The rest of the structured normalizer *)

Section StructuredResults.

Context `{Host}.

Lemma parse_inv (input : string) (r : ParseResult.t) :
  OpenApiParser.parseOpenApiSpec input = Ok r ->
  exists doc, OpenApiParser.decode input = Ok doc /\ OpenApiParser.normalize doc = Ok r.
Proof. unfold OpenApiParser.parseOpenApiSpec. intros Hp. by apply bind_Ok in Hp. Qed.

Lemma or_else_truthy (a b : value) : truthy b = true -> truthy (or_else a b) = true.
Proof. unfold or_else. by destruct (truthy a) eqn:Ha. Qed.

Lemma or_else_empty (a : value) :
  truthy (or_else a (VStr "")) = true \/ or_else a (VStr "") = VStr "".
Proof. unfold or_else. destruct (truthy a) eqn:Ha; auto. Qed.

(** What a successful run of [normalize] returns, field by field. *)
Lemma normalize_fields (doc : value) (r : ParseResult.t) :
  OpenApiParser.normalize doc = Ok r ->
  exists baseUrl auth warnings endpoints tags paginationHints info,
    OpenApiParser.extractAuth doc (truthy (prop doc "swagger")) [] = Ok (auth, warnings) /\
    OpenApiParser.extractEndpoints doc (truthy (prop doc "swagger")) warnings = Ok endpoints /\
    OpenApiParser.buildTagGroups doc endpoints = Ok tags /\
    OpenApiParser.detectPagination endpoints = Ok paginationHints /\
    r = ParseResult.mk
          (ApiSpec.mk (or_else (prop info "title") (VStr "Untitled API"))
             (or_else (prop info "description") (VStr ""))
             (or_else (prop info "version") (VStr "1.0.0"))
             (or_else baseUrl (VStr "https://api.example.com"))
             auth endpoints tags paginationHints
             (OpenApiParser.detectRateLimits endpoints) ApiSpec.openapi)
          warnings
          (if negb (truthy baseUrl)
           then ["TODO: Base URL could not be determined — please set it manually."]
           else []).
Proof.
  unfold OpenApiParser.normalize. intros Hn.
  apply bind_Ok in Hn as (sw & Hsw & Hn).
  apply get_Ok in Hsw; [subst sw | discriminate].
  apply bind_Ok in Hn as (inf & Hinf & Hn).
  apply bind_Ok in Hn as (baseUrl & Hb & Hn).
  apply bind_Ok in Hn as ([auth warnings] & Ha & Hn).
  apply bind_Ok in Hn as (endpoints & He & Hn).
  apply bind_Ok in Hn as (tags & Ht & Hn).
  apply bind_Ok in Hn as (hints & Hh & Hn).
  apply bind_Ok in Hn as (title & Hti & Hn).
  apply bind_Ok in Hn as (description & Hde & Hn).
  apply bind_Ok in Hn as (version & Hve & Hn).
  apply get_Ok in Hti; [subst title | discriminate].
  apply get_Ok in Hde; [subst description | discriminate].
  apply get_Ok in Hve; [subst version | discriminate].
  injection Hn as <-.
  by eexists baseUrl, auth, warnings, endpoints, tags, hints, _.
Qed.

(** [extractAuth] pushes its warning exactly when it reports no scheme. *)
Lemma extractAuth_warning (doc : value) (sw : bool) (ws ws' : list string) (a : AuthScheme.t) :
  OpenApiParser.extractAuth doc sw ws = Ok (a, ws') ->
  a = OpenApiParser.auth_none /\ ws' = ws ++ [OpenApiParser.no_schemes_warning]
  \/ AuthScheme.type a <> AuthScheme.none /\ ws' = ws.
Proof.
  unfold OpenApiParser.extractAuth. intros Ha.
  apply bind_Ok in Ha as (secDefs & _ & Ha).
  apply bind_Ok in Ha as (ks & _ & Ha).
  destruct (negb (truthy secDefs) || (length ks =? 0)%nat).
  { injection Ha as <- <-. by left. }
  right.
  apply bind_Ok in Ha as (vs & _ & Ha).
  apply bind_Ok in Ha as (ty & _ & Ha).
  apply bind_Ok in Ha as (schemeType & _ & Ha).
  repeat match type of Ha with
         | (if ?b then _ else _) = Ok _ => destruct b
         | _ ≫= _ = Ok _ => let x := fresh "x" in apply bind_Ok in Ha as (x & _ & Ha)
         end;
    injection Ha as <- <-; by split.
Qed.

(** X1: in every spec that [parseOpenApiSpec] returns, the title, the
    version and the base URL are truthy, whatever the document leaves out;
    the description is truthy or the empty text; the source type is
    openapi. *)
Theorem structured_headline_is_filled (input : string) (r : ParseResult.t) :
  OpenApiParser.parseOpenApiSpec input = Ok r ->
  truthy (ApiSpec.title (ParseResult.spec r)) = true /\
  truthy (ApiSpec.version (ParseResult.spec r)) = true /\
  truthy (ApiSpec.baseUrl (ParseResult.spec r)) = true /\
  (truthy (ApiSpec.description (ParseResult.spec r)) = true \/
   ApiSpec.description (ParseResult.spec r) = VStr "") /\
  ApiSpec.sourceType (ParseResult.spec r) = ApiSpec.openapi.
Proof.
  intros Hp. apply parse_inv in Hp as (doc & _ & Hn).
  apply normalize_fields in Hn as (b & a & ws & eps & tags & hints & info & _ & _ & _ & _ & ->).
  cbn. repeat split; try (by apply or_else_truthy). apply or_else_empty.
Qed.

(** X2: [parseOpenApiSpec] returns at most one todo and at most one
    warning.  The todo is there exactly when no base URL was found, and the
    base URL is then the placeholder; the warning is there exactly when the
    auth scheme is none. *)
Theorem structured_todos_and_warnings (input : string) (r : ParseResult.t) :
  OpenApiParser.parseOpenApiSpec input = Ok r ->
  (ParseResult.todos r = [] \/
   ParseResult.todos r = ["TODO: Base URL could not be determined — please set it manually."] /\
   ApiSpec.baseUrl (ParseResult.spec r) = VStr "https://api.example.com") /\
  (ParseResult.warnings r = [] /\
   AuthScheme.type (ApiSpec.auth (ParseResult.spec r)) <> AuthScheme.none \/
   ParseResult.warnings r = [OpenApiParser.no_schemes_warning] /\
   ApiSpec.auth (ParseResult.spec r) = OpenApiParser.auth_none).
Proof.
  intros Hp. apply parse_inv in Hp as (doc & _ & Hn).
  apply normalize_fields in Hn as (b & a & ws & eps & tags & hints & info & Ha & _ & _ & _ & ->).
  cbn. split.
  - unfold or_else. destruct (truthy b); [by left | by right].
  - apply extractAuth_warning in Ha as [[-> ->] | [Ht ->]]; [by right | by left].
Qed.

Lemma lower_method_not_length (method : string) :
  In method OpenApiParser.methods -> toLowerCase method <> "length".
Proof. intros [<- | [<- | [<- | [<- | [<- | []]]]]]; discriminate. Qed.

(** What [extractOperation] puts in the endpoint of an operation. *)
Lemma extractOperation_Some (doc : value) (sw : bool) (ws : list string)
    (path : string) (pathItem : value) (method : string) (e : Endpoint.t) :
  In method OpenApiParser.methods ->
  OpenApiParser.extractOperation doc sw ws path pathItem method = Ok (Some e) ->
  exists op params reqBody responses olen dlen,
    op = prop pathItem (toLowerCase method) /\ truthy op = true /\
    OpenApiParser.extractParameters op pathItem sw = Ok params /\
    OpenApiParser.extractRequestBody op sw = Ok reqBody /\
    OpenApiParser.extractResponses op sw ws = Ok responses /\
    get_opt (prop op "security") "length" = Ok olen /\
    get_opt (prop doc "security") "length" = Ok dlen /\
    e = Endpoint.mk (or_else (prop op "operationId") (VStr (default_id method path)))
          method path
          (or_else (prop op "summary") (VStr ""))
          (or_else (prop op "description") (or_else (prop op "summary") (VStr "")))
          (or_else (prop (or_else (prop op "tags") (VArr [VStr "default"])) "0") (VStr "default"))
          (prop op "operationId") params reqBody responses
          (truthy olen || truthy dlen) (Some (truthy (prop op "deprecated"))).
Proof.
  intros Hm. unfold OpenApiParser.extractOperation. intros He.
  apply bind_Ok in He as (op & Hop & He).
  apply get_Ok in Hop; [subst op | by apply lower_method_not_length].
  destruct (truthy (prop pathItem (toLowerCase method))) eqn:Hop; [| discriminate].
  cbn [negb] in He.
  apply bind_Ok in He as (oid & Hoid & He). apply get_Ok in Hoid; [subst oid | discriminate].
  apply bind_Ok in He as (tg & Htg & He). apply get_Ok in Htg; [subst tg | discriminate].
  apply bind_Ok in He as (params & Hparams & He).
  apply bind_Ok in He as (reqBody & HreqBody & He).
  apply bind_Ok in He as (responses & Hresponses & He).
  apply bind_Ok in He as (summary & Hs & He). apply get_Ok in Hs; [subst summary | discriminate].
  apply bind_Ok in He as (description & Hd & He).
  apply get_Ok in Hd; [subst description | discriminate].
  apply bind_Ok in He as (t0 & Ht0 & He). apply get_Ok in Ht0; [subst t0 | discriminate].
  apply bind_Ok in He as (osec & Hosec & He). apply get_Ok in Hosec; [subst osec | discriminate].
  apply bind_Ok in He as (olen & Holen & He).
  apply bind_Ok in He as (dsec & Hdsec & He). apply get_Ok in Hdsec; [subst dsec | discriminate].
  apply bind_Ok in He as (dlen & Hdlen & He).
  apply bind_Ok in He as (dep & Hdep & He). apply get_Ok in Hdep; [subst dep | discriminate].
  injection He as <-.
  by eexists _, params, reqBody, responses, olen, dlen.
Qed.

(** A property of every endpoint that [extractOperation] makes is a
    property of every endpoint of the document. *)
Lemma extractEndpoints_Forall (P : Endpoint.t -> Prop) (doc : value) (sw : bool)
    (ws : list string) (eps : list Endpoint.t) :
  (forall path pathItem method e,
     In (path, pathItem) (own_entries (or_else (prop doc "paths") (VObj []))) ->
     In method OpenApiParser.methods ->
     OpenApiParser.extractOperation doc sw ws path pathItem method = Ok (Some e) -> P e) ->
  OpenApiParser.extractEndpoints doc sw ws = Ok eps -> Forall P eps.
Proof.
  intros HP. unfold OpenApiParser.extractEndpoints. intros He.
  apply bind_Ok in He as (ps & Hps & He).
  apply get_Ok in Hps; [subst ps | discriminate].
  apply bind_Ok in He as (entries & Hentries & He).
  apply Object_entries_Ok in Hentries. subst entries.
  apply bind_Ok in He as (perPath & HperPath & He).
  injection He as <-. apply mapM_Ok in HperPath.
  set (entries := own_entries (or_else (prop doc "paths") (VObj []))) in *.
  assert (Hin : forall x, In x entries -> In x entries) by auto.
  revert HperPath Hin. generalize entries at 1 2. intros l HperPath Hin.
  induction HperPath as [|[path pathItem] os l l' Hx _ IH]; [constructor |].
  cbn [concat]. apply List.Forall_app. split.
  - apply fmap_Ok in Hx as (os' & Hos & ->). apply mapM_Ok in Hos.
    assert (Hms : forall m, In m OpenApiParser.methods -> In m OpenApiParser.methods) by auto.
    revert Hos Hms. generalize OpenApiParser.methods at 1 2. intros ms Hos Hms.
    induction Hos as [|m o ms os'' Hm _ IHo]; [constructor |].
    cbn [omap list_omap]. destruct o as [e|]; cbn.
    + constructor.
      * eapply HP; [apply Hin; by left | apply Hms; by left | exact Hm].
      * apply IHo. intros; apply Hms; by right.
    + apply IHo. intros; apply Hms; by right.
  - apply IH. intros; apply Hin; by right.
Qed.

Lemma default_id_not_empty (method path : string) : default_id method path <> "".
Proof.
  unfold default_id. apply append_not_empty.
  change ("_" +:+ ?x) with (String "_" x). discriminate.
Qed.

(** X3: every endpoint of a spec that [parseOpenApiSpec] returns has one
    of the five methods, a truthy id, which is the operationId when that is
    truthy and the method, an underscore and the path with braces and
    slashes replaced otherwise, a truthy tag, a summary and a description
    that are truthy or the empty text, the description being truthy when
    the summary is, and a deprecated flag. *)
Theorem structured_endpoints_are_filled (input : string) (r : ParseResult.t) :
  OpenApiParser.parseOpenApiSpec input = Ok r ->
  Forall (fun e =>
            In (Endpoint.method e) OpenApiParser.methods /\
            Endpoint.id e = or_else (Endpoint.operationId e)
                              (VStr (default_id (Endpoint.method e) (Endpoint.path e))) /\
            truthy (Endpoint.id e) = true /\
            truthy (Endpoint.tag e) = true /\
            (truthy (Endpoint.summary e) = true \/ Endpoint.summary e = VStr "") /\
            (truthy (Endpoint.description e) = true \/ Endpoint.description e = VStr "") /\
            (truthy (Endpoint.summary e) = true -> truthy (Endpoint.description e) = true) /\
            is_Some (Endpoint.deprecated e))
    (ApiSpec.endpoints (ParseResult.spec r)).
Proof.
  intros Hp. apply parse_inv in Hp as (doc & _ & Hn).
  apply normalize_fields in Hn as (b & a & ws & eps & tags & hints & info & _ & He & _ & _ & ->).
  cbn. eapply extractEndpoints_Forall; [| exact He].
  intros path pathItem method e _ Hm Hop.
  apply extractOperation_Some in Hop
    as (op & params & reqBody & responses & olen & dlen & _ & _ & _ & _ & _ & _ & _ & ->);
    [| exact Hm].
  cbn. repeat split.
  - exact Hm.
  - apply or_else_truthy, truthy_VStr, default_id_not_empty.
  - by apply or_else_truthy.
  - apply or_else_empty.
  - unfold or_else. destruct (truthy (prop op "description")) eqn:Hd; [by left |].
    destruct (truthy (prop op "summary")) eqn:Hs; [by left | by right].
  - unfold or_else. intros Hs. destruct (truthy (prop op "summary")); [| discriminate].
    by destruct (truthy (prop op "description")) eqn:Hd.
  - by eexists.
Qed.

Lemma iterate_declared (v : value) (l : list value) :
  iterate (or_else (prop v "parameters") (VArr [])) = Ok l -> l = declared_parameters v.
Proof.
  unfold declared_parameters.
  destruct (or_else (prop v "parameters") (VArr [])); cbn; congruence.
Qed.

Lemma resolveParamType_truthy (p ty : value) :
  OpenApiParser.resolveParamType p = Ok ty -> truthy ty = true.
Proof.
  unfold OpenApiParser.resolveParamType. intros Hr.
  apply bind_Ok in Hr as (t & _ & Hr).
  destruct (truthy t) eqn:Ht; [by injection Hr as <- |].
  apply bind_Ok in Hr as (schema & _ & Hr).
  destruct (truthy schema); [| by injection Hr as <-].
  apply bind_Ok in Hr as (sty & _ & Hr). injection Hr as <-. by apply or_else_truthy.
Qed.

(** X4: the parameters of an endpoint are those that the path item
    declares followed by those that the operation declares, one for one and
    in the order of the document: a parameter of the operation does not
    take the place of a parameter of the path item that has its name.  Each
    has the name and the location that the document gives it, is required
    when the document's flag is truthy, and has a truthy type. *)
Theorem parameters_of_the_path_item_come_first
    (op pathItem : value) (sw : bool) (ps : list Param.t) :
  OpenApiParser.extractParameters op pathItem sw = Ok ps ->
  Forall2 (fun p d =>
             Param.name p = prop d "name" /\ Param.in_ p = prop d "in" /\
             Param.required p = truthy (prop d "required") /\
             truthy (Param.type p) = true)
    ps (declared_parameters pathItem ++ declared_parameters op).
Proof.
  unfold OpenApiParser.extractParameters. intros He.
  apply bind_Ok in He as (pp & Hpp & He). apply get_Ok in Hpp; [subst pp | discriminate].
  apply bind_Ok in He as (r1 & Hr1 & He). apply iterate_declared in Hr1. subst r1.
  apply bind_Ok in He as (opp & Hopp & He). apply get_Ok in Hopp; [subst opp | discriminate].
  apply bind_Ok in He as (r2 & Hr2 & He). apply iterate_declared in Hr2. subst r2.
  apply mapM_Ok in He. apply Forall2_flip.
  eapply Forall2_impl; [exact He |].
  intros d p Hp. cbn in Hp.
  apply bind_Ok in Hp as (name & Hname & Hp). apply get_Ok in Hname; [subst name | discriminate].
  apply bind_Ok in Hp as (loc & Hloc & Hp). apply get_Ok in Hloc; [subst loc | discriminate].
  apply bind_Ok in Hp as (req & Hreq & Hp). apply get_Ok in Hreq; [subst req | discriminate].
  apply bind_Ok in Hp as (desc & _ & Hp).
  apply bind_Ok in Hp as (ty & Hty & Hp). apply resolveParamType_truthy in Hty.
  apply bind_Ok in Hp as (dflt & _ & Hp).
  apply bind_Ok in Hp as (dflt' & _ & Hp).
  apply bind_Ok in Hp as (enum & _ & Hp).
  apply bind_Ok in Hp as (ex & _ & Hp).
  apply bind_Ok in Hp as (ex' & _ & Hp).
  by injection Hp as <-.
Qed.

(** X5: the names of the fields that [flattenSchema] returns for a schema:
    none for a falsy schema; for a schema of type object or with
    properties, the names of the properties, in the order in which
    [Object.entries] lists them, which is not the order of the document
    when a name is an array index: those names come first, in ascending
    order; for a schema of type array, the name items; for any other
    schema, a reference among them, the name value. *)
Theorem flattenSchema_fields (schema : value) (fields : list SchemaField.t) :
  OpenApiParser.flattenSchema schema = Ok fields ->
  map SchemaField.name fields =
    if negb (truthy schema) then []
    else if is_str (prop schema "type") "object" || truthy (prop schema "properties")
    then map fst (own_entries (or_else (prop schema "properties") (VObj [])))
    else if is_str (prop schema "type") "array" then ["items"]
    else ["value"].
Proof.
  unfold OpenApiParser.flattenSchema.
  destruct stack_room as [|room]; [discriminate |]. cbn [OpenApiParser.flattenSchema_fuel].
  destruct (negb (truthy schema)); [by intros [= <-] |].
  intros Hf.
  apply bind_Ok in Hf as (type & Htype & Hf). apply get_Ok in Htype; [subst type | discriminate].
  apply bind_Ok in Hf as (props & Hprops & Hf).
  apply get_Ok in Hprops; [subst props | discriminate].
  destruct (is_str (prop schema "type") "object" || truthy (prop schema "properties")).
  - apply bind_Ok in Hf as (req & _ & Hf).
    apply bind_Ok in Hf as (entries & Hentries & Hf).
    apply Object_entries_Ok in Hentries. subst entries.
    apply mapM_Ok in Hf.
    induction Hf as [|[name p] fld l l' Hx _ IH]; [reflexivity |].
    cbn [map fst]. rewrite IH. f_equal.
    repeat (let x := fresh "x" in apply bind_Ok in Hx as (x & _ & Hx)).
    by injection Hx as <-.
  - destruct (is_str (prop schema "type") "array").
    + repeat (let x := fresh "x" in apply bind_Ok in Hf as (x & _ & Hf)).
      by injection Hf as <-.
    + apply bind_Ok in Hf as (desc & _ & Hf). by injection Hf as <-.
Qed.

Lemma filed_ids_tag_push (tag id : value) (m : list TagGroup.t) :
  filed_ids (OpenApiParser.tag_push tag id m) ≡ₚ id :: filed_ids m.
Proof.
  unfold filed_ids. induction m as [|g m IH]; [reflexivity |].
  cbn [OpenApiParser.tag_push]. destruct (OpenApiParser.same_value_zero (TagGroup.name g) tag); cbn.
  - rewrite <- app_assoc. cbn. by rewrite <- Permutation_middle.
  - rewrite IH. by rewrite <- Permutation_middle.
Qed.

Lemma filed_ids_fold (f : Endpoint.t -> value) (eps : list Endpoint.t) :
  forall m,
    filed_ids (fold_left (fun m ep => OpenApiParser.tag_push (f ep) (Endpoint.id ep) m) eps m)
    ≡ₚ filed_ids m ++ map Endpoint.id eps.
Proof.
  induction eps as [|ep eps IH]; intros m; cbn [fold_left map].
  - by rewrite app_nil_r.
  - rewrite IH, filed_ids_tag_push. by rewrite <- Permutation_middle.
Qed.

Lemma filed_ids_tag_set (name description : value) (m : list TagGroup.t) :
  filed_ids m = [] -> filed_ids (OpenApiParser.tag_set name description m) = [].
Proof.
  unfold filed_ids. induction m as [|g m IH]; [reflexivity |]. cbn.
  intros Hm. apply app_eq_nil in Hm as [Hg Hm].
  destruct (OpenApiParser.same_value_zero (TagGroup.name g) name); cbn; [exact Hm |].
  by rewrite Hg, IH.
Qed.

Lemma filed_ids_declare_tags (tagDefs : list value) :
  forall m m', OpenApiParser.declare_tags tagDefs m = Ok m' -> filed_ids m = [] -> filed_ids m' = [].
Proof.
  induction tagDefs as [|td tagDefs IH]; intros m m' Hd Hm; cbn in Hd.
  - by injection Hd as <-.
  - apply bind_Ok in Hd as (name & _ & Hd). apply bind_Ok in Hd as (description & _ & Hd).
    eapply IH; [exact Hd |]. by apply filed_ids_tag_set.
Qed.

Lemma buildTagGroups_filed
    (doc : value) (endpoints : list Endpoint.t) (groups : list TagGroup.t) :
  OpenApiParser.buildTagGroups doc endpoints = Ok groups ->
  filed_ids groups ≡ₚ map Endpoint.id endpoints.
Proof.
  unfold OpenApiParser.buildTagGroups. intros Hb.
  apply bind_Ok in Hb as (tg & _ & Hb). apply bind_Ok in Hb as (tagDefs & _ & Hb).
  apply bind_Ok in Hb as (m & Hm & Hb). injection Hb as <-.
  apply filed_ids_declare_tags in Hm; [| reflexivity].
  by rewrite filed_ids_fold, Hm.
Qed.

Lemma lower_unit_not_capital_S (c : ascii) : lower_unit c <> "S"%char.
Proof. by destruct c as [[] [] [] [] [] [] [] []]; vm_compute. Qed.

Lemma lower_keyword (n : string) :
  mem (toLowerCase n) OpenApiParser.PAGINATION_KEYWORDS = true ->
  In (toLowerCase n) live_keywords.
Proof.
  unfold mem. intros Hm. apply existsb_exists in Hm as (k & Hk & Heq).
  apply String.eqb_eq in Heq. rewrite Heq.
  cbn in Hk. repeat (destruct Hk as [<- | Hk]); try (cbn; auto 10; fail).
  exfalso. apply (f_equal chars) in Heq. unfold toLowerCase in Heq. rewrite chars_str in Heq.
  destruct (chars n) as [|c1 [|c2 [|c3 [|c4 [|c5 l]]]]]; try discriminate.
  cbn in Heq. injection Heq as _ _ _ _ Heq _. by apply lower_unit_not_capital_S in Heq.
Qed.

Lemma paginate_params_paginated (Q : Param.t -> Prop) (ps : list Param.t) :
  (forall p, In p ps -> Q p) ->
  forall st st',
    paginated Q st -> OpenApiParser.paginate_params ps st = Ok st' -> paginated Q st'.
Proof.
  induction ps as [|p ps IH]; intros HQ st st' Hst Hp;
    cbn [OpenApiParser.paginate_params] in Hp.
  - by injection Hp as <-.
  - apply bind_Ok in Hp as (lowerName & Hl & Hp).
    destruct (Param.name p) as [| | | |n| |] eqn:Hname; cbn in Hl; try discriminate.
    injection Hl as <-.
    destruct (mem (toLowerCase n) OpenApiParser.PAGINATION_KEYWORDS
              && negb (bool_decide (toLowerCase n ∈ st.2))) eqn:Hnew.
    + apply andb_true_iff in Hnew as [Hkw Hseen].
      apply negb_true_iff, bool_decide_eq_false in Hseen.
      apply bind_Ok in Hp as (description & _ & Hp).
      eapply IH; [intros; apply HQ; by right | | exact Hp].
      destruct Hst as (Hnd & Hset & Hall). unfold paginated. cbn [fst snd].
      rewrite map_app. cbn [map hint_key PaginationHint.parameters].
      split; [| split].
      * apply NoDup_app. split; [exact Hnd |]. split.
        -- intros k Hk [<- | []]%list_elem_of_In. apply Hseen, Hset. by apply list_elem_of_In.
        -- apply NoDup_singleton.
      * intros k. rewrite elem_of_union, elem_of_singleton, in_app_iff, Hset. cbn. intuition.
      * apply List.Forall_app. split; [exact Hall |]. constructor; [| constructor].
        cbn [hint_key PaginationHint.parameters PaginationHint.type].
        split; [by apply lower_keyword |]. split; [reflexivity |].
        exists p, n. split; [apply HQ; by left | by split].
    + eapply IH; [intros; apply HQ; by right | exact Hst | exact Hp].
Qed.

Lemma paginate_endpoints_paginated (Q : Param.t -> Prop) (eps : list Endpoint.t) :
  (forall e p, In e eps -> In p (Endpoint.parameters e) -> Q p) ->
  forall st st',
    paginated Q st -> OpenApiParser.paginate_endpoints eps st = Ok st' -> paginated Q st'.
Proof.
  induction eps as [|e eps IH]; intros HQ st st' Hst Hp;
    cbn [OpenApiParser.paginate_endpoints] in Hp.
  - by injection Hp as <-.
  - apply bind_Ok in Hp as (st1 & Hst1 & Hp).
    eapply IH; [intros; eapply HQ; [by right | eassumption] | | exact Hp].
    eapply paginate_params_paginated; [| exact Hst | exact Hst1].
    intros p Hin. eapply HQ; [by left | exact Hin].
Qed.

Lemma detectPagination_paginated (endpoints : list Endpoint.t) (hints : list PaginationHint.t) :
  OpenApiParser.detectPagination endpoints = Ok hints ->
  length hints <= 8 /\
  NoDup (map hint_key hints) /\
  Forall (fun h =>
            In (hint_key h) live_keywords /\
            PaginationHint.type h = OpenApiParser.pagination_kind (hint_key h) /\
            exists e p n, In e endpoints /\ In p (Endpoint.parameters e) /\
                          Param.name p = VStr n /\ PaginationHint.parameters h = [VStr n])
    hints.
Proof.
  unfold OpenApiParser.detectPagination. intros Hd.
  apply fmap_Ok in Hd as (st & Hst & ->).
  apply (paginate_endpoints_paginated
           (fun p => exists e, In e endpoints /\ In p (Endpoint.parameters e))) in Hst.
  - destruct Hst as (Hnd & _ & Hall). split; [| split; [exact Hnd |]].
    + rewrite <- (length_map hint_key). change 8 with (length live_keywords).
      apply NoDup_incl_length; [by apply NoDup_ListNoDup |].
      intros k Hk. apply in_map_iff in Hk as (h & <- & Hh).
      rewrite List.Forall_forall in Hall. by apply Hall.
    + eapply Forall_impl; [exact Hall |].
      intros h (Hk & Ht & p & n & (e & He & Hp) & Hn & Hh). split; [exact Hk |].
      split; [exact Ht |]. by exists e, p, n.
  - intros e p He Hp. by exists e.
  - split; [constructor |]. split; [| constructor].
    intros k. cbn. rewrite elem_of_empty. tauto.
Qed.

(** X6: the tag groups of a spec that [parseOpenApiSpec] returns file
    every endpoint in one group and only once: the ids listed by the
    groups, declared in the document or not, are the ids of the endpoints,
    each as often as it occurs among them. *)
Theorem every_endpoint_is_filed_once (input : string) (r : ParseResult.t) :
  OpenApiParser.parseOpenApiSpec input = Ok r ->
  filed_ids (ApiSpec.tags (ParseResult.spec r))
  ≡ₚ map Endpoint.id (ApiSpec.endpoints (ParseResult.spec r)).
Proof.
  intros Hp. apply parse_inv in Hp as (doc & _ & Hn).
  apply normalize_fields in Hn as (b & a & ws & eps & tags & hints & info & _ & _ & Ht & _ & ->).
  cbn. by apply buildTagGroups_filed in Ht.
Qed.

(** X7: a spec that [parseOpenApiSpec] returns has at most eight
    pagination hints, no two under the same lower-case name.  Each hint
    carries the name of a parameter of some endpoint, as the document spells
    it; in lower case that name is one of page, limit, offset, cursor,
    after, before, per_page and page_size, and it decides the type of the
    hint.  No hint is recorded for the keyword pageSize. *)
Theorem pagination_hints_are_few (input : string) (r : ParseResult.t) :
  OpenApiParser.parseOpenApiSpec input = Ok r ->
  length (ApiSpec.paginationHints (ParseResult.spec r)) <= 8 /\
  NoDup (map hint_key (ApiSpec.paginationHints (ParseResult.spec r))) /\
  Forall (fun h =>
            In (hint_key h) live_keywords /\
            PaginationHint.type h = OpenApiParser.pagination_kind (hint_key h) /\
            exists e p n, In e (ApiSpec.endpoints (ParseResult.spec r)) /\
                          In p (Endpoint.parameters e) /\
                          Param.name p = VStr n /\ PaginationHint.parameters h = [VStr n])
    (ApiSpec.paginationHints (ParseResult.spec r)).
Proof.
  intros Hp. apply parse_inv in Hp as (doc & _ & Hn).
  apply normalize_fields in Hn as (b & a & ws & eps & tags & hints & info & _ & _ & _ & Hh & ->).
  cbn. by apply detectPagination_paginated.
Qed.

(** X8: for a document without a truthy swagger key, the base URL is the
    url of the first entry of a non-empty servers array, as the document
    spells it, and no todo is recorded when that url is truthy; without a
    servers array, or with an empty one, the base URL is the placeholder and
    the todo is recorded. *)
Theorem openapi3_base_url (input : string) (doc : value) (r : ParseResult.t) :
  OpenApiParser.decode input = Ok doc ->
  truthy (prop doc "swagger") = false ->
  OpenApiParser.parseOpenApiSpec input = Ok r ->
  (forall s0 rest,
     prop doc "servers" = VArr (s0 :: rest) -> array_sized (s0 :: rest) ->
     ApiSpec.baseUrl (ParseResult.spec r)
     = or_else (prop s0 "url") (VStr "https://api.example.com") /\
     (truthy (prop s0 "url") = true -> ParseResult.todos r = [])) /\
  (prop doc "servers" = VUndefined \/ prop doc "servers" = VArr [] ->
   ApiSpec.baseUrl (ParseResult.spec r) = VStr "https://api.example.com" /\
   ParseResult.todos r = ["TODO: Base URL could not be determined — please set it manually."]).
Proof.
  intros Hd Hsw Hp. apply (parse_Ok _ _ _ Hd) in Hp.
  apply normalize_Ok
    in Hp as (b & a & ws & eps & tags & hints & t & d & v & Hu & Hn & Hb & _ & _ & _ & _ & ->).
  cbv zeta in Hb. rewrite Hsw in Hb. unfold OpenApiParser.extractBaseUrl in Hb.
  rewrite get_defined in Hb by (done || discriminate). cbn [mbind result_bind] in Hb.
  cbn [ParseResult.spec ParseResult.todos ApiSpec.baseUrl]. split.
  - intros s0 rest Hs Hsize. rewrite Hs in Hb.
    cbn [truthy get String.eqb Ascii.eqb Bool.eqb mbind result_bind] in Hb.
    rewrite (length_gt_zero s0 rest Hsize) in Hb. cbn [mbind result_bind] in Hb.
    change (get (VArr (s0 :: rest)) "0") with (Ok s0) in Hb. cbn [mbind result_bind] in Hb.
    apply get_Ok in Hb; [subst b | discriminate].
    change (assoc "0" (own_entries (VArr (s0 :: rest)))) with s0.
    split; [reflexivity |]. by intros ->.
  - intros [Hs | Hs]; rewrite Hs in Hb; by injection Hb as <-.
Qed.

(** X9: when the document declares a non-empty security array, every
    endpoint requires authentication: an operation cannot opt out with a
    security array of its own, empty or not. *)
Theorem document_security_covers_every_endpoint
    (input : string) (doc : value) (r : ParseResult.t) (x : value) (xs : list value) :
  OpenApiParser.decode input = Ok doc ->
  prop doc "security" = VArr (x :: xs) -> array_sized (x :: xs) ->
  OpenApiParser.parseOpenApiSpec input = Ok r ->
  Forall (fun e => Endpoint.auth e = true) (ApiSpec.endpoints (ParseResult.spec r)).
Proof.
  intros Hd Hsec Hsize Hp. apply (parse_Ok _ _ _ Hd) in Hp.
  apply normalize_fields in Hp as (b & a & ws & eps & tags & hints & info & _ & He & _ & _ & ->).
  cbn. eapply extractEndpoints_Forall; [| exact He].
  intros path pathItem method e _ Hm Hop.
  apply extractOperation_Some in Hop
    as (op & params & reqBody & responses & olen & dlen & _ & _ & _ & _ & _ & _ & Hdlen & ->);
    [| exact Hm].
  cbn [Endpoint.auth]. rewrite Hsec in Hdlen. injection Hdlen as <-.
  pose proof (length_truthy x xs Hsize) as Ht. cbn [length] in Ht.
  rewrite Ht. apply orb_true_r.
Qed.

End StructuredResults.

(** ** Closed instances of the properties of the structured normalizer *)

Lemma structured_headline_witness :
  exists r,
    @OpenApiParser.parseOpenApiSpec Reference.host empty_input = Ok r /\
    truthy (ApiSpec.title (ParseResult.spec r)) = true /\
    truthy (ApiSpec.version (ParseResult.spec r)) = true /\
    truthy (ApiSpec.baseUrl (ParseResult.spec r)) = true /\
    (truthy (ApiSpec.description (ParseResult.spec r)) = true \/
     ApiSpec.description (ParseResult.spec r) = VStr "") /\
    ApiSpec.sourceType (ParseResult.spec r) = ApiSpec.openapi.
Proof.
  eexists. split; [vm_compute; reflexivity |].
  apply (@structured_headline_is_filled Reference.host empty_input).
  vm_compute. reflexivity.
Defined.

Lemma structured_todos_and_warnings_witness :
  exists r,
    @OpenApiParser.parseOpenApiSpec Reference.host empty_input = Ok r /\
    ParseResult.todos r = ["TODO: Base URL could not be determined — please set it manually."] /\
    ApiSpec.baseUrl (ParseResult.spec r) = VStr "https://api.example.com" /\
    ParseResult.warnings r = [OpenApiParser.no_schemes_warning] /\
    ApiSpec.auth (ParseResult.spec r) = OpenApiParser.auth_none.
Proof.
  eexists. split; [vm_compute; reflexivity |].
  destruct (@structured_todos_and_warnings Reference.host empty_input _ eq_refl)
    as [[Ht | [Ht Hb]] [[Hw Ha] | [Hw Ha]]]; try discriminate Ht; try discriminate Hw.
  repeat split; assumption.
Defined.

Lemma structured_endpoints_witness :
  exists r,
    @OpenApiParser.parseOpenApiSpec Reference.host petstore_input = Ok r /\
    map Endpoint.id (ApiSpec.endpoints (ParseResult.spec r))
    = [VStr "GET__pets"; VStr "POST__pets"; VStr "removePet"] /\
    Forall (fun e =>
              In (Endpoint.method e) OpenApiParser.methods /\
              Endpoint.id e = or_else (Endpoint.operationId e)
                                (VStr (default_id (Endpoint.method e) (Endpoint.path e))) /\
              truthy (Endpoint.id e) = true /\
              truthy (Endpoint.tag e) = true /\
              (truthy (Endpoint.summary e) = true \/ Endpoint.summary e = VStr "") /\
              (truthy (Endpoint.description e) = true \/ Endpoint.description e = VStr "") /\
              (truthy (Endpoint.summary e) = true -> truthy (Endpoint.description e) = true) /\
              is_Some (Endpoint.deprecated e))
      (ApiSpec.endpoints (ParseResult.spec r)).
Proof.
  eexists. split; [vm_compute; reflexivity |]. split; [reflexivity |].
  apply (@structured_endpoints_are_filled Reference.host petstore_input).
  vm_compute. reflexivity.
Defined.

Lemma parameters_witness :
  exists ps,
    @OpenApiParser.extractParameters Reference.host shared_op shared_item false = Ok ps /\
    map Param.name ps = [VStr "id"; VStr "id"] /\
    map Param.in_ ps = [VStr "path"; VStr "query"] /\
    Forall2 (fun p d =>
               Param.name p = prop d "name" /\ Param.in_ p = prop d "in" /\
               Param.required p = truthy (prop d "required") /\
               truthy (Param.type p) = true)
      ps (declared_parameters shared_item ++ declared_parameters shared_op).
Proof.
  eexists. split; [vm_compute; reflexivity |]. split; [reflexivity |]. split; [reflexivity |].
  apply (@parameters_of_the_path_item_come_first Reference.host shared_op shared_item false).
  vm_compute. reflexivity.
Defined.

Lemma flattenSchema_witness :
  (exists fields,
     @OpenApiParser.flattenSchema Reference.host ref_schema = Ok fields /\
     map SchemaField.name fields = ["value"] /\
     map SchemaField.type fields = [VStr "string"]) /\
  (exists schema fields,
     @JSON_parse Reference.host numbered_schema_input = Some schema /\
     @OpenApiParser.flattenSchema Reference.host schema = Ok fields /\
     map SchemaField.name fields = ["2"; "10"; "b"]).
Proof.
  split.
  - eexists. split; [vm_compute; reflexivity |]. split; [| reflexivity].
    apply (@flattenSchema_fields Reference.host ref_schema). vm_compute. reflexivity.
  - eexists _, _. split; [vm_compute; reflexivity |].
    lazymatch goal with
    | |- OpenApiParser.flattenSchema ?schema = Ok _ /\ _ =>
        split; [vm_compute; reflexivity |];
        apply (@flattenSchema_fields Reference.host schema); vm_compute; reflexivity
    end.
Defined.

Lemma every_endpoint_is_filed_once_witness :
  exists r,
    @OpenApiParser.parseOpenApiSpec Reference.host petstore_input = Ok r /\
    map (fun g => (TagGroup.name g, TagGroup.endpointIds g)) (ApiSpec.tags (ParseResult.spec r))
    = [(VStr "pets", [VStr "GET__pets"]); (VStr "unused", []);
       (VStr "default", [VStr "POST__pets"; VStr "removePet"])] /\
    filed_ids (ApiSpec.tags (ParseResult.spec r))
    ≡ₚ map Endpoint.id (ApiSpec.endpoints (ParseResult.spec r)).
Proof.
  eexists. split; [vm_compute; reflexivity |]. split; [reflexivity |].
  apply (@every_endpoint_is_filed_once Reference.host petstore_input).
  vm_compute. reflexivity.
Defined.

Lemma pagination_hints_witness :
  exists r,
    @OpenApiParser.parseOpenApiSpec Reference.host petstore_input = Ok r /\
    map PaginationHint.parameters (ApiSpec.paginationHints (ParseResult.spec r))
    = [[VStr "limit"]; [VStr "Cursor"]] /\
    length (ApiSpec.paginationHints (ParseResult.spec r)) <= 8 /\
    NoDup (map hint_key (ApiSpec.paginationHints (ParseResult.spec r))).
Proof.
  eexists. split; [vm_compute; reflexivity |]. split; [reflexivity |].
  destruct (@pagination_hints_are_few Reference.host petstore_input _ eq_refl) as (Hl & Hnd & _).
  by split.
Defined.

Lemma openapi3_base_url_witness :
  exists r,
    @OpenApiParser.parseOpenApiSpec Reference.host secured_input = Ok r /\
    ApiSpec.baseUrl (ParseResult.spec r) = VStr "https://x.io/" /\
    ParseResult.todos r = [].
Proof.
  assert (Hp : exists r, @OpenApiParser.parseOpenApiSpec Reference.host secured_input = Ok r)
    by (eexists; vm_compute; reflexivity).
  destruct Hp as [r Hp]. exists r. split; [exact Hp |].
  assert (Hd : @OpenApiParser.decode Reference.host secured_input = Ok secured_doc)
    by (vm_compute; reflexivity).
  destruct (proj1 (@openapi3_base_url Reference.host secured_input secured_doc r Hd eq_refl Hp)
              (VObj [("url", VStr "https://x.io/")]) [] eq_refl) as [Hb Ht].
  - unfold array_sized. cbn. lia.
  - split; [exact Hb | by apply Ht].
Defined.

Lemma document_security_witness :
  exists r e,
    @OpenApiParser.parseOpenApiSpec Reference.host secured_input = Ok r /\
    ApiSpec.endpoints (ParseResult.spec r) = [e] /\ Endpoint.auth e = true.
Proof.
  assert (Hp : exists r e, @OpenApiParser.parseOpenApiSpec Reference.host secured_input = Ok r /\
                           ApiSpec.endpoints (ParseResult.spec r) = [e])
    by (eexists _, _; split; [vm_compute; reflexivity | reflexivity]).
  destruct Hp as (r & e & Hp & He). exists r, e. split; [exact Hp |]. split; [exact He |].
  assert (Hd : @OpenApiParser.decode Reference.host secured_input = Ok secured_doc)
    by (vm_compute; reflexivity).
  assert (Hall := @document_security_covers_every_endpoint Reference.host secured_input
                    secured_doc r (VObj [("k", VArr [])]) [] Hd eq_refl).
  rewrite He in Hall.
  assert (Hsize : array_sized [VObj [("k", VArr [])]]) by (unfold array_sized; cbn; lia).
  exact (Forall_inv (Hall Hsize Hp)).
Defined.

(** * The rest of the free-text normalizer *)

Section Captures.

Import Regex.

Lemma sub_app_l (i n : nat) (w1 w2 : list ascii) :
  i + n <= length w1 -> firstn n (skipn i (w1 ++ w2)) = firstn n (skipn i w1).
Proof.
  intros Hn. rewrite skipn_app, firstn_app.
  replace (n - length (skipn i w1)) with 0 by (rewrite length_skipn; lia).
  by rewrite firstn_0, app_nil_r.
Qed.

Lemma sub_app_r (i n : nat) (w1 w2 : list ascii) :
  length w1 <= i -> firstn n (skipn i (w1 ++ w2)) = firstn n (skipn (i - length w1) w2).
Proof. intros Hi. rewrite skipn_app, (skipn_all2 w1) by lia. reflexivity. Qed.

Lemma span_of_In (n : nat) (g : list (nat * (nat * nat))) (sp : nat * nat) :
  span_of n g = Some sp -> In (n, sp) g.
Proof.
  induction g as [|[n' sp'] g IH]; cbn; [discriminate |].
  destruct (n =? n')%nat eqn:Hn.
  - apply Nat.eqb_eq in Hn as ->. intros [= ->]. by left.
  - intros Hs. right. by apply IH.
Qed.

(** A successful run recorded, for each group that it went through, the
    span of a text that the group can hold, within the text consumed. *)
Lemma run_captures (r : Regex.t) :
  forall c k res,
    run r c k = Some res ->
    exists w c',
      lang r w /\ rest c = w ++ rest c' /\ pos c' = pos c + length w /\
      (exists g', groups c' = g' ++ groups c /\
                  forall n a b, In (n, (a, b)) g' ->
                    pos c <= a /\ a <= b /\ b <= pos c' /\
                    captured n r (firstn (b - a) (skipn (a - pos c) w))) /\
      k c' = Some res.
Proof.
  assert (Hstay : forall c (k : cursor -> option cursor) res r0,
             lang r0 [] -> k c = Some res ->
             exists w c', lang r0 w /\ rest c = w ++ rest c' /\ pos c' = pos c + length w /\
               (exists g', groups c' = g' ++ groups c /\
                           forall n a b, In (n, (a, b)) g' ->
                             pos c <= a /\ a <= b /\ b <= pos c' /\
                             captured n r0 (firstn (b - a) (skipn (a - pos c) w))) /\
               k c' = Some res).
  { intros c k res r0 Hl Hk. exists [], c. cbn. rewrite Nat.add_0_r.
    repeat split; try done. exists []. split; [done |]. intros n a b []. }
  induction r as [|class|r1 IH1 r2 IH2|r1 IH1 r2 IH2|class|r1 IH1|m r1 IH1| | | |];
    intros c k res Hrun; cbn [run] in Hrun.
  - by apply Hstay.
  - destruct (rest c) as [|x l] eqn:Hrest; [discriminate |].
    destruct (class x) eqn:Hx; [| discriminate].
    exists [x], (Cursor (Some x) l (S (pos c)) (groups c)). cbn.
    repeat split; eauto; try lia.
    exists []. split; [done |]. intros n a b [].
  - apply IH1 in Hrun as (w1 & c1 & Hl1 & Hr1 & Hp1 & (g1 & Hg1 & Hs1) & Hrun).
    apply IH2 in Hrun as (w2 & c2 & Hl2 & Hr2 & Hp2 & (g2 & Hg2 & Hs2) & Hk).
    exists (w1 ++ w2), c2. cbn [lang captured]. repeat split.
    + eauto.
    + by rewrite Hr1, Hr2, app_assoc.
    + rewrite Hp2, Hp1, length_app. lia.
    + exists (g2 ++ g1). split; [by rewrite Hg2, Hg1, app_assoc |].
      intros n a b Hin. apply in_app_iff in Hin as [Hin | Hin].
      * apply Hs2 in Hin as (Ha & Hab & Hb & Hc).
        repeat split; try lia. right.
        rewrite sub_app_r by lia. by replace (a - pos c - length w1) with (a - pos c1) by lia.
      * apply Hs1 in Hin as (Ha & Hab & Hb & Hc).
        repeat split; try lia. left. rewrite sub_app_l by lia. exact Hc.
    + exact Hk.
  - destruct (run r1 c k) as [c'|] eqn:H1.
    + injection Hrun as <-.
      apply IH1 in H1 as (w & c1 & Hl & Hr & Hp & (g1 & Hg & Hs) & Hk).
      exists w, c1. cbn [lang captured]. repeat split; eauto.
      exists g1. split; [done |]. intros n a b Hin.
      apply Hs in Hin as (Ha & Hab & Hb & Hc). repeat split; auto.
    + apply IH2 in Hrun as (w & c1 & Hl & Hr & Hp & (g1 & Hg & Hs) & Hk).
      exists w, c1. cbn [lang captured]. repeat split; eauto.
      exists g1. split; [done |]. intros n a b Hin.
      apply Hs in Hin as (Ha & Hab & Hb & Hc). repeat split; auto.
  - apply star_sound in Hrun as (w & l' & b' & Hl & Hw & Hk).
    exists w, (Cursor b' l' (pos c + length w) (groups c)). cbn.
    repeat split; eauto. exists []. split; [done |]. intros n a b [].
  - destruct (run r1 c k) as [c'|] eqn:H1.
    + injection Hrun as <-.
      apply IH1 in H1 as (w & c1 & Hl & Hr & Hp & (g1 & Hg & Hs) & Hk).
      exists w, c1. cbn [lang captured]. repeat split; eauto.
    + apply Hstay; [by left | done].
  - apply IH1 in Hrun as (w & c1 & Hl & Hr & Hp & (g1 & Hg & Hs) & Hk).
    exists w, (set_group m (pos c, pos c1) c1). cbn. repeat split; eauto.
    exists ((m, (pos c, pos c1)) :: g1). split; [by rewrite Hg |].
    intros n a b [[= <- <- <-] | Hin].
    + repeat split; try lia. left. split; [done |].
      replace (pos c1 - pos c) with (length w) by lia.
      by rewrite Nat.sub_diag, skipn_0, firstn_all.
    + apply Hs in Hin as (Ha & Hab & Hb & Hc). repeat split; auto.
  - apply Hstay; [done |]. by destruct (xorb _ _).
  - apply Hstay; [done |].
    destruct (before c) as [x|]; [by destruct (line_terminator x) | done].
  - apply Hstay; [done |].
    destruct (rest c) as [|x l]; [done | by destruct (line_terminator x)].
  - apply Hstay; [done |]. by destruct (rest c).
Qed.


Lemma search_captures (r : Regex.t) (l : list ascii) :
  forall b p m,
    search r b l p = Some m ->
    exists skipped w l',
      l = skipped ++ w ++ l' /\ index m = p + length skipped /\
      stop m = index m + length w /\ lang r w /\
      forall n a b0, In (n, (a, b0)) (captures m) ->
        index m <= a /\ a <= b0 /\ b0 <= stop m /\
        captured n r (firstn (b0 - a) (skipn (a - index m) w)).
Proof.
  assert (Hhere : forall b l p c,
             run r (Cursor b l p []) Some = Some c ->
             exists skipped w l',
               l = skipped ++ w ++ l' /\ p = p + length skipped /\
               pos c = p + length w /\ lang r w /\
               forall n a b0, In (n, (a, b0)) (groups c) ->
                 p <= a /\ a <= b0 /\ b0 <= pos c /\
                 captured n r (firstn (b0 - a) (skipn (a - p) w))).
  { intros b l0 p c Hrun.
    apply run_captures in Hrun as (w & c' & Hl & Hr & Hp & (g' & Hg & Hs) & [= <-]).
    cbn in *. exists [], w, (rest c'). cbn. rewrite Nat.add_0_r.
    do 4 (split; [done |]). intros n a b0 Hin. rewrite Hg, app_nil_r in Hin.
    apply Hs in Hin. intuition lia. }
  induction l as [|x l IH]; intros b p m; cbn [search].
  - destruct (run r _ Some) as [c|] eqn:Hrun; [| discriminate].
    intros [= <-]. cbn. by apply Hhere in Hrun.
  - destruct (run r _ Some) as [c|] eqn:Hrun.
    + intros [= <-]. cbn. by apply Hhere in Hrun.
    + intros Hs. apply IH in Hs as (skipped & w & l' & -> & Hi & Hst & Hl & Hg).
      exists (x :: skipped), w, l'. cbn. split; [done |]. split; [lia |].
      split; [done |]. split; [done |]. exact Hg.
Qed.

(** The text of a group of a match is one that the group can hold. *)
Lemma group_captured (r : Regex.t) (text : string) (i n : nat) (m : Match) (s : string) :
  exec r text i = Some m -> group_opt text m n = Some s -> captured n r (chars s).
Proof.
  unfold exec, group_opt. intros He Hg.
  destruct (seek i None (chars text) 0) as [[[b l] p]|] eqn:Hseek; [| discriminate].
  apply seek_Some in Hseek as (-> & -> & Hi).
  apply search_captures in He as (skipped & w & l' & Hl & Him & Hst & _ & Hcap).
  destruct (span_of n (captures m)) as [[a b0]|] eqn:Hsp; [| discriminate].
  injection Hg as <-. apply span_of_In, Hcap in Hsp as (Ha & Hab & Hb & Hc).
  unfold slice. rewrite chars_str.
  rewrite <- (firstn_skipn i (chars text)), Hl.
  assert (Hlen : length (firstn i (chars text)) = i) by (rewrite length_firstn; lia).
  rewrite (app_assoc _ skipped), sub_app_r by (rewrite length_app; lia).
  rewrite sub_app_l by (rewrite length_app; lia).
  rewrite length_app, Hlen. by replace (a - (i + length skipped)) with (a - index m) by lia.
Qed.

Lemma each_match_matches {S : Type} (P : S -> Prop) (r : Regex.t) (text : string)
    (body : Match -> S -> result S) :
  (forall i m s s', exec r text i = Some m -> P s -> body m s = Ok s' -> P s') ->
  forall fuel i s res, P s -> each_match fuel r text i body s = Ok res -> P res.
Proof.
  intros Hbody. induction fuel as [|fuel IH]; intros i s res Hs; cbn [each_match].
  - by intros [= <-].
  - destruct (exec r text i) as [m|] eqn:He; [| by intros [= <-]].
    intros Hb. apply bind_Ok in Hb as (s' & Hs' & Hb). eauto.
Qed.

End Captures.

Section Cues.

Import Regex.

Lemma prefixb_spec (p l : list ascii) : prefixb p l = true <-> exists post, l = p ++ post.
Proof.
  revert l. induction p as [|a p IH]; intros l; cbn.
  - split; [eauto | done].
  - destruct l as [|b l]; cbn.
    + split; [done | by intros [post [=]]].
    + rewrite andb_true_iff, IH. split.
      * intros [Hab [post ->]]. apply Ascii.eqb_eq in Hab as ->. eauto.
      * intros [post [= -> ->]]. split; [apply Ascii.eqb_refl | eauto].
Qed.

Lemma infixb_spec (p l : list ascii) :
  infixb p l = true <-> exists pre post, l = pre ++ p ++ post.
Proof.
  induction l as [|b l IH]; cbn [infixb]; rewrite orb_true_iff, prefixb_spec.
  - split.
    + intros [[post Hp] | [=]]. by exists [], post.
    + intros (pre & post & Hl). left. destruct pre; [by exists post |  discriminate].
  - rewrite IH. split.
    + intros [[post Hp] | (pre & post & ->)]; [by exists [], post | by exists (b :: pre), post].
    + intros (pre & post & Hl). destruct pre as [|c pre]; [left; by exists post |].
      right. injection Hl as -> ->. eauto.
Qed.

Lemma includes_spec (s t : string) :
  includes s t = true <-> exists pre post, chars s = pre ++ chars t ++ post.
Proof. apply infixb_spec. Qed.

Lemma chars_toLowerCase (s : string) : chars (toLowerCase s) = map lower_unit (chars s).
Proof. unfold toLowerCase. apply chars_str. Qed.

(** A stretch of the text in lower case comes from a stretch of the text. *)
Lemma lower_stretch (text : string) (pre x post : list ascii) :
  chars (toLowerCase text) = pre ++ x ++ post ->
  exists pre' w post', chars text = pre' ++ w ++ post' /\ map lower_unit w = x.
Proof.
  rewrite chars_toLowerCase. intros Hl.
  apply map_eq_app in Hl as (pre' & rest & -> & _ & Hrest).
  apply map_eq_app in Hrest as (w & post' & -> & Hw & _). eauto.
Qed.

Lemma stretch_lower (text : string) (pre w post : list ascii) :
  chars text = pre ++ w ++ post ->
  includes (toLowerCase text) (str (map lower_unit w)) = true.
Proof.
  intros Ht. apply includes_spec. rewrite chars_toLowerCase, chars_str, Ht, !map_app. eauto.
Qed.

(** Under the flag [i], a unit of the ASCII range in a pattern matches the
    units that have its lower-case form. *)
Lemma just_i_complete (x c : ascii) :
  (code x <? 128)%N = true -> lower_unit c = lower_unit x -> just_i x c = true.
Proof.
  intros Hx Hc.
  assert (Hall : forall x c,
             implb ((code x <? 128)%N && Ascii.eqb (lower_unit c) (lower_unit x))
               (just_i x c) = true).
  { intros x0. apply (every_unit (fun c0 => implb ((code x0 <? 128)%N
                                              && Ascii.eqb (lower_unit c0) (lower_unit x0))
                                             (just_i x0 c0))).
    revert x0.
    apply (every_unit (fun x0 => forallb (fun c0 => implb ((code x0 <? 128)%N
                                              && Ascii.eqb (lower_unit c0) (lower_unit x0))
                                             (just_i x0 c0))
                                   (map ascii_of_nat (List.seq 0 256)))).
    vm_compute. reflexivity. }
  specialize (Hall x c). rewrite Hx, Hc, Ascii.eqb_refl in Hall. exact Hall.
Qed.


Lemma liti_complete (s : string) (w : list ascii) :
  plain s = true -> map lower_unit w = map lower_unit (chars s) -> lang (liti s) w.
Proof.
  unfold plain, liti. generalize (chars s) as l. intros l. revert w.
  induction l as [|x l IH]; intros w Hp Hw; cbn in *.
  - by destruct w.
  - destruct w as [|c w]; [discriminate |]. injection Hw as Hc Hw.
    apply andb_true_iff in Hp as [Hx Hp].
    exists [c], w. split; [done |]. split; [| by apply IH].
    exists c. split; [done |]. by apply just_i_complete.
Qed.

Lemma liti_lower (s : string) (w : list ascii) :
  plain s = true -> toLowerCase (str w) = toLowerCase s -> lang (liti s) w.
Proof.
  intros Hp Hw. apply liti_complete; [exact Hp |].
  apply (f_equal chars) in Hw. by rewrite !chars_toLowerCase, chars_str in Hw.
Qed.



Lemma liti_iff (s : string) (w : list ascii) :
  plain s = true -> lang (liti s) w <-> map lower_unit w = map lower_unit (chars s).
Proof. intros Hp. split; [apply lang_liti | by apply liti_complete]. Qed.

Lemma line_terminator_lower (c : ascii) : line_terminator (lower_unit c) = line_terminator c.
Proof. by destruct c as [[] [] [] [] [] [] [] []]; vm_compute. Qed.

(** A pattern without assertions whose language is told by the lower-case
    form of a text is found in the texts whose lower-case form holds such a
    form. *)
Lemma test_lower (r : Regex.t) (L : list ascii -> Prop) (text : string) :
  pure r = true ->
  (forall w, lang r w <-> L (map lower_unit w)) ->
  test r text = true <-> exists x, L x /\ includes (toLowerCase text) (str x) = true.
Proof.
  intros Hp HL. rewrite test_true by exact Hp. split.
  - intros (pre & w & post & Ht & Hw). exists (map lower_unit w).
    split; [by apply HL | by eapply stretch_lower].
  - intros (x & Hx & Hi). apply includes_spec in Hi as (pre & post & Hi).
    rewrite chars_str in Hi. apply lower_stretch in Hi as (pre' & w & post' & Ht & <-).
    exists pre', w, post'. split; [exact Ht | by apply HL].
Qed.

Lemma rate_limit_lang (w : list ascii) :
  lang TextParser.rate_limit_pattern w <->
  rate_limit_cue (map lower_unit w).
Proof.
  unfold TextParser.rate_limit_pattern, rate_limit_cue. cbn [lang seq fold_right].
  rewrite !liti_iff by reflexivity. split.
  - intros [H429 | [(w1 & r1 & -> & H1 & w2 & r2 & -> & H2 & w3 & r3 & -> & H3 & ->) | Htoo]].
    + by left.
    + apply liti_iff in H1; [| reflexivity]. apply liti_iff in H3; [| reflexivity].
      rewrite app_nil_r, !map_app, H1, H3. destruct H2 as [-> | (c & -> & Hc)].
      * right. right. by left.
      * right. right. right. exists (lower_unit c).
        split; [| done]. rewrite line_terminator_lower.
        unfold dot in Hc. by apply negb_true_iff in Hc.
    + right. by left.
  - intros [H429 | [Htoo | [Hrl | (c & Hc & Hrl)]]].
    + by left.
    + by right; right.
    + right. left.
      change (map lower_unit w = chars "rate" ++ [] ++ chars "limit") in Hrl.
      apply map_eq_app in Hrl as (w1 & w3 & -> & H1 & H3).
      exists w1, (w3 ++ []). split; [by rewrite app_nil_r |].
      split; [by apply liti_iff |].
      exists [], (w3 ++ []). split; [done |]. split; [by left |].
      exists w3, []. split; [done |]. split; [by apply liti_iff | done].
    + right. left.
      change (map lower_unit w = chars "rate" ++ [c] ++ chars "limit") in Hrl.
      apply map_eq_app in Hrl as (w1 & r1 & -> & H1 & Hr1).
      apply map_eq_app in Hr1 as (w2 & w3 & -> & H2 & H3).
      destruct w2 as [|c0 [|? ?]]; try discriminate. injection H2 as <-.
      exists w1, ([c0] ++ w3 ++ []). split; [by rewrite app_nil_r |].
      split; [by apply liti_iff |].
      exists [c0], (w3 ++ []). split; [done |]. split.
      * right. exists c0. split; [done |]. unfold dot.
        by rewrite <- line_terminator_lower, Hc.
      * exists w3, []. split; [done |]. split; [by apply liti_iff | done].
Qed.


(** *** Trimming and splitting *)

Lemma drop_while_head (f : ascii -> bool) (l : list ascii) : unpadded f (drop_while f l).
Proof.
  induction l as [|x l IH]; cbn; [done |]. destruct (f x) eqn:Hx; [exact IH | exact Hx].
Qed.

Lemma drop_while_id (f : ascii -> bool) (l : list ascii) : unpadded f l -> drop_while f l = l.
Proof. destruct l as [|x l]; cbn; [done |]. by intros ->. Qed.

Lemma In_drop_while (f : ascii -> bool) (c : ascii) (l : list ascii) :
  In c (drop_while f l) -> In c l.
Proof.
  induction l as [|x l IH]; cbn; [done |]. destruct (f x); [by right; apply IH | done].
Qed.

Lemma drop_while_snoc (f : ascii -> bool) (x : ascii) (k : list ascii) :
  f x = false -> exists k', drop_while f (k ++ [x]) = k' ++ [x].
Proof.
  intros Hx. induction k as [|y k IH]; cbn.
  - rewrite Hx. by exists [].
  - destruct (f y); [exact IH | by exists (y :: k)].
Qed.

Lemma chars_trim (s : string) :
  chars (trim s) = rev (drop_while space (rev (drop_while space (chars s)))).
Proof. unfold trim. apply chars_str. Qed.

Lemma trim_unpadded (s : string) :
  unpadded space (chars (trim s)) /\ unpadded space (rev (chars (trim s))).
Proof.
  rewrite chars_trim, rev_involutive. split; [| apply drop_while_head].
  pose proof (drop_while_head space (chars s)) as Hh.
  destruct (drop_while space (chars s)) as [|x l]; [done |]. cbn in Hh.
  cbn [rev]. destruct (drop_while_snoc space x (rev l) Hh) as [k' ->].
  rewrite rev_app_distr. exact Hh.
Qed.

Lemma trim_fixed (s : string) :
  unpadded space (chars s) -> unpadded space (rev (chars s)) -> trim s = s.
Proof.
  intros H1 H2. unfold trim. by rewrite (drop_while_id _ _ H1), (drop_while_id _ _ H2),
                                rev_involutive, str_chars.
Qed.

Lemma trim_trim (s : string) : trim (trim s) = trim s.
Proof. destruct (trim_unpadded s). by apply trim_fixed. Qed.

Lemma In_trim (c : ascii) (s : string) : In c (chars (trim s)) -> In c (chars s).
Proof.
  rewrite chars_trim. intros Hin. apply in_rev, In_drop_while, in_rev in Hin.
  by apply In_drop_while in Hin.
Qed.

Lemma split_units_no_sep (sep : ascii) (l : list ascii) :
  forall w, In w (split_units sep l) -> ~ In sep w.
Proof.
  induction l as [|c l IH]; cbn [split_units]; intros w.
  - intros [<- | []] [].
  - destruct (Ascii.eqb c sep) eqn:Hc.
    + intros [<- | Hin]; [intros [] | by apply IH].
    + destruct (split_units sep l) as [|w0 ws].
      * intros [<- | []] [-> | []]. by rewrite Ascii.eqb_refl in Hc.
      * intros [<- | Hin].
        -- intros [-> | Hin]; [by rewrite Ascii.eqb_refl in Hc |].
           by apply (IH w0); [left |].
        -- apply IH. by right.
Qed.


(** *** Methods *)

Lemma upper_of_lower_letter (c : ascii) :
  in_range 97 122 (lower_unit c) = true ->
  upper_unit c = [ascii_of_N (code (lower_unit c) - 32)].
Proof. destruct c as [[] [] [] [] [] [] [] []]; vm_compute; congruence. Qed.

Lemma upper_of_lower (s : string) :
  forallb (in_range 97 122) (chars (toLowerCase s)) = true ->
  toUpperCase s = str (map (fun c => ascii_of_N (code c - 32)) (chars (toLowerCase s))).
Proof.
  rewrite chars_toLowerCase. unfold toUpperCase. intros Hall. f_equal.
  induction (chars s) as [|c l IH]; [reflexivity |].
  cbn in Hall. apply andb_true_iff in Hall as [Hc Hl].
  cbn. by rewrite (upper_of_lower_letter c Hc), IH.
Qed.

Lemma method_upper (w : list ascii) :
  lang (Alt (liti "GET") (Alt (liti "POST") (Alt (liti "PUT")
          (Alt (liti "PATCH") (liti "DELETE"))))) w ->
  In (toUpperCase (str w)) TextParser.HTTP_METHODS.
Proof.
  cbn [lang]. intros Hl.
  assert (Hlow : In (toLowerCase (str w)) ["get"; "post"; "put"; "patch"; "delete"]).
  { destruct Hl as [Hl | [Hl | [Hl | [Hl | Hl]]]]; apply lang_liti_lower in Hl; rewrite Hl;
      cbn; auto 10. }
  cbn in Hlow.
  destruct Hlow as [Hlow | [Hlow | [Hlow | [Hlow | [Hlow | []]]]]];
    rewrite upper_of_lower by (by rewrite <- Hlow); rewrite <- Hlow; cbn; auto 10.
Qed.


(** *** Tags *)

Lemma capitalize_not_empty (s : string) : s <> "" -> TextParser.capitalize s <> "".
Proof.
  unfold TextParser.capitalize. rewrite <- (str_chars s) at 1.
  destruct (chars s) as [|c r]; [done |]. intros _ He.
  apply (f_equal chars) in He. rewrite chars_str in He.
  apply app_eq_nil in He as [He _]. unfold upper_unit in He.
  destruct (in_range 97 122 c || _); [discriminate |].
  by destruct (code c =? 223)%N.
Qed.

Lemma guessTag_not_empty (path : string) : TextParser.guessTag path <> "".
Proof.
  unfold TextParser.guessTag.
  set (keep := fun s => negb (String.eqb s "") && negb (startsWith s "{")
                        && negb (startsWith s ":")).
  assert (Hne : forall s, In s (List.filter keep (split "/" path)) -> s <> "").
  { intros s Hs. apply filter_In in Hs as [_ Hs]. unfold keep in Hs.
    apply andb_true_iff in Hs as [Hs _]. apply andb_true_iff in Hs as [Hs _].
    by apply negb_true_iff, String.eqb_neq in Hs. }
  destruct (List.filter keep (split "/" path)) as [|s0 [|s1 ss]]; [done | |].
  - apply capitalize_not_empty, Hne. by left.
  - apply capitalize_not_empty, Hne. right. by left.
Qed.

Lemma tagged_app (t : value) (done : list Endpoint.t) (e : Endpoint.t) :
  tagged t (done ++ [e])
  = tagged t done ++ (if OpenApiParser.same_value_zero t (Endpoint.tag e)
                      then [Endpoint.id e] else []).
Proof.
  unfold tagged. rewrite List.filter_app, map_app. cbn.
  by destruct (OpenApiParser.same_value_zero t (Endpoint.tag e)).
Qed.

Lemma same_text (a b : string) :
  OpenApiParser.same_value_zero (VStr a) (VStr b) = true <-> VStr a = VStr b.
Proof. cbn. rewrite String.eqb_eq. split; congruence. Qed.

Lemma untouched (t : string) (i : value) (m : list TagGroup.t) :
  Forall (fun g => exists tg, TagGroup.name g = VStr tg) m ->
  ~ In (VStr t) (map TagGroup.name m) ->
  Forall2 (pushed t i) m m.
Proof.
  induction m as [|g m IH]; intros Hs Hn; constructor.
  - unfold pushed. split; [done |]. apply Forall_cons in Hs as [(tg & Hg) _]. rewrite Hg.
    destruct (OpenApiParser.same_value_zero (VStr tg) (VStr t)) eqn:Heq; [| by rewrite app_nil_r].
    apply same_text in Heq. exfalso. apply Hn. left. by rewrite Hg.
  - apply IH; [by apply Forall_cons in Hs as [_ Hs] |]. intros Hin. apply Hn. by right.
Qed.

(** The groups after an endpoint with the tag [t] was filed: the group of
    the name [t] takes the id; without such a group, a new group is added. *)
Lemma tag_push_groups (t : string) (i : value) (m : list TagGroup.t) :
  Forall (fun g => exists tg, TagGroup.name g = VStr tg) m ->
  NoDup (map TagGroup.name m) ->
  (In (VStr t) (map TagGroup.name m) ->
   Forall2 (pushed t i) m (OpenApiParser.tag_push (VStr t) i m)) /\
  (~ In (VStr t) (map TagGroup.name m) ->
   OpenApiParser.tag_push (VStr t) i m = m ++ [TagGroup.mk (VStr t) VUndefined [i]]).
Proof.
  induction m as [|g m IH]; intros Hs Hnd; cbn [OpenApiParser.tag_push map].
  - split; [intros [] | done].
  - pose proof Hs as Hs'. apply Forall_cons in Hs' as [(tg & Hg) Hs'].
    apply NoDup_cons in Hnd as [Hg' Hnd].
    destruct (IH Hs' Hnd) as [IH1 IH2]. rewrite Hg in *.
    destruct (OpenApiParser.same_value_zero (VStr tg) (VStr t)) eqn:Heq.
    + apply same_text in Heq. injection Heq as ->. split; [| intros Hn; exfalso; apply Hn; by left].
      intros _. constructor.
      * unfold pushed. cbn. rewrite Hg. cbn. by rewrite String.eqb_refl.
      * apply untouched; [exact Hs' |]. intros Hin. apply Hg'. by apply list_elem_of_In.
    + assert (Hne : VStr tg <> VStr t).
      { intros Ht. apply same_text in Ht. congruence. }
      split.
      * intros [Hin | Hin]; [done |]. constructor; [| by apply IH1].
        unfold pushed. rewrite Hg, Heq. by rewrite app_nil_r.
      * intros Hn. rewrite IH2; [done |]. intros Hin. apply Hn. by right.
Qed.

Lemma filter_none {A : Type} (f : A -> bool) (l : list A) :
  (forall x, In x l -> f x = false) -> List.filter f l = [].
Proof.
  induction l as [|x l IH]; intros Hf; cbn; [done |].
  rewrite (Hf x) by (by left). apply IH. intros y Hy. apply Hf. by right.
Qed.

Lemma pushed_names (t : string) (i : value) (m m' : list TagGroup.t) :
  Forall2 (pushed t i) m m' -> map TagGroup.name m' = map TagGroup.name m.
Proof. induction 1 as [|g g' l l' [Hn _] _ IH]; [done |]. cbn. by rewrite Hn, IH. Qed.

Lemma pushed_grouped (t : string) (e : Endpoint.t) (m m' : list TagGroup.t)
    (done : list Endpoint.t) :
  Endpoint.tag e = VStr t ->
  Forall2 (pushed t (Endpoint.id e)) m m' ->
  Forall (fun g => (exists t, TagGroup.name g = VStr t) /\
                   TagGroup.endpointIds g <> [] /\
                   TagGroup.endpointIds g = tagged (TagGroup.name g) done) m ->
  Forall (fun g => (exists t, TagGroup.name g = VStr t) /\
                   TagGroup.endpointIds g <> [] /\
                   TagGroup.endpointIds g = tagged (TagGroup.name g) (done ++ [e])) m'.
Proof.
  intros Ht. induction 1 as [|g g' l l' [Hn Hi] _ IH]; intros Hm; [constructor |].
  apply Forall_cons in Hm as [(Hg & Hne & Hids) Hm]. constructor; [| by apply IH].
  rewrite Hn, Hi, tagged_app, Ht. split; [done |]. split; [| by rewrite Hids].
  intros Hnil. by apply app_eq_nil in Hnil as [Hnil _].
Qed.

Lemma grouped_push (t : string) (e : Endpoint.t) (m : list TagGroup.t)
    (done : list Endpoint.t) :
  Endpoint.tag e = VStr t ->
  grouped m done ->
  grouped (OpenApiParser.tag_push (VStr t) (Endpoint.id e) m) (done ++ [e]).
Proof.
  intros Ht (Hnd & Hm & Hdone).
  assert (Hs : Forall (fun g => exists tg, TagGroup.name g = VStr tg) m).
  { eapply Forall_impl; [exact Hm |]. by intros g [Hg _]. }
  destruct (tag_push_groups t (Endpoint.id e) m Hs Hnd) as [Hin Hout].
  assert (Hdec : In (VStr t) (map TagGroup.name m) \/ ~ In (VStr t) (map TagGroup.name m)).
  { destruct (existsb (fun g => OpenApiParser.same_value_zero (TagGroup.name g) (VStr t)) m)
      eqn:Hex.
    - left. apply existsb_exists in Hex as (g & Hg & Heq).
      rewrite List.Forall_forall in Hs. destruct (Hs g Hg) as [tg Htg]. rewrite Htg in Heq.
      apply same_text in Heq. rewrite <- Heq, <- Htg. by apply in_map.
    - right. intros Hin'. apply in_map_iff in Hin' as (g & Hn & Hg).
      assert (Htrue : existsb (fun g => OpenApiParser.same_value_zero (TagGroup.name g) (VStr t))
                        m = true).
      { apply existsb_exists. exists g. split; [exact Hg |]. rewrite Hn. by apply same_text. }
      congruence. }
  destruct Hdec as [Hyes | Hno].
  - specialize (Hin Hyes). clear Hout.
    pose proof (pushed_names _ _ _ _ Hin) as Hnames.
    split; [by rewrite Hnames |]. split.
    + by apply (pushed_grouped t e m).
    + assert (Hhas : forall x, In x (map TagGroup.name m) ->
                 exists g, In g (OpenApiParser.tag_push (VStr t) (Endpoint.id e) m)
                           /\ TagGroup.name g = x).
      { intros x Hx. rewrite <- Hnames in Hx. apply in_map_iff in Hx as (g & Hg & Hx). eauto. }
      apply List.Forall_app. split.
      * eapply Forall_impl; [exact Hdone |]. intros e' (g & Hg & Hn).
        apply Hhas. rewrite <- Hn. by apply in_map.
      * constructor; [| constructor]. rewrite Ht. by apply Hhas.
  - rewrite (Hout Hno). clear Hin Hout.
    assert (Hother : forall g, In g m ->
               OpenApiParser.same_value_zero (TagGroup.name g) (VStr t) = false).
    { intros g Hg. rewrite List.Forall_forall in Hs. destruct (Hs g Hg) as [tg Htg].
      rewrite Htg. destruct (OpenApiParser.same_value_zero (VStr tg) (VStr t)) eqn:Heq; [| done].
      apply same_text in Heq. exfalso. apply Hno. rewrite <- Heq, <- Htg. by apply in_map. }
    split; [| split].
    + rewrite map_app. apply NoDup_app. split; [exact Hnd |]. split; [| apply NoDup_singleton].
      cbn [map TagGroup.name]. intros x Hx [<- | []]%list_elem_of_In.
      by apply Hno, list_elem_of_In.
    + apply List.Forall_app. split.
      * rewrite List.Forall_forall in Hm |- *. intros g Hg.
        destruct (Hm g Hg) as (Hn & Hne & Hids). rewrite tagged_app, Ht, (Hother g Hg), app_nil_r.
        done.
      * constructor; [| constructor]. cbn. split; [by eexists |]. split; [done |].
        rewrite tagged_app, Ht. cbn. rewrite String.eqb_refl.
        unfold tagged. rewrite filter_none; [done |].
        intros e' He'. rewrite List.Forall_forall in Hdone.
        destruct (Hdone e' He') as (g & Hg & Hn). rewrite <- Hn.
        rewrite List.Forall_forall in Hs. destruct (Hs g Hg) as [tg Htg]. rewrite Htg.
        destruct (OpenApiParser.same_value_zero (VStr t) (VStr tg)) eqn:Heq; [| done].
        apply same_text in Heq. exfalso. apply Hno. rewrite Heq, <- Htg. by apply in_map.
    + apply List.Forall_app. split.
      * eapply Forall_impl; [exact Hdone |]. intros e' (g & Hg & Hn). exists g.
        split; [apply in_or_app; by left | done].
      * constructor; [| constructor]. eexists. split; [apply in_or_app; right; by left |].
        by rewrite Ht.
Qed.

Lemma grouped_fold (eps : list Endpoint.t) :
  forall m done,
    Forall (fun e => exists t, Endpoint.tag e = VStr t /\ t <> "") eps ->
    grouped m done ->
    grouped (fold_left (fun m ep => OpenApiParser.tag_push
                                      (or_else (Endpoint.tag ep) (VStr "default"))
                                      (Endpoint.id ep) m) eps m)
      (done ++ eps).
Proof.
  induction eps as [|e eps IH]; intros m done Htags Hg; cbn [fold_left].
  - by rewrite app_nil_r.
  - apply Forall_cons in Htags as [(t & Ht & Hne) Htags].
    replace (done ++ e :: eps) with ((done ++ [e]) ++ eps) by (by rewrite <- app_assoc).
    apply IH; [exact Htags |]. rewrite Ht. unfold or_else.
    rewrite truthy_VStr by exact Hne. by apply grouped_push.
Qed.


(** *** Trailing slashes *)

Lemma star_to_end (class : ascii -> bool) (g : list (nat * (nat * nat))) (l : list ascii) :
  forall b p,
    option_map pos (star class l b p g
                      (fun c => match rest c with [] => Some c | _ :: _ => None end))
    = if forallb class l then Some (p + length l) else None.
Proof.
  induction l as [|x l IH]; intros b p; cbn [star forallb].
  - cbn. by rewrite Nat.add_0_r.
  - destruct (class x) eqn:Hx; [| reflexivity]. cbn [andb].
    specialize (IH (Some x) (S p)).
    destruct (star class l (Some x) (S p) g _) as [c|].
    + cbn in IH |- *. destruct (forallb class l); [| discriminate].
      injection IH as ->. f_equal. cbn. lia.
    + cbn in IH |- *. by destruct (forallb class l).
Qed.

Lemma run_trailing (b : option ascii) (l : list ascii) (p : nat) :
  option_map pos (run TextParser.trailing_slashes (Cursor b l p []) Some)
  = match l with
    | x :: r => if just "/" x && forallb (just "/") r then Some (p + length l) else None
    | [] => None
    end.
Proof.
  unfold TextParser.trailing_slashes, plus. cbn [seq fold_right run rest pos groups before].
  destruct l as [|x r]; [reflexivity |].
  destruct (just "/" x); [| reflexivity]. cbn [andb].
  rewrite (star_to_end (just "/") [] r (Some x) (S p)).
  destruct (forallb (just "/") r); [| reflexivity]. f_equal. cbn. lia.
Qed.

Lemma search_trailing (l : list ascii) :
  forall b p,
    option_map (fun m => (index m, stop m)) (search TextParser.trailing_slashes b l p)
    = option_map (fun i => (p + i, p + i + length (skipn i l))) (trailing l).
Proof.
  induction l as [|x l IH]; intros b p; cbn [search trailing].
  - pose proof (run_trailing b [] p) as Hr.
    destruct (run _ _ Some); [discriminate | reflexivity].
  - pose proof (run_trailing b (x :: l) p) as Hr.
    destruct (run _ _ Some) as [c|].
    + cbn [option_map] in Hr. destruct (just "/" x && forallb (just "/") l); [| discriminate].
      injection Hr as Hr. cbn. rewrite Hr. do 2 f_equal; lia.
    + cbn [option_map] in Hr. destruct (just "/" x && forallb (just "/") l); [discriminate |].
      rewrite IH. destruct (trailing l) as [i|]; [| reflexivity]. cbn. do 2 f_equal; lia.
Qed.

Lemma trailing_bound (l : list ascii) (i : nat) : trailing l = Some i -> i <= length l.
Proof.
  revert i. induction l as [|x l IH]; intros i; cbn; [discriminate |].
  destruct (_ && _); [intros [= <-]; lia |].
  destruct (trailing l) as [j|]; [| discriminate]. intros [= <-]. specialize (IH j eq_refl). lia.
Qed.

(** [replace(/\/+$/, '')] takes the slashes that end the text away. *)
Lemma replace_trailing (s : string) :
  replace_first TextParser.trailing_slashes "" s = str (strip (chars s)).
Proof.
  unfold replace_first, exec, strip. rewrite seek_zero.
  pose proof (search_trailing (chars s) None 0) as Hs.
  destruct (search _ None (chars s) 0) as [m|]; destruct (trailing (chars s)) as [i|] eqn:Ht;
    try discriminate; [| by rewrite str_chars].
  injection Hs as Hi Hst. cbn in Hi, Hst. apply trailing_bound in Ht.
  rewrite length_skipn in Hst. unfold slice. rewrite Hi, Hst, <- length_chars.
  replace (i + (length (chars s) - i)) with (length (chars s)) by lia.
  rewrite Nat.sub_diag, Nat.sub_0_r, skipn_0, firstn_0. cbn [str string_of_list_ascii].
  by rewrite !append_empty.
Qed.

Lemma strip_cons (x : ascii) (r : list ascii) :
  strip (x :: r) = if just "/" x && forallb (just "/") r then [] else x :: strip r.
Proof.
  unfold strip. cbn [trailing]. destruct (_ && _); [reflexivity |].
  by destruct (trailing r).
Qed.

Lemma strip_nil (l : list ascii) : strip l = [] -> forallb (just "/") l = true.
Proof.
  destruct l as [|x r]; [done |]. rewrite strip_cons.
  destruct (just "/" x && forallb (just "/") r) eqn:Hc; [by intros _ | discriminate].
Qed.

(** What is left does not end with a slash. *)
Lemma strip_last (l : list ascii) : forall k x, strip l = k ++ [x] -> just "/" x = false.
Proof.
  induction l as [|x0 r IH]; intros k x.
  - by destruct k.
  - rewrite strip_cons. destruct (just "/" x0 && forallb (just "/") r) eqn:Hc; [by destruct k |].
    destruct k as [|y k]; cbn.
    + intros [= <- Hr]. apply strip_nil in Hr. rewrite Hr, andb_true_r in Hc. exact Hc.
    + intros [= <- Hr]. by apply IH in Hr.
Qed.

Lemma lang_lit (s : string) (w : list ascii) : lang (lit s) w -> w = chars s.
Proof.
  unfold lit. generalize (chars s) as l. intros l. revert w.
  induction l as [|x l IH]; intros w; cbn.
  - done.
  - intros (w1 & w2 & -> & (c & -> & Hc) & Hw2). apply Ascii.eqb_eq in Hc as <-.
    cbn. f_equal. by apply IH.
Qed.

(** A text that starts with http, in any letter case, keeps that start. *)
Lemma strip_http (w1 rest : list ascii) :
  map lower_unit w1 = chars "http" ->
  startsWith (toLowerCase (str (strip (w1 ++ rest)))) "http" = true.
Proof.
  intros Hw. destruct w1 as [|c1 [|c2 [|c3 [|c4 [|? ?]]]]]; try discriminate.
  injection Hw as H1 H2 H3 H4. cbn [app].
  assert (Hns : forall c x, lower_unit c = x -> x <> "/"%char -> just "/" c = false).
  { intros c x Hc Hx. unfold just. destruct (Ascii.eqb "/" c) eqn:He; [| done].
    apply Ascii.eqb_eq in He as <-. by cbn in Hc. }
  rewrite !strip_cons.
  rewrite (Hns c1 _ H1), (Hns c2 _ H2), (Hns c3 _ H3), (Hns c4 _ H4) by discriminate.
  cbn [andb]. unfold startsWith. apply prefixb_spec.
  rewrite chars_toLowerCase, chars_str. cbn [map]. rewrite H1, H2, H3, H4. by eexists.
Qed.

End Cues.

(** The cases of a disjunction, without those that cannot be. *)
Ltac alternatives H :=
  match type of H with
  | False => destruct H
  | _ \/ _ => destruct H as [H | H]; alternatives H
  | _ => idtac
  end.

(** The groups of a pattern, with the languages of their bodies kept folded. *)
Ltac groups_of H :=
  cbn [captured Regex.seq fold_right Regex.lit Regex.liti Regex.plus map chars
       list_ascii_of_string TextParser.patterns TextParser.method_group TextParser.path_group
       TextParser.curlPattern TextParser.h1_pattern TextParser.urlPattern
       TextParser.anyUrlPattern TextParser.heading_pattern] in H;
  alternatives H.

Section TextResults.

Context `{Host}.

Import Regex.

Lemma extractEndpoints_matches (P : TextParser.mined -> Prop) (text : string) :
  P ([], ∅) ->
  (forall pattern i m st st',
     In pattern TextParser.patterns -> exec pattern text i = Some m ->
     P st -> TextParser.mine_signature text m st = Ok st' -> P st') ->
  (forall i m st st',
     exec TextParser.curlPattern text i = Some m ->
     P st -> TextParser.mine_curl text m st = Ok st' -> P st') ->
  forall fuel eps,
    TextParser.extractEndpoints_within fuel text = Ok eps -> exists seen, P (eps, seen).
Proof.
  intros H0 Hsig Hcurl fuel eps. unfold TextParser.extractEndpoints_within. intros He.
  apply bind_Ok in He as (st & Hst & He).
  apply bind_Ok in He as ([eps' seen] & Hst' & [= <-]).
  exists seen.
  apply (each_match_matches P _ _ _ Hcurl _ _ _ _) in Hst'; [exact Hst' |].
  clear Hst'.
  assert (Hps : forall p, In p TextParser.patterns -> In p TextParser.patterns) by auto.
  revert Hst Hps. generalize TextParser.patterns at 1 2.
  generalize ([] : list Endpoint.t, ∅ : gset string) H0.
  intros st0 Hst0 ps. revert st0 Hst0. induction ps as [|p ps IH]; intros st0 Hst0;
    cbn [TextParser.mine_patterns].
  - by intros [= <-].
  - intros Hm Hps. apply bind_Ok in Hm as (st1 & H1 & Hm).
    apply (each_match_matches P p text (TextParser.mine_signature text)) in H1.
    + apply (IH st1 H1 Hm). intros q Hq. apply Hps. by right.
    + intros i m s s'. apply Hsig, Hps. by left.
    + exact Hst0.
Qed.

(** What [parseTextDocs] returns, field by field. *)
Lemma parseTextDocs_fields (input : string) (r : ParseResult.t) :
  TextParser.parseTextDocs input = Ok r ->
  exists baseUrl endpoints title,
    TextParser.extractBaseUrl input = Ok baseUrl /\
    TextParser.extractEndpoints input = Ok endpoints /\
    TextParser.extractTitle input = Ok title /\
    r = ParseResult.mk
          (ApiSpec.mk (VStr (TextParser.or_default title "Untitled API"))
             (VStr (TextParser.extractDescription input))
             (VStr "1.0.0")
             (VStr (TextParser.or_default baseUrl "https://api.example.com"))
             (TextParser.extractAuth input []).1 endpoints
             (TextParser.buildTagGroups endpoints)
             (TextParser.extractPaginationHints input)
             (TextParser.extractRateLimitHints input) ApiSpec.text)
          ((TextParser.extractAuth input []).2 ++
           (if (length endpoints =? 0)%nat
            then ["No endpoints could be extracted from the documentation text."]
            else []))
          ((if String.eqb (TextParser.or_default baseUrl "") ""
            then ["TODO: Base URL could not be determined from the text — please provide it."]
            else []) ++
           (if (length endpoints =? 0)%nat
            then ["TODO: Manually add endpoint definitions — the parser could not detect any."]
            else [])).
Proof.
  unfold TextParser.parseTextDocs. intros Hp.
  apply bind_Ok in Hp as (baseUrl & Hb & Hp).
  destruct (TextParser.extractAuth input []) as [auth warnings] eqn:Hauth.
  apply bind_Ok in Hp as (endpoints & Heps & Hp).
  exists baseUrl, endpoints.
  destruct (length endpoints =? 0)%nat;
    apply bind_Ok in Hp as (title & Ht & [= <-]); exists title; cbn [fst snd];
    rewrite ?app_nil_r; repeat split; try done;
    by destruct (String.eqb (TextParser.or_default baseUrl "") "").
Qed.


Lemma or_default_empty (o : option string) (dflt : string) :
  String.eqb (TextParser.or_default o "") "" = true -> TextParser.or_default o dflt = dflt.
Proof.
  destruct o as [s|]; cbn; [| done].
  destruct (String.eqb s "") eqn:Hs; [done |]. by rewrite Hs.
Qed.

Lemma extractAuth_warning_text (text : string) (ws : list string) :
  (TextParser.extractAuth text ws).2 =
  ws ++ match AuthScheme.type (TextParser.extractAuth text ws).1 with
        | AuthScheme.unknown => ["Authentication method could not be determined from the text."]
        | _ => []
        end.
Proof.
  unfold TextParser.extractAuth.
  repeat match goal with |- context [if ?b then _ else _] => destruct b end;
    cbn; by rewrite ?app_nil_r.
Qed.

(** X10: [parseTextDocs] returns for every text.  Its warnings are the
    warning on the authentication method, present exactly when the type of
    the scheme is unknown, followed by the warning on endpoints, present
    exactly when no endpoint was found.  Its todos are the todo on the base
    URL, with which the base URL is the placeholder, followed by the todo on
    endpoints, present exactly when no endpoint was found. *)
Theorem text_warnings_and_todos (text : string) :
  exists r base,
    TextParser.parseTextDocs text = Ok r /\
    ParseResult.warnings r =
      match AuthScheme.type (ApiSpec.auth (ParseResult.spec r)) with
      | AuthScheme.unknown => ["Authentication method could not be determined from the text."]
      | _ => []
      end ++
      match ApiSpec.endpoints (ParseResult.spec r) with
      | [] => ["No endpoints could be extracted from the documentation text."]
      | _ => []
      end /\
    ParseResult.todos r =
      base ++
      match ApiSpec.endpoints (ParseResult.spec r) with
      | [] => ["TODO: Manually add endpoint definitions — the parser could not detect any."]
      | _ => []
      end /\
    (base = [] \/
     base = ["TODO: Base URL could not be determined from the text — please provide it."] /\
     ApiSpec.baseUrl (ParseResult.spec r) = VStr "https://api.example.com").
Proof.
  destruct (parseTextDocs_total text) as [r Hr]. exists r.
  apply parseTextDocs_fields in Hr as Hf. destruct Hf as (baseUrl & eps & title & _ & _ & _ & ->).
  eexists. split; [exact Hr |]. cbn.
  rewrite extractAuth_warning_text. cbn [app].
  split; [by destruct eps |]. split; [by destruct eps |].
  destruct (String.eqb (TextParser.or_default baseUrl "") "") eqn:Hb; [right | by left].
  split; [done |]. by rewrite or_default_empty.
Qed.


(** X11: a bearer cue decides the scheme, whatever else the text says: a
    text that holds the word bearer, any run of white space and the word
    token, or [authorization:], any run of white space and the word bearer,
    in any letter case, is given the bearer scheme, also when it names an
    API key, and no warning is recorded. *)
Theorem bearer_cue_wins (pre b gap t post : string) (warnings : list string) :
  toLowerCase b = "bearer" /\ toLowerCase t = "token" \/
  toLowerCase b = "authorization:" /\ toLowerCase t = "bearer" ->
  forallb space (chars gap) = true ->
  TextParser.extractAuth (pre +:+ b +:+ gap +:+ t +:+ post) warnings =
    (AuthScheme.mk AuthScheme.bearer VUndefined VUndefined (VStr "bearer")
       (VStr "Bearer token authentication (detected from docs)") VUndefined, warnings).
Proof.
  intros Hcue Hgap. unfold TextParser.extractAuth.
  assert (Hsplit : exists w, chars (pre +:+ b +:+ gap +:+ t +:+ post)
                             = chars pre ++ w ++ chars post /\
                             w = chars b ++ chars gap ++ chars t ++ []).
  { eexists. split; [| reflexivity]. rewrite !chars_app, app_nil_r, <- !app_assoc. reflexivity. }
  destruct Hsplit as (w & Hw & ->).
  assert (Htest : test TextParser.bearer_token (pre +:+ b +:+ gap +:+ t +:+ post)
                  || test TextParser.authorization_bearer (pre +:+ b +:+ gap +:+ t +:+ post)
                  = true).
  { apply orb_true_iff.
    destruct Hcue as [[Hb Ht] | [Hb Ht]]; [left | right];
      (apply test_true; [reflexivity |]; eexists _, _, _; split; [exact Hw |]);
      (exists (chars b), (chars gap ++ chars t ++ []); split; [done |]; split;
         [apply liti_lower; [reflexivity | by rewrite str_chars] |]);
      (exists (chars gap), (chars t ++ []); split; [done |]; split; [exact Hgap |]);
      (exists (chars t), []; split; [done |]; split;
         [apply liti_lower; [reflexivity | by rewrite str_chars] | done]). }
  by rewrite Htest.
Qed.


(** X12: [extractRateLimitHints] returns one hint or none, and it returns
    the hint exactly for the texts whose lower-case form holds 429, too many
    requests, or rate and limit with nothing or one unit that ends no line
    between them. *)
Theorem rate_limit_hint_cues (text : string) :
  (TextParser.extractRateLimitHints text
   = [RateLimitHint.mk 429 "Retry-After" (VStr "Rate limiting detected in docs")] \/
   TextParser.extractRateLimitHints text = []) /\
  (TextParser.extractRateLimitHints text <> [] <->
   exists x, rate_limit_cue x /\ includes (toLowerCase text) (str x) = true).
Proof.
  rewrite <- (test_lower TextParser.rate_limit_pattern rate_limit_cue text eq_refl rate_limit_lang).
  unfold TextParser.extractRateLimitHints.
  destruct (test TextParser.rate_limit_pattern text); split; auto.
  - split; [done | discriminate].
  - split; [done | discriminate].
Qed.


Lemma group_opt_Ok (text : string) (m : Match) (n : nat) (g : string) :
  group text m n = Ok g -> group_opt text m n = Some g.
Proof. unfold group. destruct (group_opt text m n); by intros [= <-]. Qed.

Lemma lang_plus (class : ascii -> bool) (w : list ascii) :
  lang (plus class) w <-> w <> [] /\ forallb class w = true.
Proof.
  unfold plus. cbn [lang]. split.
  - intros (w1 & w2 & -> & (x & -> & Hx) & Hw2). cbn. by rewrite Hx, Hw2.
  - intros [Hne Hw]. destruct w as [|x w]; [done |]. cbn in Hw.
    apply andb_true_iff in Hw as [Hx Hw]. exists [x], w. eauto.
Qed.

Lemma extractTitle_shape (text t : string) :
  TextParser.extractTitle text = Ok (Some t) ->
  trim t = t /\ ~ In TextParser.newline (chars t).
Proof.
  unfold TextParser.extractTitle.
  destruct (exec TextParser.h1_pattern text 0) as [h1|] eqn:He.
  - intros Ht. apply bind_Ok in Ht as (g & Hg & [= <-]).
    split; [apply trim_trim |]. intros Hin%In_trim.
    apply group_opt_Ok in Hg. apply (group_captured _ _ _ _ _ _ He) in Hg.
    groups_of Hg. destruct Hg as [_ [_ Hall]%lang_plus].
    rewrite forallb_forall in Hall. by apply Hall in Hin.
  - destruct (TextParser.nonblank_lines text) as [|l0 ls] eqn:Hl; [discriminate |].
    destruct (String.length l0 <? 80)%nat; [| discriminate].
    intros [= <-]. split; [apply trim_trim |]. intros Hin%In_trim.
    assert (Hl0 : In l0 (split TextParser.newline text)).
    { eapply (proj1 (filter_In _ _ _)). unfold TextParser.nonblank_lines in Hl.
      rewrite Hl. by left. }
    unfold split in Hl0. apply in_map_iff in Hl0 as (w & <- & Hw).
    rewrite chars_str in Hin. by apply split_units_no_sep in Hw.
Qed.

(** X13: the title of a spec that [parseTextDocs] returns is never empty,
    starts and ends with a unit that is no white space, and holds no line
    feed. *)
Theorem text_title_is_one_trimmed_line (text : string) :
  exists r t,
    TextParser.parseTextDocs text = Ok r /\
    ApiSpec.title (ParseResult.spec r) = VStr t /\
    t <> "" /\ trim t = t /\ ~ In TextParser.newline (chars t).
Proof.
  destruct (parseTextDocs_total text) as [r Hr]. exists r.
  apply parseTextDocs_fields in Hr as Hf. destruct Hf as (baseUrl & eps & title & _ & _ & Ht & ->).
  eexists. split; [exact Hr |]. split; [reflexivity |].
  destruct title as [t|]; cbn.
  - apply extractTitle_shape in Ht as [Htrim Hnl].
    destruct (String.eqb t "") eqn:He.
    + split; [done |]. split; [reflexivity |]. cbn. intuition discriminate.
    + apply String.eqb_neq in He. done.
  - split; [done |]. split; [reflexivity |]. cbn. intuition discriminate.
Qed.


(** *** The endpoints of a text *)

Lemma lang_path (w : list ascii) :
  lang (seq [lit "/"; plus (fun c => alnum c || one_of "_-{}/:." c)]) w ->
  exists rest, w = "/"%char :: rest /\ rest <> [] /\ forallb path_unit rest = true.
Proof.
  intros (w1 & w2 & -> & Hw1 & w3 & w4 & -> & Hw3 & ->).
  destruct Hw1 as (v1 & v2 & -> & (x & -> & Hx) & ->).
  apply Ascii.eqb_eq in Hx as <-. rewrite !app_nil_r.
  apply lang_plus in Hw3 as [Hne Hall]. by exists w3.
Qed.

Lemma signature_path (pattern : Regex.t) (w : list ascii) :
  In pattern TextParser.patterns -> captured 2 pattern w ->
  exists rest, w = "/"%char :: rest /\ rest <> [] /\ forallb path_unit rest = true.
Proof.
  intros Hin Hc. cbn in Hin. alternatives Hin; subst pattern; groups_of Hc;
    try (by destruct Hc as [[=] _]); destruct Hc as [_ Hc]; by apply lang_path.
Qed.

Lemma mine_signature_shaped (pattern : Regex.t) (text : string) (i : nat) (m : Match)
    (st st' : TextParser.mined) :
  In pattern TextParser.patterns -> exec pattern text i = Some m ->
  Forall shaped st.1 -> TextParser.mine_signature text m st = Ok st' -> Forall shaped st'.1.
Proof.
  intros Hin He Hst. unfold TextParser.mine_signature. intros Hm.
  apply bind_Ok in Hm as (g1 & _ & Hm). apply bind_Ok in Hm as (path & Hpath & Hm).
  destruct (bool_decide _ || negb (mem (toUpperCase g1) TextParser.HTTP_METHODS)) eqn:Hskip;
    [by injection Hm as <- |].
  apply orb_false_iff in Hskip as [_ Hmeth]. apply negb_false_iff in Hmeth.
  apply bind_Ok in Hm as (summary & _ & [= <-]). cbn [fst].
  apply List.Forall_app. split; [exact Hst |]. constructor; [| constructor].
  unfold shaped. cbn. split.
  { unfold mem in Hmeth. apply existsb_exists in Hmeth as (k & Hk & Heq).
    by apply String.eqb_eq in Heq as ->. }
  do 5 (split; [reflexivity |]). left. unfold from_signature. cbn.
  split; [| split; [by eexists | split; [by eexists | reflexivity]]].
  apply group_opt_Ok in Hpath. apply (group_captured _ _ _ _ _ _ He) in Hpath.
  apply (signature_path _ _ Hin) in Hpath as (rest & Hp & Hne & Hall).
  exists (str rest). rewrite chars_str. split; [| split; [| exact Hall]].
  - rewrite <- (str_chars path), Hp. reflexivity.
  - destruct rest; [done | discriminate].
Qed.

Lemma curl_url (w : list ascii) :
  captured 2 TextParser.curlPattern w -> startsWith (toLowerCase (str w)) "http" = true.
Proof.
  intros Hc. groups_of Hc; try (by destruct Hc as [[=] _]).
  destruct Hc as (_ & w1 & w2 & -> & Hw1 & _). apply (lang_liti (chars "http")) in Hw1.
  unfold startsWith. apply prefixb_spec.
  rewrite chars_toLowerCase, chars_str, map_app, Hw1. by eexists.
Qed.

Lemma curl_method (w : list ascii) :
  captured 1 TextParser.curlPattern w -> In (toUpperCase (str w)) TextParser.HTTP_METHODS.
Proof.
  intros Hc. groups_of Hc; try (by destruct Hc as [[=] _]).
  destruct Hc as [_ Hc]. by apply method_upper.
Qed.

Lemma mine_curl_shaped (text : string) (i : nat) (m : Match) (st st' : TextParser.mined) :
  exec TextParser.curlPattern text i = Some m ->
  Forall shaped st.1 -> TextParser.mine_curl text m st = Ok st' -> Forall shaped st'.1.
Proof.
  intros He Hst. unfold TextParser.mine_curl.
  destruct (group_Ok _ _ _ 2 _ He eq_refl) as [u Hu]. apply group_opt_Ok in Hu. rewrite Hu.
  destruct (URL_pathname u) as [path|] eqn:Hpath; [| by intros [= <-]].
  destruct (bool_decide _); [by intros [= <-] |]. intros [= <-]. cbn [fst].
  apply List.Forall_app. split; [exact Hst |]. constructor; [| constructor].
  unfold shaped. cbn. split.
  { unfold group_or. destruct (group_opt text m 1) as [s|] eqn:Hs; [| cbn; auto].
    destruct (String.eqb s ""); [cbn; auto |].
    apply (group_captured _ _ _ _ _ _ He), curl_method in Hs. by rewrite str_chars in Hs. }
  do 5 (split; [reflexivity |]). right. unfold from_curl. cbn.
  split; [| done]. exists u. split; [exact Hpath |].
  apply (group_captured _ _ _ _ _ _ He), curl_url in Hu. by rewrite str_chars in Hu.
Qed.

Lemma extractEndpoints_shaped (text : string) (eps : list Endpoint.t) :
  TextParser.extractEndpoints text = Ok eps -> Forall shaped eps.
Proof.
  intros He.
  apply (extractEndpoints_matches (fun st => Forall shaped st.1) text) in He as [seen He];
    [exact He | constructor | |].
  - intros pattern i m st st'. apply mine_signature_shaped.
  - intros i m st st'. apply mine_curl_shaped.
Qed.


Lemma parseTextDocs_shaped (text : string) :
  exists r, TextParser.parseTextDocs text = Ok r /\
            Forall shaped (ApiSpec.endpoints (ParseResult.spec r)).
Proof.
  destruct (parseTextDocs_total text) as [r Hr]. exists r. split; [exact Hr |].
  apply parseTextDocs_fields in Hr as (baseUrl & eps & title & _ & He & _ & ->).
  cbn. by apply (extractEndpoints_shaped text).
Qed.

Lemma endpoint_id_units (method path : string) :
  In method TextParser.HTTP_METHODS ->
  forallb (fun c => negb (one_of "{}/:." c)) (chars (TextParser.endpoint_id method path)) = true.
Proof.
  intros Hm. unfold TextParser.endpoint_id, replace_each.
  rewrite !chars_app, chars_str, !forallb_app. apply andb_true_iff. split.
  - cbn in Hm. alternatives Hm; by subst method.
  - apply andb_true_iff. split; [reflexivity |].
    apply forallb_forall. intros c Hc. apply in_map_iff in Hc as (c0 & <- & _).
    destruct (one_of "{}/:." c0) eqn:Hc0; [reflexivity | by rewrite Hc0].
Qed.

(** X14: every endpoint of a spec that [parseTextDocs] returns has one of
    the five methods in upper case, whatever the letter case of the text,
    and an id made of its method in lower case, an underscore, and its path
    with every brace, slash, colon and dot replaced by an underscore; the id
    holds none of these units.  It has no operationId, no request body and
    no deprecated flag. *)
Theorem text_endpoint_methods_and_ids (text : string) :
  exists r,
    TextParser.parseTextDocs text = Ok r /\
    Forall (fun e =>
              In (Endpoint.method e) TextParser.HTTP_METHODS /\
              Endpoint.id e
              = VStr (toLowerCase (Endpoint.method e) +:+ "_" +:+
                      replace_each (one_of "{}/:.") "_" (Endpoint.path e)) /\
              (exists i, Endpoint.id e = VStr i /\
                         forallb (fun c => negb (one_of "{}/:." c)) (chars i) = true) /\
              Endpoint.operationId e = VUndefined /\
              Endpoint.requestBody e = None /\
              Endpoint.deprecated e = None)
      (ApiSpec.endpoints (ParseResult.spec r)).
Proof.
  destruct (parseTextDocs_shaped text) as (r & Hr & Hall). exists r. split; [exact Hr |].
  eapply Forall_impl; [exact Hall |].
  intros e (Hm & Hid & _ & Ho & Hb & Hd & _). repeat split; try done.
  eexists. split; [exact Hid |]. by apply endpoint_id_units.
Qed.

(** X15: every endpoint of a spec that [parseTextDocs] returns comes from
    a signature or from a [curl] example.  From a signature, its path is a
    slash followed by one unit or more among letters, digits and the units
    of [_-{}/:.], and its parameters are those of the placeholders of the
    path.  From a [curl] example, its path is the path of a URL that starts
    with http, in any letter case, its summary is its method and its path,
    its description is fixed, and it has no parameter. *)
Theorem text_endpoint_origins (text : string) :
  exists r,
    TextParser.parseTextDocs text = Ok r /\
    Forall (fun e => from_signature e \/ from_curl e) (ApiSpec.endpoints (ParseResult.spec r)).
Proof.
  destruct (parseTextDocs_shaped text) as (r & Hr & Hall). exists r. split; [exact Hr |].
  eapply Forall_impl; [exact Hall |]. by intros e (_ & _ & _ & _ & _ & _ & Ho).
Qed.

Lemma length_str (l : list ascii) : String.length (str l) = length l.
Proof. by rewrite <- length_chars, chars_str. Qed.

Lemma length_slice (s : string) (a b : nat) : String.length (slice s a b) <= b - a.
Proof. unfold slice. rewrite length_str. apply firstn_le_length. Qed.

(** X16: the description of a spec that [parseTextDocs] returns, and the
    description of each of its endpoints, has at most 200 units. *)
Theorem text_descriptions_are_short (text : string) :
  exists r d,
    TextParser.parseTextDocs text = Ok r /\
    ApiSpec.description (ParseResult.spec r) = VStr d /\ String.length d <= 200 /\
    Forall (fun e => exists d', Endpoint.description e = VStr d' /\ String.length d' <= 200)
      (ApiSpec.endpoints (ParseResult.spec r)).
Proof.
  destruct (parseTextDocs_shaped text) as (r & Hr & Hall). exists r.
  apply parseTextDocs_fields in Hr as Hf. destruct Hf as (baseUrl & eps & title & _ & _ & _ & Hf).
  eexists. split; [exact Hr |]. subst r. cbn in *. split; [reflexivity |].
  split; [apply (length_slice _ 0 200) |].
  eapply Forall_impl; [exact Hall |].
  intros e (_ & _ & _ & _ & _ & _ & [(_ & _ & (c & Hd) & _) | (_ & _ & Hd & _)]);
    eexists; (split; [exact Hd |]).
  - apply (length_slice _ 0 200).
  - cbn. lia.
Qed.


(** X17: the tag groups of a spec that [parseTextDocs] returns divide its
    endpoints by tag: no two groups have the same name, the name of a group
    is a text that is not empty, no group is empty, each group lists the ids
    of the endpoints that carry its name, in their order, and every endpoint
    has the group of its tag. *)
Theorem text_tag_groups_divide_the_endpoints (text : string) :
  exists r,
    TextParser.parseTextDocs text = Ok r /\
    NoDup (map TagGroup.name (ApiSpec.tags (ParseResult.spec r))) /\
    Forall (fun g =>
              (exists t, TagGroup.name g = VStr t /\ t <> "") /\
              TagGroup.endpointIds g <> [] /\
              TagGroup.endpointIds g
              = tagged (TagGroup.name g) (ApiSpec.endpoints (ParseResult.spec r)))
      (ApiSpec.tags (ParseResult.spec r)) /\
    Forall (fun e => exists g, In g (ApiSpec.tags (ParseResult.spec r)) /\
                               TagGroup.name g = Endpoint.tag e)
      (ApiSpec.endpoints (ParseResult.spec r)).
Proof.
  destruct (parseTextDocs_shaped text) as (r & Hr & Hall). exists r. split; [exact Hr |].
  apply parseTextDocs_fields in Hr as (baseUrl & eps & title & _ & _ & _ & ->). cbn in *.
  assert (Htags : Forall (fun e => exists t, Endpoint.tag e = VStr t /\ t <> "") eps).
  { eapply Forall_impl; [exact Hall |]. intros e (_ & _ & Ht & _).
    eexists. split; [exact Ht | apply guessTag_not_empty]. }
  destruct (grouped_fold eps [] [] Htags) as (Hnd & Hgroups & Hdone).
  { split; [constructor | split; constructor]. }
  cbn [app] in *. split; [exact Hnd |]. split; [| exact Hdone].
  eapply Forall_impl; [exact Hgroups |]. intros g ((tg & Hg) & Hne & Hids).
  split; [| by split]. exists tg. split; [exact Hg |].
  rewrite Hids in Hne. unfold tagged in Hne.
  destruct (List.filter _ eps) as [|e l] eqn:Hf; [done |].
  assert (He : In e (List.filter (fun e => OpenApiParser.same_value_zero (TagGroup.name g)
                                            (Endpoint.tag e)) eps)) by (rewrite Hf; by left).
  apply filter_In in He as [He Heq]. rewrite List.Forall_forall in Htags.
  destruct (Htags e He) as (t & Ht & Hnet). rewrite Hg, Ht in Heq.
  apply same_text in Heq. by injection Heq as ->.
Qed.


(** *** The base URL of a text *)

Lemma url_group (w : list ascii) :
  captured 1 TextParser.urlPattern w \/ captured 1 TextParser.anyUrlPattern w ->
  exists w1 rest, w = w1 ++ rest /\ map lower_unit w1 = chars "http".
Proof.
  intros [Hc | Hc]; groups_of Hc; try (by destruct Hc as [[=] _]);
    destruct Hc as (_ & w1 & w2 & -> & Hw1 & _); exists w1, w2; (split; [done |]).
  - by apply (lang_liti (chars "http")) in Hw1.
  - by apply (lang_lit "http") in Hw1 as ->.
Qed.

Lemma stripped_url (g : string) :
  (exists w1 rest, chars g = w1 ++ rest /\ map lower_unit w1 = chars "http") ->
  startsWith (toLowerCase (replace_first TextParser.trailing_slashes "" g)) "http" = true /\
  forall s, replace_first TextParser.trailing_slashes "" g <> s +:+ "/".
Proof.
  intros (w1 & rest & Hg & Hw1). rewrite replace_trailing, Hg. split.
  - by apply strip_http.
  - intros s Hs. apply (f_equal chars) in Hs. rewrite chars_str, chars_app in Hs.
    by apply strip_last in Hs.
Qed.

Lemma extractBaseUrl_shape (text u : string) :
  TextParser.extractBaseUrl text = Ok (Some u) ->
  startsWith (toLowerCase u) "http" = true /\ forall s, u <> s +:+ "/".
Proof.
  unfold TextParser.extractBaseUrl.
  destruct (exec TextParser.urlPattern text 0) as [m|] eqn:He.
  - intros Hu. apply bind_Ok in Hu as (g & Hg & [= <-]). apply stripped_url.
    apply group_opt_Ok, (group_captured _ _ _ _ _ _ He) in Hg. apply url_group. by left.
  - destruct (exec TextParser.anyUrlPattern text 0) as [m|] eqn:He'; [| discriminate].
    intros Hu. apply bind_Ok in Hu as (g & Hg & [= <-]). apply stripped_url.
    apply group_opt_Ok, (group_captured _ _ _ _ _ _ He') in Hg. apply url_group. by right.
Qed.

(** X18: the base URL of a spec that [parseTextDocs] returns starts with
    http, in any letter case, and does not end with a slash. *)
Theorem text_base_url_has_no_trailing_slash (text : string) :
  exists r u,
    TextParser.parseTextDocs text = Ok r /\
    ApiSpec.baseUrl (ParseResult.spec r) = VStr u /\
    startsWith (toLowerCase u) "http" = true /\
    forall s, u <> s +:+ "/".
Proof.
  destruct (parseTextDocs_total text) as [r Hr]. exists r.
  apply parseTextDocs_fields in Hr as Hf. destruct Hf as (baseUrl & eps & title & Hb & _ & _ & ->).
  eexists. split; [exact Hr |]. split; [reflexivity |].
  assert (Hdefault : startsWith (toLowerCase "https://api.example.com") "http" = true /\
                     forall s, "https://api.example.com" <> s +:+ "/").
  { split; [reflexivity |]. intros s Hs. apply (f_equal chars) in Hs. rewrite chars_app in Hs.
    change (chars "/") with ["/"%char] in Hs.
    apply (f_equal last) in Hs. rewrite last_snoc in Hs. discriminate. }
  destruct baseUrl as [u|]; cbn; [| exact Hdefault].
  destruct (String.eqb u ""); [exact Hdefault |]. by apply extractBaseUrl_shape in Hb.
Qed.

End TextResults.

(** ** Closed instances of the properties of the free-text normalizer *)

Lemma bearer_cue_wins_witness :
  TextParser.extractAuth "Send your API_KEY as a Bearer  Token." [] =
    (AuthScheme.mk AuthScheme.bearer VUndefined VUndefined (VStr "bearer")
       (VStr "Bearer token authentication (detected from docs)") VUndefined, []).
Proof.
  apply (bearer_cue_wins "Send your API_KEY as a " "Bearer" "  " "Token" "." []).
  - left. split; reflexivity.
  - reflexivity.
Defined.

(** * The parsing route *)

Section RouteResults.

Context `{Host}.

Import Regex.

Lemma length_zero (s : string) : (String.length s =? 0)%nat = true <-> s = "".
Proof. destruct s; cbn; split; congruence. Qed.

(** The handler on a body that is an object, array, string, number or
    boolean: what it does depends on the two properties it reads. *)
Lemma handle_defined (b : value) :
  b <> VUndefined -> b <> VNull ->
  Route.handle b =
    let content := prop b "content" in
    let type := prop b "type" in
    if negb (truthy content) then Ok (Route.Refused "No content provided") else
    trimmed ← Route.call_trim content;
    if (String.length trimmed =? 0)%nat then Ok (Route.Refused "No content provided") else
    let content := Route.text_of content in
    if is_str type "openapi" || (is_str type "auto" && Route.isLikelyOpenApi content)
    then Route.Parsed <$> OpenApiParser.parseOpenApiSpec content
    else Route.Parsed <$> TextParser.parseTextDocs content.
Proof.
  intros H1 H2. unfold Route.handle.
  rewrite !get_defined by (done || discriminate). reflexivity.
Qed.

Lemma prop_defined (b : value) (k : string) (s : string) :
  prop b k = VStr s -> b <> VUndefined /\ b <> VNull.
Proof. by split; intros ->. Qed.

(** X19: a request for the free-text normalizer is always answered with a
    result: when the content is a string that is not blank, and the type is
    not openapi and either is not auto or the content does not look like an
    OpenAPI document, the answer has status 200 and carries what
    [parseTextDocs] returns for the content. *)
Theorem text_requests_are_answered (b : value) (s : string) :
  prop b "content" = VStr s -> trim s <> "" ->
  is_str (prop b "type") "openapi" = false ->
  is_str (prop b "type") "auto" = false \/ Route.isLikelyOpenApi s = false ->
  exists r, Route.POST (Some b) = Route.Parsed r /\ TextParser.parseTextDocs s = Ok r /\
            Route.status (Route.POST (Some b)) = 200.
Proof.
  intros Hc Hs Ho Ha. destruct (prop_defined _ _ _ Hc) as [H1 H2].
  destruct (parseTextDocs_total s) as [r Hr]. exists r.
  assert (Hp : Route.POST (Some b) = Route.Parsed r).
  { unfold Route.POST. rewrite handle_defined by done. cbn zeta. rewrite Hc, Ho.
    cbn [truthy negb Route.call_trim Route.text_of mbind result_bind orb].
    destruct (String.length (trim s) =? 0)%nat eqn:Hl; [by apply length_zero in Hl |].
    destruct (String.eqb s "") eqn:He.
    - apply String.eqb_eq in He. subst s. by destruct Hs.
    - cbn [negb]. destruct (String.length (trim s) =? 0)%nat; [done |].
      assert (Hb : is_str (prop b "type") "auto" && Route.isLikelyOpenApi s = false).
      { destruct Ha as [-> | ->]; [done | apply andb_false_r]. }
      rewrite Hb, Hr. reflexivity. }
  by rewrite Hp.
Qed.

Lemma receiver_cases (b : value) :
  b = VUndefined \/ b = VNull \/ b <> VUndefined /\ b <> VNull.
Proof. destruct b; auto. Qed.

Lemma fmap_Parsed (m : result ParseResult.t) (msg : string) :
  Route.Parsed <$> m <> Ok (Route.Refused msg).
Proof. by destruct m. Qed.

(** X20: the only answer with status 400 is the one for missing content:
    it is given exactly when the body has properties and its content is
    falsy or a string of white space only; the type is not looked at. *)
Theorem blank_content_is_refused (body : option value) (msg : string) :
  Route.POST body = Route.Refused msg <->
  msg = "No content provided" /\
  exists b, body = Some b /\ b <> VUndefined /\ b <> VNull /\
    (truthy (prop b "content") = false \/
     exists s, prop b "content" = VStr s /\ trim s = "").
Proof.
  destruct body as [b|]; [| split; [done | by intros (_ & b & [=] & _)]].
  destruct (receiver_cases b) as [-> | [-> | [H1 H2]]];
    [split; [done | by intros (_ & b & [= <-] & ? & ? & _)].. |].
  unfold Route.POST. rewrite handle_defined by done. cbn zeta.
  destruct (truthy (prop b "content")) eqn:Ht; cbn [negb].
  - destruct (prop b "content") as [| |x|x|s|l|l] eqn:Hc; try discriminate Ht;
      cbn [Route.call_trim mbind result_bind Route.text_of].
    1-2,4-5: split; [done |]; intros (_ & b' & [= <-] & _ & _ & Hb); rewrite Hc in Hb;
      destruct Hb as [Hb | (s & [=] & _)]; congruence.
    destruct (String.length (trim s) =? 0)%nat eqn:Hl.
    + apply length_zero in Hl. split.
      * intros [= <-]. split; [done |]. exists b. eauto 10.
      * by intros [-> _].
    + assert (Hn : trim s <> "") by (intros Hn; apply length_zero in Hn; congruence).
      split.
      * intros Hp. exfalso.
        destruct (is_str _ "openapi" || _);
          [destruct (OpenApiParser.parseOpenApiSpec s)
          | destruct (TextParser.parseTextDocs s)]; discriminate Hp.
      * intros (_ & b' & [= <-] & _ & _ & Hb). rewrite Hc in Hb.
        destruct Hb as [Hb | (s' & [= <-] & ?)]; congruence.
  - split.
    + intros [= <-]. split; [done |]. exists b. eauto 10.
    + by intros [-> _].
Qed.




(** *** The look of an OpenAPI document *)

Lemma lit_lang (s : string) : lang (lit s) (chars s).
Proof.
  unfold lit. induction (chars s) as [|x l IH]; cbn; [done |].
  exists [x], l. split; [done |]. split; [| exact IH].
  exists x. split; [done | apply Ascii.eqb_refl].
Qed.

Lemma run_LineStart (r : Regex.t) (b : option ascii) (l : list ascii) (p : nat) :
  run (Seq LineStart r) (Cursor b l p []) Some =
  if opens b then run r (Cursor b l p []) Some else None.
Proof.
  cbn [run before]. by destruct b as [x|].
Qed.

Lemma unit_before_cons (b : option ascii) (x : ascii) (skipped : list ascii) :
  unit_before b (x :: skipped) = unit_before (Some x) skipped.
Proof.
  unfold unit_before. destruct skipped as [|y skipped]; [reflexivity |].
  rewrite last_cons_cons. destruct (last (y :: skipped)) eqn:Hl; [reflexivity |].
  by apply last_None in Hl.
Qed.

(** A pattern that is [^] under the flag [m] and then a pattern without
    assertions finds a match exactly when a text of the language starts a
    line. *)
Lemma search_LineStart (r : Regex.t) :
  pure r = true ->
  forall l b p,
    is_Some (search (Seq LineStart r) b l p) <->
    exists skipped w l', l = skipped ++ w ++ l' /\ lang r w /\
                         opens (unit_before b skipped) = true.
Proof.
  intros Hp l. induction l as [|x l IH]; intros b p.
  - cbn [search]. rewrite run_LineStart. split.
    + destruct (opens b) eqn:Hb; [| by intros [? [=]]].
      destruct (run r _ Some) as [c|] eqn:Hr; [| by intros [? [=]]]. intros _.
      apply run_sound in Hr as (w & c' & Hl & Hrest & _). cbn in Hrest.
      exists [], w, (rest c'). by rewrite <- Hrest.
    + intros (skipped & w & l' & Hl & Hw & Ho).
      destruct skipped; [| discriminate]. cbn in Hl, Ho. rewrite Ho.
      destruct (run_complete r Hp w Hw (Cursor b [] p []) l' Some) as [c ->]; cbn; eauto.
  - cbn [search]. rewrite run_LineStart. split.
    + destruct (opens b) eqn:Hb.
      * destruct (run r _ Some) as [c|] eqn:Hr.
        -- intros _. apply run_sound in Hr as (w & c' & Hl & Hrest & _). cbn in Hrest.
           exists [], w, (rest c'). by rewrite <- Hrest.
        -- intros (skipped & w & l' & -> & Hw & Ho)%IH.
           exists (x :: skipped), w, l'. by rewrite unit_before_cons.
      * intros (skipped & w & l' & -> & Hw & Ho)%IH.
        exists (x :: skipped), w, l'. by rewrite unit_before_cons.
    + intros (skipped & w & l' & Hl & Hw & Ho). destruct skipped as [|y skipped].
      * cbn in Hl, Ho. rewrite Ho.
        destruct (run_complete r Hp w Hw (Cursor b (x :: l) p []) l' Some) as [c ->];
          cbn; eauto.
      * injection Hl as <- ->. rewrite unit_before_cons in Ho.
        destruct (if opens b then _ else _); [eauto |]. apply IH. eauto 10.
Qed.

Lemma test_LineStart (r : Regex.t) (text : string) :
  pure r = true ->
  test (Seq LineStart r) text = true <->
  exists pre w post, chars text = pre ++ w ++ post /\ lang r w /\ starts_line pre = true.
Proof.
  intros Hp. unfold test, exec. rewrite seek_zero.
  pose proof (search_LineStart r Hp (chars text) None 0) as Hs.
  assert (Ho : forall pre, opens (unit_before None pre) = starts_line pre).
  { intros pre. unfold unit_before, starts_line. by destruct (last pre). }
  setoid_rewrite Ho in Hs. rewrite <- Hs.
  destruct (search _ None (chars text) 0) as [m|].
  - split; [eauto | done].
  - split; [done | by intros [? [=]]].
Qed.

Lemma has_version_key_spec (doc : value) :
  match Route.has_version_key doc with
  | Ok b => b
  | Throw _ => false
  end = truthy (prop doc "openapi") || truthy (prop doc "swagger").
Proof.
  unfold Route.has_version_key.
  destruct (receiver_cases doc) as [-> | [-> | [H1 H2]]]; [done.. |].
  rewrite !get_defined by (done || discriminate). cbn [mbind result_bind].
  by destruct (truthy (prop doc "openapi")).
Qed.

(** X22: what makes a content look like an OpenAPI document: after
    trimming, it starts with a brace, is a JSON text, and the decoded
    document has a truthy openapi or swagger property; or it does not start
    with a brace, and one of its lines starts with openapi or swagger, in
    lower case, followed by white space, if any, and a colon. *)
Theorem content_that_looks_like_openapi (content : string) :
  Route.isLikelyOpenApi content = true <->
  startsWith (trim content) "{" = true /\
    (exists doc, JSON_parse (trim content) = Some doc /\
       truthy (prop doc "openapi") || truthy (prop doc "swagger") = true)
  \/
  startsWith (trim content) "{" = false /\
    exists pre key ws post,
      chars (trim content) = pre ++ chars key ++ ws ++ chars ":" ++ post /\
      (key = "openapi" \/ key = "swagger") /\
      forallb space ws = true /\ starts_line pre = true.
Proof.
  unfold Route.isLikelyOpenApi. cbn zeta. destruct (startsWith (trim content) "{").
  - destruct (JSON_parse (trim content)) as [doc|].
    + rewrite has_version_key_spec. split.
      * intros Hk. left. eauto.
      * by intros [(_ & doc' & [= <-] & Hk) | [[=] _]].
    + split; [done | by intros [(_ & doc' & [=] & _) | [[=] _]]].
  - unfold Route.key_pattern. cbn [seq fold_right].
    rewrite test_LineStart by reflexivity. split.
    + intros (pre & w & post & Ht & Hw & Hs). right. split; [done |].
      destruct Hw as (w1 & w2 & -> & Hw1 & ws & w3 & -> & Hws & w4 & w5 & -> & Hw4 & ->).
      apply lang_lit in Hw4 as ->. cbn [lang] in Hws.
      destruct Hw1 as [->%lang_lit | ->%lang_lit];
        [exists pre, "openapi", ws, post | exists pre, "swagger", ws, post];
        rewrite Ht, <- ?app_assoc, ?app_nil_r; auto.
    + intros [[[=] _] | (_ & pre & key & ws & post & Ht & Hk & Hws & Hs)].
      exists pre, (chars key ++ ws ++ chars ":"), post.
      split; [by rewrite Ht, <- !app_assoc |]. split; [| done].
      exists (chars key), (ws ++ chars ":"). split; [done |]. split.
      * destruct Hk as [-> | ->]; [left | right]; apply lit_lang.
      * exists ws, (chars ":"). split; [done |]. split; [done |].
        exists (chars ":"), []. split; [by rewrite app_nil_r |]. split; [apply lit_lang | done].
Qed.

End RouteResults.

Lemma text_requests_witness :
  exists r, @Route.POST Reference.host (Some text_body) = Route.Parsed r /\
            @TextParser.parseTextDocs Reference.host pet_text = Ok r.
Proof.
  destruct (@text_requests_are_answered Reference.host text_body pet_text)
    as (r & Hp & Hr & _);
    [reflexivity | vm_compute; discriminate | reflexivity | left; reflexivity |].
  exists r. split; [exact Hp | exact Hr].
Defined.


(** * The learning paths *)

Section LearningResults.

Context `{Host}.

Import LearningPaths.

(** *** The map of resources *)

Lemma lookup_set_same (name : string) (o : ops) (m : resource_map) :
  lookup name (set name o m) = Some o.
Proof.
  induction m as [|[k o'] m IH]; cbn; [by rewrite String.eqb_refl |].
  destruct (String.eqb k name) eqn:Hk; cbn; by rewrite Hk.
Qed.

Lemma lookup_set_other (k name : string) (o : ops) (m : resource_map) :
  k <> name -> lookup k (set name o m) = lookup k m.
Proof.
  intros Hne. induction m as [|[k' o'] m IH]; cbn.
  - destruct (String.eqb name k) eqn:Hk; [| done]. apply String.eqb_eq in Hk. congruence.
  - destruct (String.eqb k' name) eqn:Hk'; cbn; [| by rewrite IH].
    apply String.eqb_eq in Hk' as ->. destruct (String.eqb name k) eqn:Hk; [| done].
    apply String.eqb_eq in Hk. congruence.
Qed.

Lemma keys_set (name : string) (o : ops) (m : resource_map) :
  map fst (set name o m) = if has name m then map fst m else map fst m ++ [name].
Proof.
  unfold has. induction m as [|[k o'] m IH]; cbn; [done |].
  destruct (String.eqb k name) eqn:Hk; cbn; [done |]. rewrite IH.
  by destruct (existsb _ m).
Qed.

Lemma has_keys (name : string) (m : resource_map) :
  has name m = true <-> In name (map fst m).
Proof.
  unfold has. rewrite existsb_exists, in_map_iff. split.
  - intros (e & He & Hn%String.eqb_eq). eauto.
  - intros (e & Hn & He). exists e. split; [done | by apply String.eqb_eq].
Qed.

Lemma NoDup_set (name : string) (o : ops) (m : resource_map) :
  List.NoDup (map fst m) -> List.NoDup (map fst (set name o m)).
Proof.
  intros Hm. rewrite keys_set. destruct (has name m) eqn:Hh; [done |].
  apply NoDup_ListNoDup, NoDup_app. split; [by apply NoDup_ListNoDup |].
  split; [| apply NoDup_singleton].
  intros k Hk [-> | []]%list_elem_of_In. apply list_elem_of_In, has_keys in Hk. congruence.
Qed.

Lemma In_lookup (k : string) (o : ops) (m : resource_map) :
  List.NoDup (map fst m) -> In (k, o) m -> lookup k m = Some o.
Proof.
  induction m as [|[k' o'] m IH]; cbn; [done |]. intros Hm [[= -> ->] | Hin].
  - by rewrite String.eqb_refl.
  - inversion Hm as [|? ? Hk Hm']; subst. destruct (String.eqb k' k) eqn:Hkk; [| by apply IH].
    apply String.eqb_eq in Hkk as ->. destruct Hk. apply in_map_iff. by exists (k, o).
Qed.


Lemma lookup_In (k : string) (o : ops) (m : resource_map) :
  lookup k m = Some o -> In (k, o) m.
Proof.
  induction m as [|[k' o'] m IH]; cbn; [done |].
  destruct (String.eqb k' k) eqn:Hk; [| auto].
  apply String.eqb_eq in Hk as ->. intros [= ->]. auto.
Qed.

Lemma In_set (k name : string) (o o' : ops) (m : resource_map) :
  In (k, o) (set name o' m) -> k = name /\ o = o' \/ In (k, o) m.
Proof.
  induction m as [|[k' o''] m IH]; cbn.
  - intros [[= <- <-] | []]. auto.
  - destruct (String.eqb k' name) eqn:Hk; cbn.
    + apply String.eqb_eq in Hk as ->. intros [[= <- <-] | Hin]; auto.
    + intros [Heq | Hin]; [auto |]. destruct (IH Hin); auto.
Qed.

Lemma filed_set (eps : list Endpoint.t) (name : string) (o : ops) (m : resource_map) :
  filed eps m ->
  Forall (fun v => v = VUndefined \/ id_of_resource eps name v) (values o) ->
  filed eps (set name o m).
Proof.
  intros [Hnd Hm] Ho. split; [by apply NoDup_set |].
  intros k o' [[-> ->] | Hin]%In_set; [done | by apply Hm].
Qed.

Lemma assign_values (eps : list Endpoint.t) (ep : Endpoint.t) (k : string) (r : ops) :
  In ep eps -> resource_of ep = Some k ->
  Forall (fun v => v = VUndefined \/ id_of_resource eps k v) (values r) ->
  Forall (fun v => v = VUndefined \/ id_of_resource eps k v) (values (assign ep r)).
Proof.
  intros Hin Hk Hr. unfold values in *. rewrite !Forall_cons in Hr.
  destruct Hr as (H1 & H2 & H3 & H4 & H5 & _).
  assert (Hid : Endpoint.id ep = VUndefined \/ id_of_resource eps k (Endpoint.id ep)).
  { right. by exists ep. }
  unfold assign. cbn zeta.
  repeat match goal with |- context [if ?b then _ else _] => destruct b end;
    cbn [list_ get_ create update del]; rewrite !Forall_cons; auto 10.
Qed.

(** The first loop of [buildCrudPath] does not throw, and it keeps the map
    of resources in order. *)
Lemma file_filed (eps : list Endpoint.t) (ep : Endpoint.t) (m : resource_map) :
  In ep eps -> filed eps m -> exists m', file ep m = Ok m' /\ filed eps m'.
Proof.
  intros Hin Hm. unfold file. destruct (resource_of ep) as [k|] eqn:Hk; [| eauto].
  destruct (String.eqb k ""); [eauto |].
  set (m1 := if negb (has k m) then set k no_ops m else m).
  assert (Hm1 : filed eps m1).
  { subst m1. destruct (has k m); cbn [negb]; [done |].
    apply filed_set; [done | repeat constructor; by left]. }
  assert (Hl : is_Some (lookup k m1)).
  { subst m1. destruct (has k m) eqn:Hh; cbn [negb]; [| by rewrite lookup_set_same].
    apply has_keys, in_map_iff in Hh as ([k' o] & Hk' & Ho). cbn in Hk'. subst k'.
    rewrite (In_lookup k o); [done | apply Hm | done]. }
  destruct Hl as [r Hr]. rewrite Hr. eexists. split; [reflexivity |].
  apply filed_set; [done |]. apply assign_values; [done.. |].
  apply (proj2 Hm1). by apply lookup_In.
Qed.

Lemma file_all_filed (eps all : list Endpoint.t) :
  incl eps all ->
  forall m, filed all m -> exists m', file_all eps m = Ok m' /\ filed all m'.
Proof.
  induction eps as [|ep eps IH]; intros Hall m Hm; cbn [file_all]; [eauto |].
  destruct (file_filed all ep m) as (m1 & -> & Hm1); [apply Hall; by left | done |].
  cbn [mbind result_bind]. apply IH; [| done]. intros e He. apply Hall. by right.
Qed.

(** The second loop picks a resource of the map, with the number of its
    operations, when it picks one at all. *)
Lemma best_picks (all m : resource_map) :
  incl m all ->
  forall acc : string * nat,
    (acc.2 = 0 \/ exists o, In (acc.1, o) all /\ count o = acc.2) ->
    let b := fold_left (fun b e => if (b.2 <? count e.2)%nat then (e.1, count e.2) else b)
               m acc in
    b.2 = 0 \/ exists o, In (b.1, o) all /\ count o = b.2.
Proof.
  induction m as [|[k o] m IH]; intros Hall acc Hacc; cbn [fold_left]; [done |].
  apply IH; [intros e He; apply Hall; by right |].
  cbn [fst snd]. destruct (acc.2 <? count o)%nat; [| done].
  right. exists o. split; [apply Hall; by left | done].
Qed.

Lemma length_crud_steps (name : string) (o : ops) :
  length (crud_steps name o) = count o.
Proof.
  unfold crud_steps, count, values. cbn [List.filter].
  by destruct (truthy (list_ o)), (truthy (get_ o)), (truthy (create o)),
    (truthy (update o)), (truthy (del o)).
Qed.

Lemma count_bound (o : ops) : count o <= 5.
Proof. unfold count. etransitivity; [apply List.filter_length_le | done]. Qed.


(** *** The three builders *)

Lemma In_firstn {A : Type} (x : A) (n : nat) (l : list A) : In x (firstn n l) -> In x l.
Proof.
  revert l. induction n as [|n IH]; intros [|y l]; cbn; [done.. |].
  intros [-> | Hx]; auto.
Qed.

Lemma crud_steps_refer (eps : list Endpoint.t) (name : string) (o : ops) :
  Forall (fun v => v = VUndefined \/ id_of_resource eps name v) (values o) ->
  Forall (fun s => LearningStep.type s = LearningStep.endpoint /\
                   id_of_resource eps name (LearningStep.endpointId s))
    (crud_steps name o).
Proof.
  unfold values. rewrite !Forall_cons. intros (H1 & H2 & H3 & H4 & H5 & _).
  assert (Hv : forall v, truthy v = true -> v = VUndefined \/ id_of_resource eps name v ->
                         id_of_resource eps name v).
  { by intros v Ht [-> | Hv]. }
  unfold crud_steps. repeat apply Forall_app_2;
    match goal with |- context [truthy ?v] => destruct (truthy v) eqn:Ht end;
    constructor; try constructor; cbn; auto.
Qed.

(** [buildCrudPath] does not throw; the path it returns is for a resource
    with two operations or more, and has a step for each of them. *)
Lemma buildCrudPath_spec (spec : ApiSpec.t) :
  exists c, buildCrudPath spec = Ok c /\
    forall p, c = Some p ->
      exists name o,
        p = LearningPath.mk "crud" ("CRUD Operations — " +:+ capitalize name)
              ("Learn the full Create, Read, Update, Delete cycle for " +:+ name +:+ ".")
              "📝" (crud_steps name o) /\
        2 <= count o /\
        Forall (fun v => v = VUndefined \/ id_of_resource (ApiSpec.endpoints spec) name v)
          (values o).
Proof.
  unfold buildCrudPath. cbn [mret result_ret].
  destruct (file_all_filed (ApiSpec.endpoints spec) (ApiSpec.endpoints spec)
              (fun e He => He) []) as (m & -> & Hnd & Hm).
  { split; [constructor | by intros k o []]. }
  cbn [mbind result_bind].
  pose proof (best_picks m m (fun e He => He) ("", 0) (or_introl eq_refl)) as Hb.
  fold (best m) in Hb. cbn zeta in Hb. destruct (best m) as [name n]. cbn [fst snd] in Hb.
  destruct (n <? 2)%nat eqn:Hn; [by eexists; split; [reflexivity |] |].
  apply Nat.ltb_ge in Hn. destruct Hb as [-> | (o & Ho & <-)]; [lia |].
  rewrite (In_lookup name o m Hnd Ho). eexists. split; [reflexivity |].
  intros p [= <-]. exists name, o. split; [done |]. split; [done | by apply Hm].
Qed.

Lemma filter_with_incl {A : Type} (f : A -> result bool) (l kept : list A) :
  filter_with f l = Ok kept -> incl kept l.
Proof.
  revert kept. induction l as [|x l IH]; intros kept; cbn [filter_with mret result_ret].
  - intros [= <-]. apply incl_refl.
  - intros (keep & _ & (kept' & Hk & [= <-])%bind_Ok)%bind_Ok.
    specialize (IH kept' Hk). destruct keep; intros y Hy; [destruct Hy as [<- | Hy] |];
      cbn; auto.
Qed.

Lemma map_indexed_steps (l : list Endpoint.t) :
  forall i steps,
    map_indexed workflow_step i l = Ok steps ->
    Forall2 (fun ep s => LearningStep.type s = LearningStep.endpoint /\
                         LearningStep.endpointId s = Endpoint.id ep) l steps.
Proof.
  induction l as [|ep l IH]; intros i steps; cbn [map_indexed mret result_ret].
  - intros [= <-]. constructor.
  - intros (s & Hs & (ss & Hss & [= <-])%bind_Ok)%bind_Ok.
    constructor; [| by apply (IH (S i))].
    unfold workflow_step in Hs. cbn [mret result_ret] in Hs.
    by apply bind_Ok in Hs as (what & _ & [= <-]).
Qed.

(** The path that [buildWorkflowPath] returns has a step for each of the
    first five endpoints that the filter keeps, of which there are two or
    more. *)
Lemma buildWorkflowPath_spec (spec : ApiSpec.t) (p : LearningPath.t) :
  buildWorkflowPath spec = Ok (Some p) ->
  exists kept,
    filter_with in_workflow (ApiSpec.endpoints spec) = Ok kept /\ 2 <= length kept /\
    LearningPath.id p = "workflow" /\
    Forall2 (fun ep s => LearningStep.type s = LearningStep.endpoint /\
                         LearningStep.endpointId s = Endpoint.id ep)
      (firstn 5 kept) (LearningPath.steps p).
Proof.
  unfold buildWorkflowPath. cbn [mret result_ret]. intros (kept & Hk & Hp)%bind_Ok. exists kept.
  destruct (length kept <? 2)%nat eqn:Hl; [done |]. apply Nat.ltb_ge in Hl.
  apply bind_Ok in Hp as (steps & Hs & [= <-]). cbn.
  do 3 (split; [done |]). by apply (map_indexed_steps _ 0).
Qed.

(** The path that [buildBasicsPath] returns starts with the step on
    authentication, ends with the step on errors, and has at most a first
    request and a step on pagination between them. *)
Lemma buildBasicsPath_spec (spec : ApiSpec.t) (p : LearningPath.t) :
  buildBasicsPath spec = Ok p ->
  LearningPath.id p = "basics" /\
  2 <= length (LearningPath.steps p) <= 4 /\
  Forall (refers (ApiSpec.endpoints spec)) (LearningPath.steps p).
Proof.
  unfold buildBasicsPath. cbn zeta. cbn [mret result_ret]. intros (auth & _ & Hp)%bind_Ok.
  apply bind_Ok in Hp as (steps & Hs & [= <-]). cbn [LearningPath.id LearningPath.steps].
  split; [done |].
  set (first := match List.find plain_get (ApiSpec.endpoints spec) with
                | Some firstGet => _ | None => _ end) in Hs.
  assert (Hf : 1 <= length first <= 2 /\ Forall (refers (ApiSpec.endpoints spec)) first).
  { subst first. destruct (List.find _ _) as [e|] eqn:He; cbn.
    - split; [lia |]. repeat constructor. exists e. split; [| done].
      by apply List.find_some in He as [He _].
    - split; [lia |]. by repeat constructor. }
  assert (Hp : length first <= length steps <= S (length first) /\
               Forall (refers (ApiSpec.endpoints spec)) steps).
  { destruct (0 <? _)%nat.
    - apply bind_Ok in Hs as (pagination & _ & [= <-]). rewrite length_app. cbn.
      split; [lia |]. apply Forall_app_2; [apply Hf | by repeat constructor].
    - injection Hs as <-. split; [lia | apply Hf]. }
  rewrite length_app. cbn. split; [lia |].
  apply Forall_app_2; [apply Hp | by repeat constructor].
Qed.

Lemma generateLearningPaths_Ok (spec : ApiSpec.t) (paths : list LearningPath.t) :
  generateLearningPaths spec = Ok paths ->
  exists basics crud workflow,
    buildBasicsPath spec = Ok basics /\ buildCrudPath spec = Ok crud /\
    buildWorkflowPath spec = Ok workflow /\
    paths = basics :: option_list crud ++ option_list workflow.
Proof.
  unfold generateLearningPaths. cbn zeta. cbn [mret result_ret]. intros (basics & Hb & Hp)%bind_Ok.
  apply bind_Ok in Hp as (crud & Hc & Hp). apply bind_Ok in Hp as (workflow & Hw & [= <-]).
  exists basics, crud, workflow. do 3 (split; [done |]).
  by destruct crud, workflow.
Qed.


(** *** What the generator spells out *)

Lemma ToString_primitive_Ok (v : value) :
  primitive v = true -> exists s, ToString v = Ok s.
Proof. destruct v as [| |[]| | | |]; cbn; eauto; discriminate. Qed.

Lemma or_else_primitive (a b : value) :
  primitive a = true -> primitive b = true -> primitive (or_else a b) = true.
Proof. unfold or_else. by destruct (truthy a). Qed.

Lemma mapM_returns {A B : Type} (f : A -> result B) (l : list A) :
  Forall (fun x => exists y, f x = Ok y) l -> exists ys, mapM f l = Ok ys.
Proof.
  induction 1 as [|x l [y Hy] _ [ys Hys]]; cbn; [eauto |]. rewrite Hy. cbn.
  rewrite Hys. cbn. eauto.
Qed.

Lemma filter_with_returns {A : Type} (f : A -> result bool) (l : list A) :
  Forall (fun x => exists b, f x = Ok b) l -> exists kept, filter_with f l = Ok kept.
Proof.
  induction 1 as [|x l [b Hb] _ [kept Hk]]; cbn [filter_with]; [by eexists |].
  rewrite Hb. cbn [mbind result_bind]. rewrite Hk. cbn. eauto.
Qed.

Lemma map_indexed_returns {A B : Type} (f : A -> nat -> result B) (l : list A) :
  Forall (fun x => forall i, exists y, f x i = Ok y) l ->
  forall i, exists ys, map_indexed f i l = Ok ys.
Proof.
  induction 1 as [|x l Hx _ IH]; intros i; cbn [map_indexed]; [by eexists |].
  destruct (Hx i) as [y ->]. cbn [mbind result_bind]. destruct (IH (S i)) as [ys ->].
  cbn. eauto.
Qed.

Lemma filter_with_Forall {A : Type} (f : A -> result bool) (l kept : list A) :
  filter_with f l = Ok kept -> Forall (fun x => exists b, f x = Ok b) l.
Proof.
  revert kept. induction l as [|x l IH]; intros kept; cbn [filter_with mret result_ret].
  - constructor.
  - intros (keep & Hk & (kept' & Hk' & _)%bind_Ok)%bind_Ok. constructor; eauto.
Qed.

Lemma spells_or_else (a b : value) : spells a -> spells b -> spells (or_else a b).
Proof. unfold or_else. by destruct (truthy a). Qed.

Lemma spells_VStr (s : string) : spells (VStr s).
Proof. by exists s. Qed.

(** The generator returns when what it spells out converts to a string. *)
Lemma generateLearningPaths_spellable (spec : ApiSpec.t) :
  spellable spec -> exists paths, generateLearningPaths spec = Ok paths.
Proof.
  intros (Hh & Hp & He). unfold generateLearningPaths. cbn zeta.
  assert (Hb : exists basics, buildBasicsPath spec = Ok basics).
  { unfold buildBasicsPath. cbn zeta.
    assert (Ha : exists auth, buildAuthContent spec = Ok auth).
    { unfold buildAuthContent. cbn zeta. destruct (AuthScheme.type _); try by eexists.
      destruct (Hh eq_refl) as [h ->]. by eexists. }
    destruct Ha as [auth ->]. cbn [mbind result_bind].
    unfold buildPaginationContent.
    destruct (ApiSpec.paginationHints spec) as [|hint hints]; [by eexists |].
    cbn [length Nat.ltb Nat.leb].
    destruct (mapM_returns (fun p => s ← ToString p; mret ("`" +:+ s +:+ "`"))
                (PaginationHint.parameters hint)) as [ps ->]; [| by eexists].
    eapply Forall_impl; [exact Hp |]. intros p [s ->]. by eexists. }
  destruct Hb as [basics ->]. cbn [mbind result_bind].
  destruct (buildCrudPath_spec spec) as (crud & -> & _). cbn [mbind result_bind].
  assert (Hw : exists workflow, buildWorkflowPath spec = Ok workflow).
  { unfold buildWorkflowPath.
    destruct (filter_with_returns in_workflow (ApiSpec.endpoints spec)) as [kept Hk].
    { eapply Forall_impl; [exact He |]. intros e [[s Hs] [t Ht]]. unfold in_workflow.
      rewrite Hs, Ht. by eexists. }
    rewrite Hk. cbn [mbind result_bind]. destruct (length kept <? 2)%nat; [by eexists |].
    destruct (map_indexed_returns workflow_step (firstn 5 kept)) with (i := 0) as [steps ->];
      [| by eexists].
    apply Forall_forall. intros e Hin%list_elem_of_In i.
    apply In_firstn, (filter_with_incl _ _ _ Hk) in Hin.
    rewrite Forall_forall in He. apply list_elem_of_In, He in Hin as [Hs _].
    unfold workflow_step. cbn zeta.
    destruct (spells_or_else (Endpoint.summary e) (VStr (Endpoint.path e)) Hs
                (spells_VStr _)) as [what ->].
    by eexists. }
  destruct Hw as [workflow ->]. by eexists.
Qed.

(** When the generator returns, what it spells out has converted. *)
Lemma generateLearningPaths_spells (spec : ApiSpec.t) (paths : list LearningPath.t) :
  generateLearningPaths spec = Ok paths -> spellable spec.
Proof.
  intros (basics & crud & workflow & Hb & _ & Hw & _)%generateLearningPaths_Ok.
  unfold buildBasicsPath in Hb. cbn zeta in Hb.
  apply bind_Ok in Hb as (auth & Ha & Hb). apply bind_Ok in Hb as (steps & Hs & _).
  split; [| split].
  - intros Ht. unfold buildAuthContent in Ha. cbn zeta in Ha. rewrite Ht in Ha.
    apply bind_Ok in Ha as (h & Hh & _). by exists h.
  - unfold buildPaginationContent in Hs.
    destruct (ApiSpec.paginationHints spec) as [|hint hints]; [done |].
    cbn [length Nat.ltb Nat.leb] in Hs.
    apply bind_Ok in Hs as (pagination & Hps & _).
    apply bind_Ok in Hps as (ps & Hps & _). apply mapM_Ok in Hps.
    induction Hps as [|p q l l' Hp _ IH]; constructor; [| exact IH].
    apply bind_Ok in Hp as (t & Ht & _). by exists t.
  - unfold buildWorkflowPath in Hw. apply bind_Ok in Hw as (kept & Hk & _).
    apply filter_with_Forall in Hk. eapply Forall_impl; [exact Hk |].
    intros e [b Hin]. unfold in_workflow in Hin.
    apply bind_Ok in Hin as (t & Ht & Hin). apply bind_Ok in Hin as (u & Hu & _).
    split; [by exists t | by exists u].
Qed.

Lemma printable_spellable (spec : ApiSpec.t) : printable spec -> spellable spec.
Proof.
  intros (Hh & He & Hp). split; [| split].
  - intros _. by apply ToString_primitive_Ok, or_else_primitive.
  - destruct (ApiSpec.paginationHints spec) as [|hint hints]; [done |].
    eapply Forall_impl; [exact Hp |]. intros p. apply ToString_primitive_Ok.
  - eapply Forall_impl; [exact He |]. intros e [Hs Ht].
    split; by apply ToString_primitive_Ok.
Qed.

(** The generator returns when what it spells out is primitive. *)
Lemma generateLearningPaths_printable (spec : ApiSpec.t) :
  printable spec -> exists paths, generateLearningPaths spec = Ok paths.
Proof. intros Hp. by apply generateLearningPaths_spellable, printable_spellable. Qed.


(** *** The paths *)

(** X23: the generator returns the path of the basics, then the path on
    CRUD, if any, then the path of the workflow, if any; every path has
    two to five steps. *)
Theorem learning_paths_are_few_and_short (spec : ApiSpec.t) (paths : list LearningPath.t) :
  generateLearningPaths spec = Ok paths ->
  In (map LearningPath.id paths)
    [["basics"]; ["basics"; "crud"]; ["basics"; "workflow"]; ["basics"; "crud"; "workflow"]] /\
  Forall (fun p => 2 <= length (LearningPath.steps p) <= 5) paths.
Proof.
  intros (basics & crud & workflow & Hb & Hc & Hw & ->)%generateLearningPaths_Ok.
  apply buildBasicsPath_spec in Hb as (Hbi & Hbl & _).
  assert (Hcrud : forall p, crud = Some p ->
                    LearningPath.id p = "crud" /\ 2 <= length (LearningPath.steps p) <= 5).
  { intros p ->. destruct (buildCrudPath_spec spec) as (c & Hc' & Hp).
    rewrite Hc in Hc'. injection Hc' as <-.
    destruct (Hp p eq_refl) as (name & o & -> & Ho & _). cbn.
    rewrite length_crud_steps. pose proof (count_bound o). by split. }
  assert (Hwork : forall p, workflow = Some p ->
                    LearningPath.id p = "workflow" /\ 2 <= length (LearningPath.steps p) <= 5).
  { intros p ->. apply buildWorkflowPath_spec in Hw as (kept & _ & Hk & Hi & Hs).
    split; [done |]. apply Forall2_length in Hs. rewrite <- Hs, length_firstn. lia. }
  destruct crud as [c|], workflow as [w|]; simpl;
    try (destruct (Hcrud c eq_refl) as [-> Hcl]);
    try (destruct (Hwork w eq_refl) as [-> Hwl]); rewrite Hbi;
    (split; [cbn; auto 6 | repeat (apply List.Forall_cons; [lia |]); apply List.Forall_nil]).
Qed.

(** X24: referential integrity of the learning paths: a step on an
    endpoint carries the id of an endpoint of the spec, a step of
    information carries none, and no step is an exercise. *)
Theorem learning_steps_refer_to_endpoints (spec : ApiSpec.t) (paths : list LearningPath.t) :
  generateLearningPaths spec = Ok paths ->
  Forall (fun p => Forall (refers (ApiSpec.endpoints spec)) (LearningPath.steps p)) paths.
Proof.
  intros (basics & crud & workflow & Hb & Hc & Hw & ->)%generateLearningPaths_Ok.
  constructor; [by apply buildBasicsPath_spec in Hb as (_ & _ & Hb) |].
  apply Forall_app_2.
  - destruct crud as [p|]; [| constructor]. repeat constructor.
    destruct (buildCrudPath_spec spec) as (c & Hc' & Hp).
    rewrite Hc in Hc'. injection Hc' as <-.
    destruct (Hp p eq_refl) as (name & o & -> & _ & Ho). cbn.
    eapply Forall_impl; [apply (crud_steps_refer _ _ _ Ho) |].
    intros s [Ht (e & He & Hid & _)]. unfold refers. rewrite Ht. eauto.
  - destruct workflow as [p|]; [| constructor]. repeat constructor.
    apply buildWorkflowPath_spec in Hw as (kept & Hk & _ & _ & Hs).
    assert (Hin : incl (firstn 5 kept) (ApiSpec.endpoints spec)).
    { intros e He%In_firstn. by apply (filter_with_incl _ _ _ Hk). }
    revert Hin. induction Hs as [|e s l ss [Ht Hid] _ IH]; intros Hin; constructor.
    + unfold refers. rewrite Ht. exists e. split; [apply Hin; by left | done].
    + apply IH. intros e' He'. apply Hin. by right.
Qed.

(** X25: [buildCrudPath] does not throw, and the path it returns is about
    one resource: its title names the resource, and each of its steps
    carries the id of an endpoint of the spec whose path has that resource
    as its first segment that is no placeholder and no prefix api, v1, v2
    or v3. *)
Theorem crud_path_is_about_one_resource (spec : ApiSpec.t) :
  exists crud, buildCrudPath spec = Ok crud /\
    forall p, crud = Some p ->
      exists name,
        LearningPath.title p = "CRUD Operations — " +:+ capitalize name /\
        Forall (fun s => id_of_resource (ApiSpec.endpoints spec) name
                           (LearningStep.endpointId s))
          (LearningPath.steps p).
Proof.
  destruct (buildCrudPath_spec spec) as (crud & Hc & Hp). exists crud. split; [done |].
  intros p Hcp. destruct (Hp p Hcp) as (name & o & -> & _ & Ho). exists name.
  split; [done |]. cbn. eapply Forall_impl; [apply (crud_steps_refer _ _ _ Ho) |].
  by intros s [_ Hs].
Qed.

Lemma filter_with_filter (eps kept : list Endpoint.t) :
  filter_with in_workflow eps = Ok kept -> kept = List.filter mentions eps.
Proof.
  revert kept. induction eps as [|e eps IH]; intros kept; cbn [filter_with mret result_ret].
  - by intros [= <-].
  - intros (keep & Hk & (kept' & Hk' & [= <-])%bind_Ok)%bind_Ok.
    cbn [List.filter]. unfold mentions at 1. rewrite Hk, <- (IH kept' Hk'). done.
Qed.

(** X26: the path of the workflow is made when two endpoints or more
    mention a keyword of a workflow, and only then; its steps are on the
    first five of these endpoints, in the order of the spec. *)
Theorem workflow_path_follows_the_spec (spec : ApiSpec.t) (workflow : option LearningPath.t) :
  buildWorkflowPath spec = Ok workflow ->
  let kept := List.filter mentions (ApiSpec.endpoints spec) in
  (workflow = None <-> length kept < 2) /\
  forall p, workflow = Some p ->
    map LearningStep.endpointId (LearningPath.steps p) = map Endpoint.id (firstn 5 kept).
Proof.
  intros Hw kept. destruct workflow as [p|].
  - apply buildWorkflowPath_spec in Hw as (kept' & Hk & Hl & _ & Hs).
    apply filter_with_filter in Hk. fold kept in Hk. subst kept'. split.
    + split; [done | lia].
    + intros p' [= <-]. clear Hl. induction Hs as [|e s l ss [_ Hid] _ IH]; [done |].
      cbn. by rewrite Hid, IH.
  - split; [| done]. split; [intros _ | done].
    unfold buildWorkflowPath in Hw. cbn [mret result_ret] in Hw.
    apply bind_Ok in Hw as (kept' & Hk & Hw).
    apply filter_with_filter in Hk. fold kept in Hk. subst kept'.
    destruct (length kept <? 2)%nat eqn:Hl; [by apply Nat.ltb_lt in Hl |].
    by apply bind_Ok in Hw as (steps & _ & [=]).
Qed.

(** X27: the generator returns exactly when what it spells out in its
    templates converts to a string: the header name of a scheme of type
    apiKey, the parameters of the first pagination hint, and the summary
    and the tag of each endpoint; the other fields of the spec play no
    role.  Values that are no arrays and no objects always convert. *)
Theorem learning_paths_are_made_when_texts_convert (spec : ApiSpec.t) :
  ((exists paths, generateLearningPaths spec = Ok paths) <-> spellable spec) /\
  (printable spec -> spellable spec).
Proof.
  split; [| apply printable_spellable]. split.
  - intros [paths Hp]. by apply (generateLearningPaths_spells spec paths).
  - apply generateLearningPaths_spellable.
Qed.

Lemma extractAuth_headerName (text : string) :
  primitive (AuthScheme.headerName (TextParser.extractAuth text []).1) = true.
Proof.
  unfold TextParser.extractAuth. cbn zeta.
  by repeat match goal with |- context [if ?b then _ else _] => destruct b end.
Qed.

Lemma extractPaginationHints_parameters (text : string) :
  match TextParser.extractPaginationHints text with
  | hint :: _ => Forall (fun p => primitive p = true) (PaginationHint.parameters hint)
  | [] => True
  end.
Proof.
  unfold TextParser.extractPaginationHints. cbn zeta.
  repeat match goal with |- context [if ?b then _ else _] => destruct b end;
    cbn; by repeat constructor.
Qed.

(** X28: the two steps compose: for every text, the free-text normalizer
    returns a spec, and the generator returns learning paths for it. *)
Theorem text_docs_give_learning_paths (text : string) :
  exists r paths,
    TextParser.parseTextDocs text = Ok r /\
    generateLearningPaths (ParseResult.spec r) = Ok paths.
Proof.
  destruct (parseTextDocs_total text) as [r Hr]. exists r.
  destruct (generateLearningPaths_printable (ParseResult.spec r)) as [paths Hp]; [| eauto].
  apply parseTextDocs_fields in Hr as (baseUrl & eps & title & _ & He & _ & ->).
  cbn. split; [apply extractAuth_headerName |].
  split; [| apply extractPaginationHints_parameters].
  apply extractEndpoints_shaped in He. eapply Forall_impl; [exact He |].
  intros e (_ & _ & Ht & _ & _ & _ & Hfrom). rewrite Ht. split; [| done].
  by destruct Hfrom as [(_ & [s ->] & _) | (_ & -> & _)].
Qed.

End LearningResults.

(** ** Closed instances of the properties of the learning paths *)

(** The paths for three signatures on orders: all three are made. *)
Lemma orders_paths :
  exists r paths,
    @TextParser.parseTextDocs Reference.host orders_text = Ok r /\
    @LearningPaths.generateLearningPaths Reference.host (ParseResult.spec r) = Ok paths /\
    map LearningPath.id paths = ["basics"; "crud"; "workflow"].
Proof.
  eexists _, _. split; [vm_compute; reflexivity |]. split; vm_compute; reflexivity.
Qed.

Lemma learning_paths_witness :
  exists r paths,
    @TextParser.parseTextDocs Reference.host orders_text = Ok r /\
    @LearningPaths.generateLearningPaths Reference.host (ParseResult.spec r) = Ok paths /\
    Forall (fun p => 2 <= length (LearningPath.steps p) <= 5) paths.
Proof.
  destruct orders_paths as (r & paths & Hr & Hp & _). exists r, paths.
  split; [exact Hr |]. split; [exact Hp |].
  exact (proj2 (@learning_paths_are_few_and_short Reference.host _ _ Hp)).
Defined.

Lemma learning_steps_witness :
  exists r paths,
    @TextParser.parseTextDocs Reference.host orders_text = Ok r /\
    @LearningPaths.generateLearningPaths Reference.host (ParseResult.spec r) = Ok paths /\
    Forall (fun p => Forall (refers (ApiSpec.endpoints (ParseResult.spec r)))
                       (LearningPath.steps p)) paths.
Proof.
  destruct orders_paths as (r & paths & Hr & Hp & _). exists r, paths.
  split; [exact Hr |]. split; [exact Hp |].
  exact (@learning_steps_refer_to_endpoints Reference.host _ _ Hp).
Defined.

Lemma orders_workflow :
  exists r p,
    @TextParser.parseTextDocs Reference.host orders_text = Ok r /\
    @LearningPaths.buildWorkflowPath Reference.host (ParseResult.spec r) = Ok (Some p).
Proof. eexists _, _. split; [vm_compute; reflexivity |]. vm_compute. reflexivity. Qed.

Lemma workflow_path_witness :
  exists r p,
    @TextParser.parseTextDocs Reference.host orders_text = Ok r /\
    @LearningPaths.buildWorkflowPath Reference.host (ParseResult.spec r) = Ok (Some p) /\
    map LearningStep.endpointId (LearningPath.steps p) =
    map Endpoint.id
      (firstn 5 (List.filter (@mentions Reference.host)
                   (ApiSpec.endpoints (ParseResult.spec r)))).
Proof.
  destruct orders_workflow as (r & p & Hr & Hp). exists r, p.
  split; [exact Hr |]. split; [exact Hp |].
  exact (proj2 (@workflow_path_follows_the_spec Reference.host _ _ Hp) p eq_refl).
Defined.

(** The spec of a document with a scheme of type apiKey, a pagination
    hint and operations with and without a summary. *)
Lemma keyed_spec :
  exists r hint,
    @OpenApiParser.parseOpenApiSpec Reference.host keyed_input = Ok r /\
    AuthScheme.type (ApiSpec.auth (ParseResult.spec r)) = AuthScheme.apiKey /\
    AuthScheme.headerName (ApiSpec.auth (ParseResult.spec r)) = VStr "X-Key" /\
    ApiSpec.paginationHints (ParseResult.spec r) = [hint] /\
    PaginationHint.parameters hint = [VStr "limit"] /\
    map Endpoint.summary (ApiSpec.endpoints (ParseResult.spec r)) =
      [VStr "List orders"; VStr "Create order"] /\
    map Endpoint.tag (ApiSpec.endpoints (ParseResult.spec r)) =
      [VStr "Orders"; VStr "default"].
Proof. eexists _, _. split; [vm_compute; reflexivity |]. repeat split; vm_compute; reflexivity. Qed.

Lemma learning_paths_are_made_witness :
  (exists r paths,
     @OpenApiParser.parseOpenApiSpec Reference.host keyed_input = Ok r /\
     AuthScheme.type (ApiSpec.auth (ParseResult.spec r)) = AuthScheme.apiKey /\
     length (ApiSpec.paginationHints (ParseResult.spec r)) = 1 /\
     length (ApiSpec.endpoints (ParseResult.spec r)) = 2 /\
     @LearningPaths.generateLearningPaths Reference.host (ParseResult.spec r) = Ok paths) /\
  (exists r,
     @OpenApiParser.parseOpenApiSpec Reference.host unspellable_input = Ok r /\
     @LearningPaths.generateLearningPaths Reference.host (ParseResult.spec r) =
       Throw TypeError).
Proof.
  split; [| eexists; split; [vm_compute; reflexivity |]; vm_compute; reflexivity].
  destruct keyed_spec as (r & hint & Hr & Ht & Hh & Hp & Hps & Hs & Htag).
  assert (Hpr : printable (ParseResult.spec r)).
  { split; [by rewrite Hh |]. split; [| by rewrite Hp, Hps; repeat constructor].
    destruct (ApiSpec.endpoints (ParseResult.spec r)) as [|e1 [|e2 [|e3 eps]]];
      try discriminate Hs.
    injection Hs as Hs1 Hs2. injection Htag as Ht1 Ht2.
    repeat constructor; by rewrite ?Hs1, ?Hs2, ?Ht1, ?Ht2. }
  destruct (@learning_paths_are_made_when_texts_convert Reference.host (ParseResult.spec r))
    as [Hiff Hsp].
  destruct (proj2 Hiff (Hsp Hpr)) as [paths Hpaths].
  exists r, paths. split; [exact Hr |]. split; [exact Ht |].
  split; [by rewrite Hp |]. split; [| exact Hpaths].
  by rewrite <- (length_map Endpoint.summary), Hs.
Defined.
